(** * PuzzleBreak: the key validator and the key derivation engine

    A shallow embedding of [src/lib/bitcoin-validator.ts],
    [src/lib/key-derivation-engine.ts] and the derivation batch of
    [src/lib/agent-tools.ts], the properties their specification states
    about them, and further properties of the code.

    Conventions of the embedding:
    - a JavaScript string is the list of its UTF-16 code units ([jsstring]);
    - a [bigint] is a [Z]; [/] and [%] on bigints truncate towards zero
      ([Z.quot], [Z.rem]);
    - a [number] that holds an integer or [NaN] is a [number];
    - a [while] loop is run by [while_loop] under a bound that the
      termination lemma of each loop shows is never reached;
    - a thrown exception is the [inl] of a sum, a [try]/[catch] a match on
      it. *)

From Stdlib Require Import ZArith Lia Bool Ascii String Znumtheory.
From Stdlib Require Import Zmod.ZmodDef Zmod.ZmodBase Zmod.ZmodInv Zmod.ZmodNsatz.
From Stdlib Require Import List Permutation.
Import Init.Datatypes.
Import ListNotations.
Local Open Scope Z_scope.

(** ** JavaScript strings *)

Module Js.

Definition char := Z.
Definition jsstring := list char.

(** The code units of an ASCII literal. *)
Definition lit (s : string) : jsstring :=
  map (fun a => Z.of_N (N_of_ascii a)) (list_ascii_of_string s).

Definition eqb_string (s t : jsstring) : bool :=
  if list_eq_dec Z.eq_dec s t then true else false.

Definition in_range (lo hi c : Z) : bool := (lo <=? c) && (c <=? hi).

(** WhiteSpace and LineTerminator of ECMAScript: what [String.prototype.trim]
    strips and what [BigInt(string)] and [parseInt] skip. *)
Definition is_white_space (c : char) : bool :=
  in_range 9 13 c || (c =? 32) || (c =? 160) || (c =? 5760)
  || in_range 8192 8202 c || (c =? 8232) || (c =? 8233) || (c =? 8239)
  || (c =? 8287) || (c =? 12288) || (c =? 65279).

Fixpoint trimStart (s : jsstring) : jsstring :=
  match s with
  | c :: s' => if is_white_space c then trimStart s' else s
  | [] => []
  end.

Definition trimEnd (s : jsstring) : jsstring := rev (trimStart (rev s)).
Definition trim (s : jsstring) : jsstring := trimEnd (trimStart s).

(** [toLowerCase] and [toUpperCase] on the Basic Latin letters.  Every string
    the program lowers has passed a test that leaves only hexadecimal digits
    and white space in it, and those have no other case mapping. *)
Definition lower_char (c : char) : char := if in_range 65 90 c then c + 32 else c.
Definition upper_char (c : char) : char := if in_range 97 122 c then c - 32 else c.
Definition toLowerCase (s : jsstring) : jsstring := map lower_char s.
Definition toUpperCase (s : jsstring) : jsstring := map upper_char s.

(** [s.substring(i, j)] for [0 <= i <= j]. *)
Definition substring (i j : nat) (s : jsstring) : jsstring := firstn (j - i) (skipn i s).

(** [s.padStart(n, "0")]. *)
Definition padStart0 (n : nat) (s : jsstring) : jsstring :=
  repeat 48 (n - length s) ++ s.

(** [s.indexOf(c)] for a one-unit needle: [None] stands for [-1]. *)
Fixpoint indexOf (c : char) (s : jsstring) : option Z :=
  match s with
  | [] => None
  | d :: s' => if d =? c then Some 0 else option_map Z.succ (indexOf c s')
  end.

Fixpoint join (sep : jsstring) (l : list jsstring) : jsstring :=
  match l with
  | [] => []
  | [x] => x
  | x :: l' => x ++ sep ++ join sep l'
  end.

(** *** Digits *)

Definition is_hex_digit (c : char) : bool :=
  in_range 48 57 c || in_range 97 102 c || in_range 65 70 c.

Definition hex_value (c : char) : Z :=
  if in_range 48 57 c then c - 48
  else if in_range 97 102 c then c - 87
  else c - 55.

(** The digit [d < 16] as [Number.prototype.toString(16)] writes it. *)
Definition hex_char (d : Z) : char := if d <? 10 then 48 + d else 87 + d.

(** The value of a big-endian digit list. *)
Definition value_of (base : Z) (ds : list Z) : Z :=
  fold_left (fun v d => v * base + d) ds 0.

(** *** Numbers *)

(** A [number] holding an integer, or [NaN]. *)
Inductive number := Num (z : Z) | NaN.

Definition number_eqb (a b : number) : bool :=
  match a, b with
  | Num x, Num y => x =? y
  | _, _ => false
  end.

(** *** Exceptions *)

(** The errors the program can meet: its own [new Error(msg)], and the
    [SyntaxError] and [RangeError] of the built-in [BigInt] conversions. *)
Inductive exn :=
| Error (message : jsstring)
| SyntaxError (message : jsstring)
| RangeError (message : jsstring).

Definition message (e : exn) : jsstring :=
  match e with Error m | SyntaxError m | RangeError m => m end.

Definition result (A : Type) := (exn + A)%type.
Definition ret {A} (a : A) : result A := inr a.
Definition throw {A} (e : exn) : result A := inl e.
Definition bind {A B} (m : result A) (k : A -> result B) : result B :=
  match m with inl e => inl e | inr a => k a end.

End Js.

Import Js.

Notation "x <- m ;; k" := (bind m (fun x => k))
  (at level 61, m at next level, right associativity).

(** ** Bounded loops *)

Section WhileLoop.
Context {S : Type} (cond : S -> bool) (body : S -> S).

(** At most [bound] rounds of [while (cond s) s = body s]; the recursion
    follows the binary digits of the bound, so a bound of hundreds of bits
    costs nothing when the loop leaves early. *)
Fixpoint while_loop (bound : positive) (s : S) : S :=
  if cond s then
    match bound with
    | xH => body s
    | xO b => while_loop b (while_loop b s)
    | xI b => while_loop b (while_loop b (body s))
    end
  else s.

Fixpoint while_nat (n : nat) (s : S) : S :=
  match n with
  | O => s
  | Datatypes.S n' => if cond s then while_nat n' (body s) else s
  end.

(** The big-step meaning of the loop. *)
Inductive while_exec : S -> S -> Prop :=
| while_done s : cond s = false -> while_exec s s
| while_step s s' : cond s = true -> while_exec (body s) s' -> while_exec s s'.

End WhileLoop.

(** ** Built-in conversions *)

Module Builtin.

(** The digits of [v > 0] in [base], most significant first; no digit for
    [v <= 0]. *)
Definition digits (base v : Z) : list Z :=
  snd (while_loop (fun st : Z * list Z => 0 <? fst st)
                  (fun st => (fst st / base, fst st mod base :: snd st))
                  (Z.to_pos v) (v, [])).

(** [n.toString(16)] of a bigint, and of a number that holds an integer. *)
Definition toString16 (z : Z) : jsstring :=
  if z =? 0 then lit "0"
  else if z <? 0 then lit "-" ++ map hex_char (digits 16 (- z))
  else map hex_char (digits 16 z).

Definition number_toString16 (n : number) : jsstring :=
  match n with Num z => toString16 z | NaN => lit "NaN" end.

Definition all_digits (ok : char -> bool) (s : jsstring) : bool :=
  match s with [] => false | _ => forallb ok s end.

Definition starts_with (p s : jsstring) : bool :=
  eqb_string (firstn (length p) s) p.

(** The longest prefix of [s] made of hexadecimal digits. *)
Fixpoint hex_prefix (s : jsstring) : jsstring :=
  match s with
  | c :: s' => if is_hex_digit c then c :: hex_prefix s' else []
  | [] => []
  end.

(** [Number.parseInt(s, 16)]: leading white space, a sign and a [0x] prefix
    are skipped, then the longest run of hexadecimal digits is read; [NaN]
    when there is none. *)
Definition parseInt16 (s : jsstring) : number :=
  let s1 := trimStart s in
  let (sign, s2) :=
    match s1 with
    | c :: r => if c =? 45 then (-1, r) else if c =? 43 then (1, r) else (1, s1)
    | [] => (1, s1)
    end in
  let s3 := if starts_with (lit "0x") s2 || starts_with (lit "0X") s2
            then skipn 2 s2 else s2 in
  match hex_prefix s3 with
  | [] => NaN
  | ds => Num (sign * value_of 16 (map hex_value ds))
  end.

Definition is_dec_digit (c : char) : bool := in_range 48 57 c.
Definition is_oct_digit (c : char) : bool := in_range 48 55 c.
Definition is_bin_digit (c : char) : bool := in_range 48 49 c.

(** [BigInt(s)] of a string (StringToBigInt): white space is trimmed on both
    sides; the empty string is [0n]; [0x], [0o] and [0b] literals carry no
    sign; a decimal literal may; anything else is a [SyntaxError], whose
    text [msg] the engine chooses. *)
Definition BigInt_of_string (msg : jsstring -> jsstring) (s : jsstring) : result Z :=
  let t := trim s in
  let parse base ok ds :=
    if all_digits ok ds then ret (value_of base (map hex_value ds))
    else throw (SyntaxError (msg s)) in
  match t with
  | [] => ret 0
  | c :: r =>
    if starts_with (lit "0x") t || starts_with (lit "0X") t then
      parse 16 is_hex_digit (skipn 2 t)
    else if starts_with (lit "0o") t || starts_with (lit "0O") t then
      parse 8 is_oct_digit (skipn 2 t)
    else if starts_with (lit "0b") t || starts_with (lit "0B") t then
      parse 2 is_bin_digit (skipn 2 t)
    else if c =? 45 then v <- parse 10 is_dec_digit r ;; ret (- v)
    else if c =? 43 then parse 10 is_dec_digit r
    else parse 10 is_dec_digit t
  end.

(** [BigInt(n)] of a number: a [RangeError] for [NaN]. *)
Definition BigInt_of_number (msg : jsstring) (n : number) : result Z :=
  match n with
  | Num z => ret z
  | NaN => throw (RangeError msg)
  end.

End Builtin.

Import Builtin.

(** ** The host: CryptoJS and the engine's message texts *)

(** [crypto-js] is a dependency of the repository, not part of it: the
    program is modelled over any implementation of the calls it makes.  A
    [WordArray] is what [CryptoJS.enc.Hex.parse] and the hash functions
    return; [stringify] is its [toString()], the lower-case hexadecimal
    text. *)
Class Host := {
  WordArray : Type;
  Hex_parse : jsstring -> WordArray;
  Utf8_parse : jsstring -> WordArray;
  SHA256 : WordArray -> WordArray;
  RIPEMD160 : WordArray -> WordArray;
  PBKDF2_SHA256 : WordArray -> WordArray -> Z -> Z -> WordArray;
  stringify : WordArray -> jsstring;
  syntax_error_text : jsstring -> jsstring;
  range_error_text : jsstring
}.


(** ** Primality certificates

    The field of the curve is a field because [P] is prime.  Primality is
    checked by Pocklington's criterion: [n] is prime when [n - 1] has
    distinct prime factors [qs] whose product [F] satisfies
    [(F + 1)^2 > n], and some [a] has [a^(n-1) = 1 mod n] and
    [gcd (a^((n-1)/q) - 1, n) = 1] for each [q]. *)

Module Primes.

(** [a^e mod n] by repeated squaring. *)
Fixpoint powmod_pos (a : Z) (e : positive) (n : Z) : Z :=
  match e with
  | xH => a mod n
  | xO e' => let h := powmod_pos a e' n in (h * h) mod n
  | xI e' => let h := powmod_pos a e' n in (h * h mod n * a) mod n
  end.

Definition powmod (a e n : Z) : Z :=
  match e with
  | Zpos p => powmod_pos a p n
  | _ => 1 mod n
  end.

(** No [d' >= d] with [d' * d' <= n] divides [n]; [false] when the fuel
    runs out first. *)
Fixpoint no_divisor (fuel : nat) (d n : Z) : bool :=
  if n <? d * d then true
  else
    match fuel with
    | O => false
    | Datatypes.S fuel' => negb (n mod d =? 0) && no_divisor fuel' (d + 1) n
    end.

Definition small_prime (n : Z) : bool :=
  (1 <? n) && no_divisor (Z.to_nat (Z.sqrt n)) 2 n.

Fixpoint distinct (l : list Z) : bool :=
  match l with
  | [] => true
  | x :: l' => negb (existsb (Z.eqb x) l') && distinct l'
  end.

Definition product (l : list Z) : Z := fold_right Z.mul 1 l.

Definition pocklington (n a : Z) (qs : list Z) : bool :=
  (1 <? n) && (n <? (product qs + 1) * (product qs + 1)) && distinct qs
  && (powmod a (n - 1) n =? 1)
  && forallb (fun q => ((n - 1) mod q =? 0)
                       && (Z.gcd (powmod a ((n - 1) / q) n - 1) n =? 1)) qs.

(** A chain of certificates: the factors each one uses are small primes or
    numbers certified before it. *)
Fixpoint check_chain (known : list Z) (chain : list (Z * Z * list Z)) : bool :=
  match chain with
  | [] => true
  | (n, a, qs) :: rest =>
    forallb (fun q => if existsb (Z.eqb q) known then true else small_prime q) qs
    && pocklington n a qs && check_chain (n :: known) rest
  end.

(** The chain for the field prime of secp256k1. *)
Definition secp256k1_chain : list (Z * Z * list Z) :=
  [(107590001, 2, [53; 29; 7]);
   (1206781, 2, [20113]);
   (7240687, 2, [1206781]);
   (255515944373312847190720520512484175977, 2, [107590001; 7240687; 96557]);
   (205115282021455665897114700593932402728804164701536103180137503955397371, 2,
    [255515944373312847190720520512484175977]);
   (115792089237316195423570985008687907853269984665640564039457584007908834671663, 2,
    [205115282021455665897114700593932402728804164701536103180137503955397371])].

End Primes.
(** ** Regular expressions of the shape [^c1{n1}c2{n2}...$] *)

Module Regex.

(** A character class is a union of inclusive code-unit ranges. *)
Definition cclass := list (Z * Z).

Definition ch (a : ascii) : Z := Z.of_N (N_of_ascii a).
Definition one (a : ascii) : Z * Z := (ch a, ch a).
Definition rng (a b : ascii) : Z * Z := (ch a, ch b).

Definition in_class (cl : cclass) (c : char) : bool :=
  existsb (fun r => in_range (fst r) (snd r) c) cl.

(** Under the [i] flag two code units match when their canonical forms, the
    upper-case ones, agree; no code unit above 127 is canonicalised into the
    Basic Latin block, where all the classes of the program lie. *)
Definition class_test (ignoreCase : bool) (cl : cclass) (c : char) : bool :=
  if ignoreCase
  then in_class cl c || in_class cl (lower_char c) || in_class cl (upper_char c)
  else in_class cl c.

Record regex := { atoms : list (cclass * nat); ignoreCase : bool }.

(** The pattern is anchored on both sides and has no [m] flag: [$] matches
    at the end of the input only. *)
Fixpoint match_atoms (ic : bool) (l : list (cclass * nat)) (s : jsstring) : bool :=
  match l with
  | [] => match s with [] => true | _ => false end
  | (cl, n) :: l' =>
    (n <=? length s)%nat && forallb (class_test ic cl) (firstn n s)
    && match_atoms ic l' (skipn n s)
  end.

Definition test (r : regex) (s : jsstring) : bool :=
  match_atoms (ignoreCase r) (atoms r) s.

End Regex.

(** ** [src/lib/bitcoin-validator.ts] *)

Module Validator.

Definition GSMG_PUZZLE_ADDRESS : jsstring := lit "1GSMG1JC9wtdSwfwApgj2xcmJPAwx7prBe".

Inductive KeyFormat := WIF | WIF_compressed | hex | unknown.

Definition KeyFormat_eqb (a b : KeyFormat) : bool :=
  match a, b with
  | WIF, WIF | WIF_compressed, WIF_compressed | hex, hex | unknown, unknown => true
  | _, _ => false
  end.

(** The optional fields [address] and [error] are [None] when the object
    literal leaves them out; [timestamp] is the reading of the clock. *)
Record KeyValidationResult := {
  isValid : bool;
  format : KeyFormat;
  address : option jsstring;
  matchesPuzzle : bool;
  checksum : bool;
  error : option jsstring;
  timestamp : Z
}.

Definition BASE58_ALPHABET : jsstring :=
  lit "123456789ABCDEFGHJKLMNPQRSTUVWXYZabcdefghijkmnopqrstuvwxyz".

(** *** secp256k1 curve parameters *)

Module SECP256K1.
Definition P : Z := 0xFFFFFFFFFFFFFFFFFFFFFFFFFFFFFFFFFFFFFFFFFFFFFFFFFFFFFFFEFFFFFC2F.
Definition N : Z := 0xFFFFFFFFFFFFFFFFFFFFFFFFFFFFFFFEBAAEDCE6AF48A03BBFD25E8CD0364141.
Definition Gx : Z := 0x79BE667EF9DCBBAC55A06295CE870B07029BFCDB2DCE28D959F2815B16F81798.
Definition Gy : Z := 0x483ADA7726A3C4655DA4FBFC0E1108A8FD17B448A68554199C47D08FFB10D4B8.
End SECP256K1.

Definition P : Z := SECP256K1.P.

(** *** Modular arithmetic helpers *)

(** [a % m] is the truncated remainder; every caller passes [m = P]. *)
Definition mod_ (a m : Z) : Z :=
  let result := Z.rem a m in
  if 0 <=? result then result else result + m.

(** The state of the loop of [modInverse]: [old_r], [r], [old_s], [s]. *)
Definition inv_state := (Z * Z * Z * Z)%type.

Definition inv_cond (st : inv_state) : bool :=
  let '(old_r, r, old_s, s) := st in negb (r =? 0).

Definition inv_body (st : inv_state) : inv_state :=
  let '(old_r, r, old_s, s) := st in
  let quotient := Z.quot old_r r in
  (r, old_r - quotient * r, s, old_s - quotient * s).

Definition modInverse (a m : Z) : Z :=
  let '(old_r, r, old_s, s) :=
    while_loop inv_cond inv_body (Z.to_pos (Z.abs m + 1)) (a, m, 1, 0) in
  mod_ old_s m.

(** *** Points; [None] is the point at infinity *)

Definition Point := option (Z * Z).

Definition pointAdd (p1 p2 : Point) : Point :=
  match p1, p2 with
  | None, _ => p2
  | _, None => p1
  | Some (x1, y1), Some (x2, y2) =>
    if x1 =? x2 then
      if mod_ (y1 + y2) P =? 0 then None
      else
        let s := mod_ (3 * x1 * x1 * modInverse (2 * y1) P) P in
        let x := mod_ (s * s - 2 * x1) P in
        let y := mod_ (s * (x1 - x) - y1) P in
        Some (x, y)
    else
      let s := mod_ ((y2 - y1) * modInverse (mod_ (x2 - x1) P) P) P in
      let x := mod_ (s * s - x1 - x2) P in
      let y := mod_ (s * (x1 - x) - y1) P in
      Some (x, y)
  end.

(** The state of the loop of [pointMultiply]: [k], [result], [addend]. *)
Definition mul_state := (Z * Point * Point)%type.

Definition mul_cond (st : mul_state) : bool :=
  let '(k, result, addend) := st in 0 <? k.

Definition mul_body (st : mul_state) : mul_state :=
  let '(k, result, addend) := st in
  let result := if negb (Z.land k 1 =? 0) then pointAdd result addend else result in
  (Z.shiftr k 1, result, pointAdd addend addend).

Definition pointMultiply (k : Z) (p : Point) : Point :=
  let '(k', result, addend) :=
    while_loop mul_cond mul_body (Z.to_pos k) (k, None, p) in
  result.

(** *** Bytes and text *)

(** The offsets [0, 2, 4, ...] below [n]. *)
Definition even_offsets (n : nat) : list nat :=
  map (fun i => (2 * i)%nat) (seq 0 ((n + 1) / 2)).

Definition hexToBytes (hex : jsstring) : list number :=
  map (fun i => parseInt16 (substring i (i + 2) hex)) (even_offsets (length hex)).

Definition bytesToHex (bytes : list number) : jsstring :=
  concat (map (fun b => padStart0 2 (number_toString16 b)) bytes).

Definition bigintToHex32 (n : Z) : jsstring := padStart0 64 (toString16 n).

(** The leading run of [z] in [l], as the [for ... else break] loops count
    it. *)
Fixpoint leading {A} (is_z : A -> bool) (l : list A) : nat :=
  match l with
  | a :: l' => if is_z a then Datatypes.S (leading is_z l') else O
  | [] => O
  end.

(** The first loop of [base58Decode]; it throws at the first character
    outside the alphabet (the text of the error is dropped by the only
    caller). *)
Fixpoint base58_value (str : jsstring) (value : Z) : result Z :=
  match str with
  | [] => ret value
  | c :: str' =>
    match indexOf c BASE58_ALPHABET with
    | None => throw (Error (lit "Invalid Base58 character: " ++ [c]))
    | Some index => base58_value str' (value * 58 + index)
    end
  end.

Definition base58Decode (str : jsstring) : result (list number) :=
  value <- base58_value str 0 ;;
  let hex := toString16 value in
  let hex := if Nat.eqb (length hex mod 2) 0 then hex else lit "0" ++ hex in
  let zeros := repeat (Num 0) (leading (fun c => c =? 49) str) in
  ret (zeros ++ hexToBytes hex).

(** The state of the [while] loop of [base58Encode]: [value], [result]. *)
Definition enc_cond (st : Z * jsstring) : bool := 0 <? fst st.

Definition enc_body (st : Z * jsstring) : Z * jsstring :=
  let remainder := Z.rem (fst st) 58 in
  (Z.quot (fst st) 58, nth (Z.to_nat remainder) BASE58_ALPHABET 0 :: snd st).

Fixpoint bytes_value (msg : jsstring) (bytes : list number) (value : Z) : result Z :=
  match bytes with
  | [] => ret value
  | byte :: bytes' =>
    b <- BigInt_of_number msg byte ;;
    bytes_value msg bytes' (value * 256 + b)
  end.

Section WithHost.
Context `{Host}.

Definition base58Encode (bytes : list number) : result jsstring :=
  value <- bytes_value range_error_text bytes 0 ;;
  let result := snd (while_loop enc_cond enc_body (Z.to_pos value) (value, [])) in
  let result := repeat 49 (leading (fun b => number_eqb b (Num 0)) bytes) ++ result in
  ret (match result with [] => lit "1" | _ => result end).

(** Double SHA256 *)
Definition doubleSha256 (data : jsstring) : jsstring :=
  let first := SHA256 (Hex_parse data) in
  let second := SHA256 first in
  stringify second.

(** SHA256 + RIPEMD160 (Hash160) *)
Definition hash160 (data : jsstring) : jsstring :=
  let sha := SHA256 (Hex_parse data) in
  let ripemd := RIPEMD160 sha in
  stringify ripemd.

Record WIFResult := {
  valid : bool;
  privateKeyHex : jsstring;
  compressed : bool
}.

Definition invalid_wif : WIFResult :=
  {| valid := false; privateKeyHex := []; compressed := false |}.

Definition validateWIFChecksum (wif : jsstring) : WIFResult :=
  match base58Decode wif with
  | inl _ => invalid_wif
  | inr decoded =>
    if (length decoded <? 37)%nat then invalid_wif
    else
      let checksum := skipn (length decoded - 4) decoded in
      let payload := firstn (length decoded - 4) decoded in
      let payloadHex := bytesToHex payload in
      let calculatedChecksum := substring 0 8 (doubleSha256 payloadHex) in
      let providedChecksum := bytesToHex checksum in
      if negb (eqb_string calculatedChecksum providedChecksum) then invalid_wif
      else
        let compressed :=
          Nat.eqb (length payload) 34 && number_eqb (nth 33 payload NaN) (Num 1) in
        let privateKeyBytes := firstn 32 (skipn 1 payload) in
        {| valid := true; privateKeyHex := bytesToHex privateKeyBytes;
           compressed := compressed |}
  end.

Definition privateKeyToPublicKey (privateKeyHex : jsstring) (compressed : bool)
  : result jsstring :=
  privateKey <- BigInt_of_string syntax_error_text (lit "0x" ++ privateKeyHex) ;;
  let G : Point := Some (SECP256K1.Gx, SECP256K1.Gy) in
  match pointMultiply privateKey G with
  | None => throw (Error (lit "Invalid private key - results in point at infinity"))
  | Some (x, y) =>
    let xHex := bigintToHex32 x in
    let yHex := bigintToHex32 y in
    if compressed then
      let prefix := if Z.rem y 2 =? 0 then lit "02" else lit "03" in
      ret (prefix ++ xHex)
    else ret (lit "04" ++ xHex ++ yHex)
  end.

Definition publicKeyToAddress (publicKeyHex : jsstring) : result jsstring :=
  let pubKeyHash := hash160 publicKeyHex in
  let versionedHash := lit "00" ++ pubKeyHash in
  let checksum := substring 0 8 (doubleSha256 versionedHash) in
  base58Encode (hexToBytes (versionedHash ++ checksum)).

Definition base58_class : Regex.cclass :=
  [Regex.rng "1" "9"; Regex.rng "A" "H"; Regex.rng "J" "N"; Regex.rng "P" "Z";
   Regex.rng "a" "k"; Regex.rng "m" "z"].

(** [/^5[HJK][1-9A-HJ-NP-Za-km-z]{49}$/] *)
Definition wif_regex : Regex.regex :=
  {| Regex.atoms := [([Regex.one "5"], 1%nat);
                     ([Regex.one "H"; Regex.one "J"; Regex.one "K"], 1%nat);
                     (base58_class, 49%nat)];
     Regex.ignoreCase := false |}.

(** [/^[KL][1-9A-HJ-NP-Za-km-z]{51}$/] *)
Definition wif_compressed_regex : Regex.regex :=
  {| Regex.atoms := [([Regex.one "K"; Regex.one "L"], 1%nat); (base58_class, 51%nat)];
     Regex.ignoreCase := false |}.

(** [/^[0-9a-fA-F]{64}$/] *)
Definition hex_regex : Regex.regex :=
  {| Regex.atoms := [([Regex.rng "0" "9"; Regex.rng "a" "f"; Regex.rng "A" "F"], 64%nat)];
     Regex.ignoreCase := false |}.

Definition detectKeyFormat (key : jsstring) : KeyFormat :=
  let trimmed := trim key in
  if Regex.test wif_regex trimmed then WIF
  else if Regex.test wif_compressed_regex trimmed then WIF_compressed
  else if Regex.test hex_regex trimmed then hex
  else unknown.

Definition failure (format : KeyFormat) (error : jsstring) (timestamp : Z)
  : KeyValidationResult :=
  {| isValid := false; format := format; address := None; matchesPuzzle := false;
     checksum := false; error := Some error; timestamp := timestamp |}.

Definition out_of_range_error : jsstring :=
  lit "Private key out of valid range for secp256k1".

Definition wif_checksum_error : jsstring :=
  lit "Invalid WIF checksum - key may be corrupted or mistyped".

(** The body of the [try] block: [inl] is a thrown exception, [inr] a
    [return]. *)
Definition validate_body (format : KeyFormat) (timestamp : Z) (key : jsstring)
  : result KeyValidationResult :=
  let derive (privateKeyHex : jsstring) (compressed : bool) :=
    publicKey <- privateKeyToPublicKey privateKeyHex compressed ;;
    address <- publicKeyToAddress publicKey ;;
    let matchesPuzzle := eqb_string address GSMG_PUZZLE_ADDRESS in
    ret {| isValid := true; format := format; address := Some address;
           matchesPuzzle := matchesPuzzle; checksum := true; error := None;
           timestamp := timestamp |} in
  if KeyFormat_eqb format hex then
    let privateKeyHex := toLowerCase key in
    keyBigInt <- BigInt_of_string syntax_error_text (lit "0x" ++ privateKeyHex) ;;
    if (keyBigInt <=? 0) || (SECP256K1.N <=? keyBigInt) then
      ret (failure format out_of_range_error timestamp)
    else derive privateKeyHex true
  else
    let wifResult := validateWIFChecksum key in
    if negb (valid wifResult) then
      ret (failure format wif_checksum_error timestamp)
    else derive (privateKeyHex wifResult) (compressed wifResult).

(** [timestamp] is what [new Date()] reads when the function is entered. *)
Definition validatePrivateKey (timestamp : Z) (key : jsstring) : KeyValidationResult :=
  let format := detectKeyFormat key in
  if KeyFormat_eqb format unknown then
    failure unknown
      (lit "Unrecognized key format. Expected WIF (starts with 5, K, or L) or 64-char hex.")
      timestamp
  else
    match validate_body format timestamp key with
    | inr r => r
    | inl e => failure format (lit "Validation error: " ++ message e) timestamp
    end.

End WithHost.

(** *** Display and extraction *)

(** Mask a private key for display (security); [key.substring(n)] runs to
    the end of the string. *)
Definition maskPrivateKey (key : jsstring) : jsstring :=
  if (length key <=? 12)%nat then key
  else substring 0 6 key ++ lit "..." ++ skipn (length key - 6) key.

(** The longest prefix of [s] of at most [n] code units of the class: what a
    greedy [[class]{m,n}] consumes. *)
Fixpoint take_class (cl : Regex.cclass) (n : nat) (s : jsstring) : jsstring :=
  match n, s with
  | Datatypes.S n', c :: s' =>
    if Regex.in_class cl c then c :: take_class cl n' s' else []
  | _, _ => []
  end.

(** [/[5KL][1-9A-HJ-NP-Za-km-z]{50,51}/] at the start of [s]: nothing
    follows the quantifier, so the match is the longest one. *)
Definition wif_match (s : jsstring) : option jsstring :=
  match s with
  | c :: s' =>
    if Regex.in_class [Regex.one "5"; Regex.one "K"; Regex.one "L"] c then
      let run := take_class base58_class 51 s' in
      if (50 <=? length run)%nat then Some (c :: run) else None
    else None
  | [] => None
  end.

(** [/[0-9a-fA-F]{64}/] at the start of [s]. *)
Definition hex_match (s : jsstring) : option jsstring :=
  let run := take_class [Regex.rng "0" "9"; Regex.rng "a" "f"; Regex.rng "A" "F"] 64 s in
  if Nat.eqb (length run) 64 then Some run else None.

(** [text.match(pattern)] for a pattern with the [g] flag whose matches are
    never empty: the matches from left to right, each search starting where
    the last match ended; [skip] counts the code units of the last match that
    are still ahead.  No match gives [null], which the caller treats as no
    keys. *)
Fixpoint match_all (match_here : jsstring -> option jsstring) (skip : nat)
  (text : jsstring) : list jsstring :=
  match text with
  | [] => []
  | c :: text' =>
    match skip with
    | Datatypes.S skip' => match_all match_here skip' text'
    | O =>
      match match_here text with
      | Some m => m :: match_all match_here (length m - 1) text'
      | None => match_all match_here 0 text'
      end
    end
  end.

(** [[...new Set(keys)]]: the first occurrence of each key, in order. *)
Fixpoint unique (seen keys : list jsstring) : list jsstring :=
  match keys with
  | [] => []
  | k :: keys' =>
    if existsb (eqb_string k) seen then unique seen keys'
    else k :: unique (k :: seen) keys'
  end.

(** Extract potential keys from text (looks for WIF patterns or hex
    strings) *)
Definition extractPotentialKeys (text : jsstring) : list jsstring :=
  let wifMatches := match_all wif_match 0 text in
  let hexMatches := match_all hex_match 0 text in
  unique [] (wifMatches ++ hexMatches).

End Validator.

(** ** A host to run the program with: SHA-256, RIPEMD-160, PBKDF2

    The hash functions of [crypto-js] as their standards define them (FIPS
    180-4, the RIPEMD-160 proposal, RFC 2104 and RFC 8018), over byte lists.
    They are here so that the program can be evaluated on concrete keys;
    the theorems about the program hold for every [Host]. *)

Module Crypto.

Definition bytes := list Z.

Definition mask32 : Z := 0xFFFFFFFF.
Definition add32 (a b : Z) : Z := Z.land (a + b) mask32.
Definition not32 (a : Z) : Z := Z.lxor a mask32.
Definition rotl (n x : Z) : Z :=
  Z.lor (Z.land (Z.shiftl x n) mask32) (Z.shiftr x (32 - n)).
Definition rotr (n x : Z) : Z := rotl (32 - n) x.

Fixpoint words_be (b : bytes) : list Z :=
  match b with
  | b0 :: b1 :: b2 :: b3 :: r => (((b0 * 256 + b1) * 256 + b2) * 256 + b3) :: words_be r
  | _ => []
  end.

Fixpoint words_le (b : bytes) : list Z :=
  match b with
  | b0 :: b1 :: b2 :: b3 :: r => (((b3 * 256 + b2) * 256 + b1) * 256 + b0) :: words_le r
  | _ => []
  end.

Definition word_be (w : Z) : bytes :=
  [Z.shiftr w 24; Z.land (Z.shiftr w 16) 255; Z.land (Z.shiftr w 8) 255; Z.land w 255].

Definition word_le (w : Z) : bytes := rev (word_be w).

Definition len64_be (n : Z) : bytes := word_be (Z.shiftr n 32) ++ word_be (Z.land n mask32).
Definition len64_le (n : Z) : bytes := rev (len64_be n).

(** Merkle-Damgard padding to a multiple of 64 bytes. *)
Definition pad (length_field : Z -> bytes) (m : bytes) : bytes :=
  let n := Z.of_nat (length m) in
  m ++ [128] ++ repeat 0 (Z.to_nat ((55 - n) mod 64)) ++ length_field (8 * n).

(** The 16-word blocks of a word list. *)
Fixpoint blocks (fuel : nat) (ws : list Z) : list (list Z) :=
  match fuel, ws with
  | Datatypes.S fuel', _ :: _ => firstn 16 ws :: blocks fuel' (skipn 16 ws)
  | _, _ => []
  end.

(** *** SHA-256 *)

(** The largest [r + d], [d < 2^i], whose cube is at most [n]. *)
Fixpoint cube_root (i : nat) (r n : Z) : Z :=
  match i with
  | O => r
  | Datatypes.S i' =>
    let r' := r + 2 ^ Z.of_nat i' in
    if r' * r' * r' <=? n then cube_root i' r' n else cube_root i' r n
  end.

Definition first_primes (n : nat) : list Z :=
  firstn n (filter Primes.small_prime (map Z.of_nat (seq 2 310))).

(** The first 32 bits of the fractional parts of the cube roots of the
    first 64 primes. *)
Definition K256 : list Z :=
  Eval vm_compute in
    map (fun p => Z.land (cube_root 48 0 (p * 2 ^ 96)) mask32) (first_primes 64).

(** The first 32 bits of the fractional parts of the square roots of the
    first 8 primes. *)
Definition H256 : list Z :=
  Eval vm_compute in
    map (fun p => Z.land (Z.sqrt (p * 2 ^ 64)) mask32) (first_primes 8).

Definition ssig0 (x : Z) : Z := Z.lxor (Z.lxor (rotr 7 x) (rotr 18 x)) (Z.shiftr x 3).
Definition ssig1 (x : Z) : Z := Z.lxor (Z.lxor (rotr 17 x) (rotr 19 x)) (Z.shiftr x 10).
Definition bsig0 (x : Z) : Z := Z.lxor (Z.lxor (rotr 2 x) (rotr 13 x)) (rotr 22 x).
Definition bsig1 (x : Z) : Z := Z.lxor (Z.lxor (rotr 6 x) (rotr 11 x)) (rotr 25 x).
Definition ch32 (x y z : Z) : Z := Z.lxor (Z.land x y) (Z.land (not32 x) z).
Definition maj32 (x y z : Z) : Z :=
  Z.lxor (Z.lxor (Z.land x y) (Z.land x z)) (Z.land y z).

(** The message schedule, newest word first. *)
Fixpoint schedule (n : nat) (w : list Z) : list Z :=
  match n with
  | O => w
  | Datatypes.S n' =>
    schedule n'
      (add32 (add32 (ssig1 (nth 1 w 0)) (nth 6 w 0))
             (add32 (ssig0 (nth 14 w 0)) (nth 15 w 0)) :: w)
  end.

Definition round256 (s : list Z) (kw : Z * Z) : list Z :=
  match s with
  | [a; b; c; d; e; f; g; h] =>
    let t1 := add32 (add32 (add32 h (bsig1 e)) (add32 (ch32 e f g) (fst kw))) (snd kw) in
    let t2 := add32 (bsig0 a) (maj32 a b c) in
    [add32 t1 t2; a; b; c; add32 d t1; e; f; g]
  | _ => s
  end.

Definition compress256 (h : list Z) (block : list Z) : list Z :=
  let w := rev (schedule 48 (rev block)) in
  map (fun p => add32 (fst p) (snd p)) (combine h (fold_left round256 (combine K256 w) h)).

Definition sha256 (m : bytes) : bytes :=
  let ws := words_be (pad len64_be m) in
  flat_map word_be (fold_left compress256 (blocks (length ws) ws) H256).

(** *** RIPEMD-160 *)

Definition rmd_rl : list nat :=
  [0; 1; 2; 3; 4; 5; 6; 7; 8; 9; 10; 11; 12; 13; 14; 15;
   7; 4; 13; 1; 10; 6; 15; 3; 12; 0; 9; 5; 2; 14; 11; 8;
   3; 10; 14; 4; 9; 15; 8; 1; 2; 7; 0; 6; 13; 11; 5; 12;
   1; 9; 11; 10; 0; 8; 12; 4; 13; 3; 7; 15; 14; 5; 6; 2;
   4; 0; 5; 9; 7; 12; 2; 10; 14; 1; 3; 8; 11; 6; 15; 13]%nat.

Definition rmd_rr : list nat :=
  [5; 14; 7; 0; 9; 2; 11; 4; 13; 6; 15; 8; 1; 10; 3; 12;
   6; 11; 3; 7; 0; 13; 5; 10; 14; 15; 8; 12; 4; 9; 1; 2;
   15; 5; 1; 3; 7; 14; 6; 9; 11; 8; 12; 2; 10; 0; 4; 13;
   8; 6; 4; 1; 3; 11; 15; 0; 5; 12; 2; 13; 9; 7; 10; 14;
   12; 15; 10; 4; 1; 5; 8; 7; 6; 2; 13; 14; 0; 3; 9; 11]%nat.

Definition rmd_sl : list Z :=
  [11; 14; 15; 12; 5; 8; 7; 9; 11; 13; 14; 15; 6; 7; 9; 8;
   7; 6; 8; 13; 11; 9; 7; 15; 7; 12; 15; 9; 11; 7; 13; 12;
   11; 13; 6; 7; 14; 9; 13; 15; 14; 8; 13; 6; 5; 12; 7; 5;
   11; 12; 14; 15; 14; 15; 9; 8; 9; 14; 5; 6; 8; 6; 5; 12;
   9; 15; 5; 11; 6; 8; 13; 12; 5; 12; 13; 14; 11; 8; 5; 6].

Definition rmd_sr : list Z :=
  [8; 9; 9; 11; 13; 15; 15; 5; 7; 7; 8; 11; 14; 14; 12; 6;
   9; 13; 15; 7; 12; 8; 9; 11; 7; 7; 12; 7; 6; 15; 13; 11;
   9; 7; 15; 11; 8; 6; 6; 14; 12; 13; 5; 14; 13; 13; 7; 5;
   15; 5; 8; 11; 14; 14; 6; 14; 6; 9; 12; 9; 12; 5; 15; 8;
   8; 5; 12; 9; 12; 5; 14; 6; 8; 13; 6; 5; 15; 13; 11; 11].

Definition rmd_kl : list Z := [0; 0x5A827999; 0x6ED9EBA1; 0x8F1BBCDC; 0xA953FD4E].
Definition rmd_kr : list Z := [0x50A28BE6; 0x5C4DD124; 0x6D703EF3; 0x7A6D76E9; 0].

Definition rmd_f (j : nat) (x y z : Z) : Z :=
  match (j / 16)%nat with
  | 0%nat => Z.lxor (Z.lxor x y) z
  | 1%nat => Z.lor (Z.land x y) (Z.land (not32 x) z)
  | 2%nat => Z.lxor (Z.lor x (not32 y)) z
  | 3%nat => Z.lor (Z.land x z) (Z.land y (not32 z))
  | _ => Z.lxor x (Z.lor y (not32 z))
  end.

(** One step of a line: [fj] is the round of the boolean function, [r] the
    word order, [s] the rotations, [k] the constants. *)
Definition rmd_step (X : list Z) (r : list nat) (s k : list Z) (fj : nat -> nat)
  (st : list Z) (j : nat) : list Z :=
  match st with
  | [a; b; c; d; e] =>
    let t := add32 (rotl (nth j s 0)
                      (add32 (add32 a (rmd_f (fj j) b c d))
                             (add32 (nth (nth j r O) X 0) (nth (j / 16) k 0)))) e in
    [e; t; b; rotl 10 c; d]
  | _ => st
  end.

Definition rmd_compress (h : list Z) (X : list Z) : list Z :=
  let left := fold_left (rmd_step X rmd_rl rmd_sl rmd_kl (fun j => j)) (seq 0 80) h in
  let right := fold_left (rmd_step X rmd_rr rmd_sr rmd_kr (fun j => (79 - j)%nat)) (seq 0 80) h in
  match h, left, right with
  | [h0; h1; h2; h3; h4], [a; b; c; d; e], [a'; b'; c'; d'; e'] =>
    [add32 (add32 h1 c) d'; add32 (add32 h2 d) e'; add32 (add32 h3 e) a';
     add32 (add32 h4 a) b'; add32 (add32 h0 b) c']
  | _, _, _ => h
  end.

Definition ripemd160 (m : bytes) : bytes :=
  let ws := words_le (pad len64_le m) in
  flat_map word_le
    (fold_left rmd_compress (blocks (length ws) ws)
       [0x67452301; 0xEFCDAB89; 0x98BADCFE; 0x10325476; 0xC3D2E1F0]).

(** *** HMAC-SHA256 and PBKDF2 *)

Definition xor_bytes (a b : bytes) : bytes :=
  map (fun p => Z.lxor (fst p) (snd p)) (combine a b).

Definition hmac_sha256 (key msg : bytes) : bytes :=
  let key := if (64 <? length key)%nat then sha256 key else key in
  let key := key ++ repeat 0 (64 - length key) in
  sha256 (map (Z.lxor 0x5c) key ++ sha256 (map (Z.lxor 0x36) key ++ msg)).

Fixpoint pbkdf2_rounds (password : bytes) (n : nat) (u acc : bytes) : bytes :=
  match n with
  | O => acc
  | Datatypes.S n' =>
    let u' := hmac_sha256 password u in
    pbkdf2_rounds password n' u' (xor_bytes acc u')
  end.

Definition pbkdf2_block (password salt : bytes) (iterations : Z) (i : nat) : bytes :=
  let u1 := hmac_sha256 password (salt ++ word_be (Z.of_nat i)) in
  pbkdf2_rounds password (Z.to_nat (iterations - 1)) u1 u1.

(** [keySize] counts 32-bit words, as in [crypto-js]. *)
Definition pbkdf2_sha256 (password salt : bytes) (keySize iterations : Z) : bytes :=
  let nblocks := Z.to_nat ((keySize + 7) / 8) in
  firstn (Z.to_nat (4 * keySize))
    (flat_map (pbkdf2_block password salt iterations) (seq 1 nblocks)).

(** *** Encoders *)

(** [WordArray.toString()]: two lower-case hexadecimal digits a byte. *)
Definition hex_of_bytes (b : bytes) : jsstring :=
  flat_map (fun x => [hex_char (x / 16); hex_char (x mod 16)]) b.

(** [CryptoJS.enc.Hex.parse] on a string of hexadecimal digits of even
    length, which is all the program passes to it. *)
Fixpoint bytes_of_hex (s : jsstring) : bytes :=
  match s with
  | h :: l :: r => (hex_value h * 16 + hex_value l) :: bytes_of_hex r
  | _ => []
  end.

(** [CryptoJS.enc.Utf8.parse] on a string without lone surrogates. *)
Fixpoint utf8 (s : jsstring) : bytes :=
  match s with
  | [] => []
  | c :: r =>
    if c <? 128 then c :: utf8 r
    else if c <? 2048 then [192 + c / 64; 128 + c mod 64] ++ utf8 r
    else if in_range 55296 56319 c then
      match r with
      | d :: r' =>
        let cp := 65536 + (c - 55296) * 1024 + (d - 56320) in
        [240 + cp / 262144; 128 + (cp / 4096) mod 64; 128 + (cp / 64) mod 64;
         128 + cp mod 64] ++ utf8 r'
      | [] => []
      end
    else [224 + c / 4096; 128 + (c / 64) mod 64; 128 + c mod 64] ++ utf8 r
  end.

End Crypto.

(** The host built from them; the message texts are those of V8. *)
Definition crypto_host : Host := {|
  WordArray := Crypto.bytes;
  Hex_parse := Crypto.bytes_of_hex;
  Utf8_parse := Crypto.utf8;
  SHA256 := Crypto.sha256;
  RIPEMD160 := Crypto.ripemd160;
  PBKDF2_SHA256 := Crypto.pbkdf2_sha256;
  stringify := Crypto.hex_of_bytes;
  syntax_error_text := fun s => lit "Cannot convert " ++ s ++ lit " to a BigInt";
  range_error_text :=
    lit "The number NaN cannot be converted to a BigInt because it is not an integer"
|}.

(** ** [src/lib/key-derivation-engine.ts] *)

Module Engine.

Record DerivationResult := {
  key : jsstring;
  method : jsstring;
  inputs : list jsstring;
  iteration : Z;
  timestamp : Z
}.

(** [matchingKey] is never set by the engine and is left out. *)
Record DerivationProgress := {
  totalAttempts : Z;
  currentAttempt : Z;
  currentMethod : jsstring;
  keysGenerated : list jsstring;
  matchFound : bool
}.

(** *** All known tokens from the puzzle *)

Definition ABBA_TOKENS : list jsstring :=
  map lit ["matrixsumlist"; "enter"; "lastwordsbeforearchichoice"; "thispassword";
           "yourlastcommand"; "secondanswer"]%string.

Definition PUZZLE_PASSWORDS : list jsstring :=
  map lit ["theseedisplanted";
           "theflowerblossomsthroughwhatseemstobeaconcretesurface";
           "causality";
           "jacquefrescogiveitjustonesecondheisenbergsuncertaintyprinciple";
           "THEMATRIXHASYOU";
           "choiceisanillusioncreatedbetweenthosewithpowerandthosewithout"]%string.

Definition KNOWN_HASHES : list jsstring :=
  map lit ["eb3efb5151e6255994711fe8f2264427ceeebf88109e1d7fad5b0a8b6d07e5bf";
           "1a57c572caf3cf722e41f5f9cf99ffacff06728a43032dd44c481c77d2ec30d5";
           "250f37726d6862939f723edc4f993fde9d33c6004aab4f2203d9ee489d61ce4c";
           "89727c598b9cd1cf8873f27cb7057f050645ddb6a7a157a110239ac0152f6a32"]%string.

Definition BEAUFORT_KEY : jsstring := lit "THEMATRIXHASYOU".

(** *** Helpers that do not hash *)

(** [ToInt32] of a number, as the operands of [^] undergo it. *)
Definition to_int32 (n : number) : Z :=
  match n with
  | Num z => (z + 2147483648) mod 4294967296 - 2147483648
  | NaN => 0
  end.

(** [s.padStart(n, "0")] is [padStart0]; [s.slice(i, i + 2)] is
    [substring] for the offsets of the loop. *)
Definition xorHex (hex1 hex2 : jsstring) : jsstring :=
  let len := Nat.max (length hex1) (length hex2) in
  let padded1 := padStart0 len hex1 in
  let padded2 := padStart0 len hex2 in
  flat_map (fun i =>
      let b1 := parseInt16 (substring i (i + 2) padded1) in
      let b2 := parseInt16 (substring i (i + 2) padded2) in
      padStart0 2 (toString16 (Z.lxor (to_int32 b1) (to_int32 b2))))
    (Validator.even_offsets len).

Definition alphabet : jsstring := lit "ABCDEFGHIJKLMNOPQRSTUVWXYZ".

(** [alphabet.indexOf(x)], [-1] when [x] is not a letter of it (or is
    [undefined]). *)
Definition alphabet_index (c : option char) : Z :=
  match c with
  | Some c => match indexOf c alphabet with Some i => i | None => -1 end
  | None => -1
  end.

(** The loop of [beaufortTransform], [keyIndex] being its counter. *)
Fixpoint beaufort_loop (upperKey upperText : jsstring) (keyIndex : nat) : jsstring :=
  match upperText with
  | [] => []
  | c :: rest =>
    match indexOf c alphabet with
    | Some textIndex =>
      let keyChar := nth_error upperKey (keyIndex mod length upperKey) in
      let keyCharIndex := alphabet_index keyChar in
      let resultIndex := Z.rem (keyCharIndex - textIndex + 26) 26 in
      nth (Z.to_nat resultIndex) alphabet 0
        :: beaufort_loop upperKey rest (Datatypes.S keyIndex)
    | None => c :: beaufort_loop upperKey rest keyIndex
    end
  end.

Definition beaufortTransform (text key : jsstring) : jsstring :=
  beaufort_loop (toUpperCase key) (toUpperCase text) 0.

(** [[arr[i], arr[j]] = [arr[j], arr[i]]] for indices within the array. *)
Definition swap {T} (i j : nat) (arr : list T) : list T :=
  match nth_error arr i, nth_error arr j with
  | Some a, Some b =>
    let arr1 := firstn i arr ++ b :: skipn (Datatypes.S i) arr in
    firstn j arr1 ++ a :: skipn (Datatypes.S j) arr1
  | _, _ => arr
  end.

(** [permutations(inputArr, len)] with [len = size], as the list of what it
    yields.  Every call copies its argument first, so the swaps of an inner
    call are not seen by the loop that made it. *)
Fixpoint permutations_len {T} (size : nat) (inputArr : list T) : list (list T) :=
  match size with
  | O => []
  | Datatypes.S size' =>
    if Nat.eqb size 1 then [inputArr]
    else
      (fix loop (indices : list nat) (arr : list T) : list (list T) :=
         match indices with
         | [] => []
         | i :: indices' =>
           permutations_len size' arr
             ++ loop indices'
                  (if Nat.even size then swap i size' arr else swap 0 size' arr)
         end) (seq 0 size) inputArr
  end.

Definition permutations {T} (inputArr : list T) : list (list T) :=
  permutations_len (length inputArr) inputArr.

Fixpoint combinations {T} (arr : list T) (k : nat) : list (list T) :=
  match k with
  | O => [[]]
  | Datatypes.S k' =>
    if (length arr <? k)%nat then []
    else
      match arr with
      | [] => []
      | first :: rest => map (cons first) (combinations rest k') ++ combinations rest k
      end
  end.

(** The decimal text of a number, as a template literal inserts it. *)
Definition toString10 (z : Z) : jsstring :=
  if z =? 0 then lit "0"
  else if z <? 0 then lit "-" ++ map (fun d => 48 + d) (digits 10 (- z))
  else map (fun d => 48 + d) (digits 10 z).

(** *** The engine *)

(** What the engine cannot see into: [clock n] is what the [n]-th
    [new Date()] of the run reads, [onProgress] the observer given to the
    constructor, which acts on a state [U] of its own. *)
Record environment (U : Type) := {
  clock : nat -> Z;
  onProgress : option (DerivationProgress -> U -> U)
}.
Arguments clock {U}.
Arguments onProgress {U}.

(** The private fields of a [KeyDerivationEngine], the number of clock
    readings so far, and the state of the observer. *)
Record state (U : Type) := {
  results : list DerivationResult;
  counter : Z;
  shouldStop : bool;
  reads : nat;
  observer : U
}.
Arguments results {U}.
Arguments counter {U}.
Arguments shouldStop {U}.
Arguments reads {U}.
Arguments observer {U}.

Definition create {U} (u : U) : state U :=
  {| results := []; counter := 0; shouldStop := false; reads := O; observer := u |}.

Definition stop {U} (st : state U) : state U :=
  {| results := results st; counter := counter st; shouldStop := true;
     reads := reads st; observer := observer st |}.

(** [/^[0-9a-f]{64}$/i] *)
Definition key_regex : Regex.regex :=
  {| Regex.atoms := [([Regex.rng "0" "9"; Regex.rng "a" "f"], 64%nat)];
     Regex.ignoreCase := true |}.

Definition addResult {U} (env : environment U) (st : state U)
  (key method : jsstring) (inputs : list jsstring)
  : state U * option DerivationResult :=
  if negb (Regex.test key_regex key) then (st, None)
  else
    let iteration := counter st + 1 in
    let result := {| key := toLowerCase key; method := method; inputs := inputs;
                     iteration := iteration; timestamp := clock env (reads st) |} in
    let results := results st ++ [result] in
    let progress := {| totalAttempts := iteration; currentAttempt := iteration;
                       currentMethod := method;
                       keysGenerated := map Engine.key results;
                       matchFound := false |} in
    let observer :=
      match onProgress env with
      | Some f => f progress (observer st)
      | None => observer st
      end in
    ({| results := results; counter := iteration; shouldStop := shouldStop st;
        reads := Datatypes.S (reads st); observer := observer |}, Some result).

(** *** Generators

    The loops of a strategy run over constants, so its body is a fixed
    sequence of two kinds of steps: [if (this.shouldStop) return], and
    [const r = this.addResult(key, method, inputs); if (r) yield r].  A
    suspended generator is the sequence of the steps it has left. *)
Inductive instr :=
| Check
| Emit (key method : jsstring) (inputs : list jsstring).

Definition generator := list instr.

(** [gen.next()]: run to the next [yield], or to the end. *)
Fixpoint next {U} (env : environment U) (gen : generator) (st : state U)
  : state U * option DerivationResult * generator :=
  match gen with
  | [] => (st, None, [])
  | Check :: rest => if shouldStop st then (st, None, []) else next env rest st
  | Emit key method inputs :: rest =>
    match addResult env st key method inputs with
    | (st', Some r) => (st', Some r, rest)
    | (st', None) => next env rest st'
    end
  end.

(** [for (const r of gen) ...] by a consumer that leaves the engine alone:
    everything the generator yields, and the state it ends in. *)
Fixpoint drain {U} (env : environment U) (gen : generator) (st : state U)
  : list DerivationResult * state U :=
  match gen with
  | [] => ([], st)
  | Check :: rest => if shouldStop st then ([], st) else drain env rest st
  | Emit key method inputs :: rest =>
    match addResult env st key method inputs with
    | (st', Some r) => let (l, st'') := drain env rest st' in (r :: l, st'')
    | (st', None) => drain env rest st'
    end
  end.

(** A consumer that may call [stop()] while the generator is suspended:
    [stops n] tells whether it does so before the [n]-th call of [next]. *)
Fixpoint consume {U} (env : environment U) (stops : nat -> bool) (fuel n : nat)
  (gen : generator) (st : state U) : list DerivationResult * state U :=
  match fuel with
  | O => ([], st)
  | Datatypes.S fuel' =>
    let st := if stops n then stop st else st in
    match next env gen st with
    | (st', Some r, gen') =>
      let (l, st'') := consume env stops fuel' (Datatypes.S n) gen' st' in (r :: l, st'')
    | (st', None, _) => ([], st')
    end
  end.

Section WithHost.
Context `{Host}.

(** SHA256 helper *)
Definition sha256 (input : jsstring) : jsstring :=
  stringify (SHA256 (Utf8_parse input)).

(** Double SHA256 (Bitcoin style) *)
Definition doubleSha256 (input : jsstring) : jsstring :=
  let first := SHA256 (Utf8_parse input) in
  stringify (SHA256 first).

(** PBKDF2 derivation; [keySize] is [256 / 32]. *)
Definition pbkdf2Derive (password salt : jsstring) (iterations : Z) : jsstring :=
  stringify (PBKDF2_SHA256 (Utf8_parse password) (Utf8_parse salt) 8 iterations).

Definition label (name : string) (size : nat) : jsstring :=
  lit name ++ lit "(" ++ toString10 (Z.of_nat size) ++ lit ")".

Definition xor_all (l : list jsstring) : jsstring :=
  match l with
  | [] => []
  | first :: rest => fold_left xorHex rest first
  end.

(** Method 1: All permutations of ABBA tokens concatenated and hashed *)
Definition generateABBAPermutations : generator :=
  flat_map (fun size =>
    flat_map (fun combo =>
      Check ::
      flat_map (fun perm =>
        let concat := join [] perm in
        let withSeparator := join (lit "_") perm in
        [Check;
         Emit (sha256 concat) (label "ABBA-Permutation-SHA256" size) perm;
         Emit (sha256 withSeparator) (label "ABBA-Permutation-SHA256-Underscore" size) perm;
         Emit (doubleSha256 concat) (label "ABBA-Permutation-DoubleSHA256" size) perm])
        (permutations combo))
      (combinations ABBA_TOKENS size))
    (seq 2 (Nat.min (length ABBA_TOKENS) 7 - 1)).

(** Method 2: XOR chains of known hashes in different orders *)
Definition generateXORChains : generator :=
  flat_map (fun perm =>
      let xorResult := xor_all perm in
      [Check;
       Emit xorResult (lit "XOR-Chain-KnownHashes") perm;
       Emit (sha256 xorResult) (lit "XOR-Chain-KnownHashes-SHA256") perm])
    (permutations KNOWN_HASHES)
  ++ flat_map (fun size =>
       flat_map (fun combo =>
           [Check; Emit (xor_all combo) (label "XOR-Combo" size) combo])
         (combinations KNOWN_HASHES size))
     [2; 3]%nat.

(** Method 3: Beaufort cipher key integration *)
Definition generateBeaufortDerivations : generator :=
  flat_map (fun password =>
      let transformed := beaufortTransform password BEAUFORT_KEY in
      let pwHash := sha256 password in
      let keyHash := sha256 BEAUFORT_KEY in
      let combined := password ++ BEAUFORT_KEY in
      [Check;
       Emit (sha256 transformed) (lit "Beaufort-Transform-SHA256") [password; BEAUFORT_KEY];
       Emit (xorHex pwHash keyHash) (lit "Password-XOR-BeaufortKey") [password; BEAUFORT_KEY];
       Emit (sha256 combined) (lit "Password+BeaufortKey-SHA256") [password; BEAUFORT_KEY]])
    PUZZLE_PASSWORDS
  ++ flat_map (fun token =>
       let transformed := beaufortTransform token BEAUFORT_KEY in
       [Check; Emit (sha256 transformed) (lit "ABBA-Beaufort-SHA256") [token; BEAUFORT_KEY]])
     ABBA_TOKENS.

(** Method 4: PBKDF2 derivations with puzzle phrases as salts *)
Definition salts : list jsstring :=
  map lit ["gsmg.io"; "1GSMG1JC9wtdSwfwApgj2xcmJPAwx7prBe"; "5BTCPUZZLE";
           "THEMATRIXHASYOU"; "theseedisplanted"]%string.

Definition generatePBKDF2Derivations : generator :=
  flat_map (fun password =>
      flat_map (fun salt =>
          [Check;
           Emit (pbkdf2Derive password salt 2048) (lit "PBKDF2-2048") [password; salt];
           Emit (pbkdf2Derive password salt 1) (lit "PBKDF2-1") [password; salt]])
        salts)
    PUZZLE_PASSWORDS
  ++ flat_map (fun token =>
       flat_map (fun salt =>
           [Check; Emit (pbkdf2Derive token salt 2048) (lit "PBKDF2-ABBA") [token; salt]])
         (firstn 2 salts))
     ABBA_TOKENS.

(** Method 5: BIP39-style mnemonic generation from puzzle words *)
Definition wordSets : list (list jsstring) :=
  map (map lit)
    [["seed"; "plant"; "choice"; "matrix"; "illusion"; "causality"];
     ["flower"; "blossom"; "concrete"; "surface"; "power"; "logic"];
     ["matrix"; "neo"; "morpheus"; "oracle"; "trinity"; "zion"];
     ["seed"; "matrix"; "choice"; "power"; "truth"; "key"];
     ["causality"; "choice"; "illusion"; "power"; "machine"; "truth"]]%string.

Definition keyWords : list jsstring :=
  map lit ["seed"; "matrix"; "causality"; "choice"; "key"; "bitcoin"]%string.

Definition generateBIP39Style : generator :=
  flat_map (fun words =>
      let mnemonic := join (lit " ") words in
      let salt := lit "mnemonic" in
      [Check;
       Emit (pbkdf2Derive mnemonic salt 2048) (lit "BIP39-Style-Mnemonic") words;
       Emit (sha256 mnemonic) (lit "BIP39-Direct-SHA256") words])
    wordSets
  ++ flat_map (fun perm =>
       let mnemonic := join (lit " ") perm in
       [Check; Emit (sha256 mnemonic) (lit "BIP39-KeyWord-Permutation") perm])
     (permutations keyWords).

(** Method 6: Direct puzzle phrase combinations *)
Definition claimedPassword : jsstring :=
  lit "TheSeedIsPlantedChoiceIsAnIllusionMatrixSumListLastWordsBeforeArchiChoiceJacqueFractalThereIsNoSpoonFFGPFGGQG3GNpjk6".

Definition generatePhraseCombinatins : generator :=
  flat_map (fun pw =>
      [Check;
       Emit (sha256 pw) (lit "Direct-SHA256") [pw];
       Emit (doubleSha256 pw) (lit "Direct-DoubleSHA256") [pw]])
    PUZZLE_PASSWORDS
  ++ flat_map (fun size =>
       flat_map (fun combo =>
           let concat := join [] combo in
           [Check; Emit (sha256 concat) (label "Phrase-Combo-SHA256" size) combo])
         (combinations PUZZLE_PASSWORDS size))
     [2; 3; 4]%nat
  ++ [Emit (sha256 claimedPassword) (lit "Claimed-Solution-SHA256") [claimedPassword];
      Emit (doubleSha256 claimedPassword) (lit "Claimed-Solution-DoubleSHA256")
        [claimedPassword]].

(** Method 7: Matrix-specific derivations (The Matrix movie references) *)
Definition matrixPhrases : list jsstring :=
  map lit ["ThereIsNoSpoon"; "WakeUpNeo"; "FollowTheWhiteRabbit"; "TheMatrixHasYou";
           "FreeYourMind"; "IKnowKungFu"; "RedPillBluePill"; "TheOne"; "TheOracle";
           "TheArchitect"; "Zion"; "Nebuchadnezzar"]%string.

Definition generateMatrixDerivations : generator :=
  flat_map (fun phrase =>
      let combined := phrase ++ BEAUFORT_KEY in
      [Check;
       Emit (sha256 phrase) (lit "Matrix-Reference-SHA256") [phrase];
       Emit (sha256 combined) (lit "Matrix+Beaufort-SHA256") [phrase; BEAUFORT_KEY]])
    matrixPhrases
  ++ flat_map (fun phrase =>
       flat_map (fun pw =>
           let combined := phrase ++ pw in
           [Check; Emit (sha256 combined) (lit "Matrix+Password-SHA256") [phrase; pw]])
         (firstn 3 PUZZLE_PASSWORDS))
     matrixPhrases.

(** The seven strategies, in the order [runAllDerivations] lists them. *)
Definition generators : list generator :=
  [generatePhraseCombinatins; generateABBAPermutations; generateXORChains;
   generateBeaufortDerivations; generatePBKDF2Derivations; generateBIP39Style;
   generateMatrixDerivations].

(** [runAllDerivations().next()]: the state of the driver is the list of the
    generators it has not finished, the one it is iterating first.  The flag
    is read after the inner generator has produced its result and before the
    driver yields it; [others] is what the driver does once the inner
    generator is done. *)
Fixpoint next_inner {U} (env : environment U) (gens' : list generator)
  (others : state U -> state U * option DerivationResult * list generator)
  (gen : generator) (st : state U)
  : state U * option DerivationResult * list generator :=
  match gen with
  | [] => others st
  | Check :: rest =>
    if shouldStop st then others st else next_inner env gens' others rest st
  | Emit key method inputs :: rest =>
    match addResult env st key method inputs with
    | (st', Some r) =>
      if shouldStop st' then (st', None, []) else (st', Some r, rest :: gens')
    | (st', None) => next_inner env gens' others rest st'
    end
  end.

Fixpoint next_all {U} (env : environment U) (gens : list generator) (st : state U)
  : state U * option DerivationResult * list generator :=
  match gens with
  | [] => (st, None, [])
  | gen :: gens' => next_inner env gens' (next_all env gens') gen st
  end.

(** [for await (const r of engine.runAllDerivations()) ...] by a consumer
    that leaves the engine alone. *)
Fixpoint drain_inner {U} (env : environment U)
  (others : state U -> list DerivationResult * state U)
  (gen : generator) (st : state U) : list DerivationResult * state U :=
  match gen with
  | [] => others st
  | Check :: rest =>
    if shouldStop st then others st else drain_inner env others rest st
  | Emit key method inputs :: rest =>
    match addResult env st key method inputs with
    | (st', Some r) =>
      if shouldStop st' then ([], st')
      else let (l, st'') := drain_inner env others rest st' in (r :: l, st'')
    | (st', None) => drain_inner env others rest st'
    end
  end.

Fixpoint drain_all {U} (env : environment U) (gens : list generator) (st : state U)
  : list DerivationResult * state U :=
  match gens with
  | [] => ([], st)
  | gen :: gens' => drain_inner env (drain_all env gens') gen st
  end.

Definition runAllDerivations {U} (env : environment U) (st : state U)
  : list DerivationResult * state U :=
  drain_all env generators st.

End WithHost.

End Engine.

(** ** [src/lib/agent-tools.ts]: the tool that runs a batch of derivations *)

Module AgentTools.

(** [(params.limit as number) || 100] for a limit that is an integer. *)
Definition effective_limit (limit : Z) : Z := if limit =? 0 then 100 else limit.

(** [for (const key of generator) { keys.push(key); count++; if (count >=
    limit) break }]: the [break] closes the generator, which then runs no
    further. *)
Fixpoint collect {U} (env : Engine.environment U) (limit : Z) (fuel : nat) (count : Z)
  (gen : Engine.generator) (st : Engine.state U)
  : list Engine.DerivationResult * Z * Engine.state U :=
  match fuel with
  | O => ([], count, st)
  | Datatypes.S fuel' =>
    match Engine.next env gen st with
    | (st', Some key, gen') =>
      let count := count + 1 in
      if limit <=? count then ([key], count, st')
      else
        let '(keys, count', st'') := collect env limit fuel' count gen' st' in
        (key :: keys, count', st'')
    | (st', None, _) => ([], count, st')
    end
  end.

(** The case [run_derivation_batch] for one method: a fresh engine without
    observer, and the generator of the method run up to the limit.  A
    generator of [n] steps is done after at most [n + 1] calls of [next]. *)
Definition run_derivation_batch (clock : nat -> Z) (limit : Z) (gen : Engine.generator)
  : list Engine.DerivationResult :=
  let env := {| Engine.clock := clock; Engine.onProgress := None |} in
  let engine := Engine.create tt in
  let '(keys, _, _) :=
    collect env (effective_limit limit) (Datatypes.S (length gen)) 0 gen engine in
  keys.

(** [keysFound: keys.map((k) => k.key)] *)
Definition keysFound (keys : list Engine.DerivationResult) : list jsstring :=
  map Engine.key keys.

End AgentTools.

(** ** The shapes and predicates the specification speaks of *)

Module Shape.

Definition base58_char (c : char) : Prop := In c Validator.BASE58_ALPHABET.
Definition hex_digit (c : char) : Prop := is_hex_digit c = true.

(** Exactly 64 hex characters. *)
Definition raw_hex (t : jsstring) : Prop :=
  length t = 64%nat /\ Forall hex_digit t.

(** 51 characters starting with [5], base58 alphabet: the shape as the
    specification words it. *)
Definition wif_uncompressed_spec (t : jsstring) : Prop :=
  length t = 51%nat /\ (exists r, t = Regex.ch "5" :: r) /\ Forall base58_char t.

(** 51 characters starting with [5] and then [H], [J] or [K], base58
    alphabet. *)
Definition wif_uncompressed (t : jsstring) : Prop :=
  length t = 51%nat /\
  exists c r, t = Regex.ch "5" :: c :: r /\ In c (lit "HJK") /\ Forall base58_char r.

(** 52 characters starting with [K] or [L], base58 alphabet. *)
Definition wif_compressed (t : jsstring) : Prop :=
  length t = 52%nat /\
  exists c r, t = c :: r /\ In c (lit "KL") /\ Forall base58_char r.

(** [^[0-9a-f]{64}$], case-insensitively. *)
Definition hex64 (t : jsstring) : Prop := raw_hex t.

(** The scalar a string of hexadecimal digits denotes. *)
Definition scalar (t : jsstring) : Z := value_of 16 (map hex_value t).

(** A byte string, as an array of numbers. *)
Definition is_byte (x : Z) : Prop := 0 <= x < 256.
Definition byte_array (b : list Z) : list number := map Num b.

(** A finite point is a pair of field elements. *)
Definition field_point (p : Z * Z) : Prop :=
  0 <= fst p < Validator.P /\ 0 <= snd p < Validator.P.

(** [y^2 = x^3 + 7 mod P] *)
Definition on_curve (p : Z * Z) : Prop :=
  (snd p * snd p) mod Validator.P = (fst p * fst p * fst p + 7) mod Validator.P.

Definition G : Z * Z := (Validator.SECP256K1.Gx, Validator.SECP256K1.Gy).

(** A point of the curve: the point at infinity, or a pair of field elements
    that satisfies the equation. *)
Definition curve_point (p : Validator.Point) : Prop :=
  match p with
  | None => True
  | Some q => field_point q /\ on_curve q
  end.

End Shape.

(** The code units a class lists, and membership in a list of them. *)
Definition class_units (cl : Regex.cclass) : list Z :=
  flat_map (fun r => map (fun i => fst r + Z.of_nat i)
                       (seq 0 (Z.to_nat (snd r - fst r + 1)))) cl.

Definition mem (c : Z) (l : list Z) : bool := existsb (Z.eqb c) l.

(** The keys a generator yields when nothing stops it: those of its [Emit]
    steps that pass the shape test, lower-cased. *)
Fixpoint yielded_keys (gen : Engine.generator) : list jsstring :=
  match gen with
  | [] => []
  | Engine.Check :: rest => yielded_keys rest
  | Engine.Emit key _ _ :: rest =>
    if Regex.test Engine.key_regex key then toLowerCase key :: yielded_keys rest
    else yielded_keys rest
  end.

(** The [Emit] steps a generator runs before it reads the stop flag again
    (or ends). *)
Fixpoint emit_run (gen : Engine.generator) : nat :=
  match gen with
  | Engine.Emit _ _ _ :: rest => Datatypes.S (emit_run rest)
  | _ => O
  end.

(** The longest run of [Emit] steps without a [Check] in a generator. *)
Fixpoint max_run (gen : Engine.generator) : nat :=
  match gen with
  | [] => O
  | Engine.Check :: rest => max_run rest
  | Engine.Emit _ _ _ :: rest => Nat.max (Datatypes.S (emit_run rest)) (max_run rest)
  end.

(** The key of a result has the shape [^[0-9a-f]{64}$]. *)
Definition valid_result (r : Engine.DerivationResult) : Prop :=
  Regex.test Engine.key_regex (Engine.key r) = true.

Definition starts_with_check (gen : Engine.generator) : bool :=
  match gen with
  | Engine.Check :: _ => true
  | _ => false
  end.

(** The loop of [Builtin.digits]. *)
Definition digit_cond (st : Z * list Z) : bool := 0 <? fst st.
Definition digit_body (base : Z) (st : Z * list Z) : Z * list Z :=
  (fst st / base, fst st mod base :: snd st).

(** The character the 58 digits of Base58 are written with. *)
Definition base58_digit (d : Z) : char := nth (Z.to_nat d) Validator.BASE58_ALPHABET 0.

(** The two hexadecimal digits of each byte. *)
Definition nibbles (b : list Z) : list Z := flat_map (fun x => [x / 16; x mod 16]) b.

(** The [for] loop of [permutations] for an array of [size' + 1] elements
    to permute, over the indices it has left. *)
Definition permutations_loop {T} (size' : nat) : list nat -> list T -> list (list T) :=
  fix loop (indices : list nat) (arr : list T) : list (list T) :=
    match indices with
    | [] => []
    | i :: indices' =>
      Engine.permutations_len size' arr
        ++ loop indices'
             (if Nat.even (Datatypes.S size') then Engine.swap i size' arr
              else Engine.swap 0 size' arr)
    end.

(** [c] is made of elements of [l], in the order they have in [l]. *)
Inductive subseq {T} : list T -> list T -> Prop :=
| subseq_nil : subseq [] []
| subseq_take a c l : subseq c l -> subseq (a :: c) (a :: l)
| subseq_skip a c l : subseq c l -> subseq c (a :: l).

(** The number of ways to choose [k] elements out of [n]. *)
Fixpoint choose (n k : nat) : nat :=
  match k, n with
  | O, _ => 1
  | Datatypes.S _, O => 0
  | Datatypes.S k', Datatypes.S n' => choose n' k' + choose n' k
  end.

(** A text of Basic Latin (ASCII) characters, on which [toUpperCase] and
    [toLowerCase] change the 26 letters only. *)
Definition ascii_text (s : jsstring) : Prop := Forall (fun c => 0 <= c < 128) s.

(** The bookkeeping of the engine: the counter is the number of results, so
    is the number of clock readings, and the [i]-th result carries the
    iteration [i] and the [i]-th reading of the clock. *)
Definition numbered {U} (env : Engine.environment U) (st : Engine.state U) : Prop :=
  Engine.counter st = Z.of_nat (length (Engine.results st)) /\
  Engine.reads st = length (Engine.results st) /\
  forall i r, nth_error (Engine.results st) i = Some r ->
    Engine.iteration r = Z.of_nat (Datatypes.S i) /\
    Engine.timestamp r = Engine.clock env i.

(** The candidate keys of a pattern: a first unit of [5KL] and then 50 or 51
    units of the Base58 alphabet. *)
Definition wif_candidate (k : jsstring) : Prop :=
  exists c r, k = c :: r /\ In c (lit "5KL") /\ Forall Shape.base58_char r /\
              (length r = 50%nat \/ length r = 51%nat).

(** [k] occurs in [text]. *)
Definition occurs_in (k text : jsstring) : Prop :=
  exists pre post, text = pre ++ k ++ post.

(** An observer that keeps what it is told: the progress reports, in the
    order of the calls. *)
Definition logging (clock : nat -> Z) : Engine.environment (list Engine.DerivationProgress) :=
  {| Engine.clock := clock; Engine.onProgress := Some (fun p log => log ++ [p]) |}.

(** What the reports say: the [i]-th, counted from 1, is made when the
    [i]-th result is added; it gives [i] as the number of attempts, the
    method of that result, the keys of the first [i] results, and no
    match. *)
Definition reported (st : Engine.state (list Engine.DerivationProgress)) : Prop :=
  length (Engine.observer st) = length (Engine.results st) /\
  forall i p, nth_error (Engine.observer st) i = Some p ->
    Engine.totalAttempts p = Z.of_nat (Datatypes.S i) /\
    Engine.currentAttempt p = Z.of_nat (Datatypes.S i) /\
    Engine.keysGenerated p = map Engine.key (firstn (Datatypes.S i) (Engine.results st)) /\
    Engine.matchFound p = false /\
    exists r, nth_error (Engine.results st) i = Some r /\
              Engine.currentMethod p = Engine.method r.

(** * Facts *)

(** ** Bounded loops *)

Section WhileFacts.
Context {S : Type} (cond : S -> bool) (body : S -> S).

Lemma while_nat_add (n m : nat) (s : S) :
  while_nat cond body (n + m) s = while_nat cond body m (while_nat cond body n s).
Proof.
  revert s; induction n as [|n IH]; intros s; simpl; [reflexivity|].
  destruct (cond s) eqn:E; [apply IH|].
  destruct m; simpl; [reflexivity|now rewrite E].
Qed.

Lemma while_loop_nat (b : positive) (s : S) :
  while_loop cond body b s = while_nat cond body (Pos.to_nat b) s.
Proof.
  revert s; induction b as [b IH|b IH|]; intros s.
  - rewrite Pos2Nat.inj_xI. cbn [while_loop while_nat]. destruct (cond s); [|reflexivity].
    rewrite !IH, <- while_nat_add. f_equal. lia.
  - rewrite Pos2Nat.inj_xO. cbn [while_loop]. destruct (cond s) eqn:E.
    + rewrite !IH, <- while_nat_add. f_equal. lia.
    + destruct (Pos.to_nat b) eqn:Eb; simpl; [reflexivity|now rewrite E].
  - reflexivity.
Qed.

(** A loop whose measure decreases leaves within [measure s] rounds, and
    what the bounded loop returns is what the loop computes. *)
Lemma while_nat_exec (measure : S -> nat) :
  (forall s, cond s = true -> (measure (body s) < measure s)%nat) ->
  forall n s, (measure s <= n)%nat -> while_exec cond body s (while_nat cond body n s).
Proof.
  intros Hdec n; induction n as [|n IH]; intros s Hs; simpl.
  - constructor. destruct (cond s) eqn:E; [|reflexivity].
    specialize (Hdec s E). lia.
  - destruct (cond s) eqn:E.
    + apply while_step; [assumption|]. apply IH. specialize (Hdec s E). lia.
    + now constructor.
Qed.

Lemma while_loop_exec (measure : S -> nat) :
  (forall s, cond s = true -> (measure (body s) < measure s)%nat) ->
  forall b s, (measure s <= Pos.to_nat b)%nat ->
  while_exec cond body s (while_loop cond body b s).
Proof.
  intros Hdec b s Hs. rewrite while_loop_nat. now apply while_nat_exec with measure.
Qed.

Lemma while_exec_deterministic (s s1 s2 : S) :
  while_exec cond body s s1 -> while_exec cond body s s2 -> s1 = s2.
Proof.
  intros H1; revert s2; induction H1; intros s2 H2; inversion H2; subst;
    try congruence; auto.
Qed.

(** The invariant rule. *)
Lemma while_exec_invariant (Inv : S -> Prop) (s s' : S) :
  while_exec cond body s s' ->
  (forall s, Inv s -> cond s = true -> Inv (body s)) ->
  Inv s -> Inv s' /\ cond s' = false.
Proof.
  intros H Hstep; induction H; intros Hi; [now split|].
  apply IHwhile_exec. now apply Hstep.
Qed.

Lemma while_exec_unfold (s s' : S) :
  while_exec cond body s s' ->
  if cond s then while_exec cond body (body s) s' else s' = s.
Proof.
  intros H; inversion H; subst.
  - now rewrite H0.
  - now rewrite H0.
Qed.

End WhileFacts.

(** ** Regular expressions *)

Lemma eqb_string_true (s t : jsstring) : eqb_string s t = true <-> s = t.
Proof. unfold eqb_string. destruct (list_eq_dec Z.eq_dec s t); split; congruence. Qed.

Lemma eqb_string_refl (s : jsstring) : eqb_string s s = true.
Proof. now apply eqb_string_true. Qed.

Lemma match_atoms_nil (ic : bool) (s : jsstring) :
  Regex.match_atoms ic [] s = true <-> s = [].
Proof. destruct s; simpl; split; congruence. Qed.

Lemma match_atoms_cons (ic : bool) (cl : Regex.cclass) (n : nat) l (s : jsstring) :
  Regex.match_atoms ic ((cl, n) :: l) s = true <->
  exists s1 s2, s = s1 ++ s2 /\ length s1 = n /\
    Forall (fun c => Regex.class_test ic cl c = true) s1 /\
    Regex.match_atoms ic l s2 = true.
Proof.
  simpl. rewrite !andb_true_iff, Nat.leb_le, forallb_forall, <- Forall_forall. split.
  - intros [[Hn Hc] Hm]. exists (firstn n s), (skipn n s).
    rewrite firstn_skipn, length_firstn. repeat split; auto. lia.
  - intros (s1 & s2 & -> & Hn & Hc & Hm). subst n.
    rewrite length_app, firstn_app, Nat.sub_diag, firstn_all, firstn_O, app_nil_r.
    rewrite skipn_app, Nat.sub_diag, skipn_all, skipn_O. simpl.
    repeat split; auto. lia.
Qed.

Lemma in_range_iff (lo hi c : Z) : in_range lo hi c = true <-> lo <= c <= hi.
Proof. unfold in_range. rewrite andb_true_iff, !Z.leb_le. tauto. Qed.

(** A code unit within a range is one of the units the range lists. *)
Lemma in_range_enum (lo hi c : Z) :
  in_range lo hi c = true ->
  In c (map (fun i => lo + Z.of_nat i) (seq 0 (Z.to_nat (hi - lo + 1)))).
Proof.
  rewrite in_range_iff. intros Hc. apply in_map_iff.
  exists (Z.to_nat (c - lo)). split; [lia|]. apply in_seq. lia.
Qed.

Lemma in_class_units (cl : Regex.cclass) (c : char) :
  Regex.in_class cl c = true -> In c (class_units cl).
Proof.
  unfold Regex.in_class, class_units. rewrite existsb_exists.
  intros [r [Hr Hc]]. apply in_flat_map. exists r. split; [assumption|].
  now apply in_range_enum.
Qed.

Lemma mem_In (c : Z) (l : list Z) : mem c l = true <-> In c l.
Proof.
  unfold mem. rewrite existsb_exists. split.
  - intros [x [Hx E]]. apply Z.eqb_eq in E. now subst.
  - intros Hc. exists c. split; [assumption|apply Z.eqb_refl].
Qed.

(** A class and a list of code units hold the same units, decided by
    running both ways over finitely many units. *)
Lemma class_is_list (cl : Regex.cclass) (l : list Z) :
  forallb (fun c => mem c l) (class_units cl) = true ->
  forallb (Regex.in_class cl) l = true ->
  forall c, Regex.in_class cl c = true <-> In c l.
Proof.
  rewrite !forallb_forall. intros H1 H2 c. split.
  - intros Hc. apply mem_In, H1. now apply in_class_units.
  - apply H2.
Qed.

Lemma base58_class_alphabet (c : char) :
  Regex.in_class Validator.base58_class c = true <-> Shape.base58_char c.
Proof. apply class_is_list; vm_compute; reflexivity. Qed.

Lemma hex_class_digit (c : char) :
  Regex.in_class [Regex.rng "0" "9"; Regex.rng "a" "f"; Regex.rng "A" "F"] c = true
  <-> Shape.hex_digit c.
Proof.
  unfold Shape.hex_digit, is_hex_digit, Regex.in_class. simpl.
  rewrite orb_false_r, orb_assoc. reflexivity.
Qed.

(** ** [detectKeyFormat] *)

Lemma wif_regex_shape (t : jsstring) :
  Regex.test Validator.wif_regex t = true <-> Shape.wif_uncompressed t.
Proof.
  unfold Regex.test, Validator.wif_regex; simpl Regex.atoms; simpl Regex.ignoreCase.
  rewrite match_atoms_cons. split.
  - intros (s1 & s2 & -> & L1 & C1 & H2). apply match_atoms_cons in H2.
    destruct H2 as (s3 & s4 & -> & L3 & C3 & H4). apply match_atoms_cons in H4.
    destruct H4 as (s5 & s6 & -> & L5 & C5 & H6). apply match_atoms_nil in H6. subst s6.
    destruct s1 as [|a [|]]; try discriminate. destruct s3 as [|b [|]]; try discriminate.
    apply Forall_inv in C1, C3. unfold Regex.class_test in C1, C3. cbv iota in C1, C3.
    split; [simpl; rewrite length_app; simpl; lia|].
    exists b, s5. rewrite app_nil_r. repeat split.
    + simpl. f_equal. apply (class_is_list [Regex.one "5"] [Regex.ch "5"]) in C1;
        [|reflexivity|reflexivity]. destruct C1 as [<-|[]]. reflexivity.
    + apply (class_is_list _ (lit "HJK")) in C3; [assumption|reflexivity|reflexivity].
    + eapply Forall_impl; [|exact C5]. intros c. apply base58_class_alphabet.
  - intros (L & c & r & -> & Hc & Hr). exists [Regex.ch "5"], (c :: r).
    repeat split; [repeat constructor|]. apply match_atoms_cons.
    exists [c], r. repeat split.
    + constructor; [|constructor]. unfold Regex.class_test. cbv iota.
      apply (class_is_list _ (lit "HJK")); [reflexivity|reflexivity|assumption].
    + apply match_atoms_cons. exists r, []. rewrite app_nil_r. repeat split.
      * simpl in L. lia.
      * eapply Forall_impl; [|exact Hr]. intros a. apply base58_class_alphabet.
Qed.

Lemma wif_compressed_regex_shape (t : jsstring) :
  Regex.test Validator.wif_compressed_regex t = true <-> Shape.wif_compressed t.
Proof.
  unfold Regex.test, Validator.wif_compressed_regex; simpl Regex.atoms; simpl Regex.ignoreCase.
  rewrite match_atoms_cons. split.
  - intros (s1 & s2 & -> & L1 & C1 & H2). apply match_atoms_cons in H2.
    destruct H2 as (s3 & s4 & -> & L3 & C3 & H4). apply match_atoms_nil in H4. subst s4.
    destruct s1 as [|a [|]]; try discriminate.
    apply Forall_inv in C1. unfold Regex.class_test in C1. cbv iota in C1.
    split; [simpl; rewrite length_app; simpl; lia|].
    exists a, s3. rewrite app_nil_r. repeat split.
    + apply (class_is_list _ (lit "KL")) in C1; [assumption|reflexivity|reflexivity].
    + eapply Forall_impl; [|exact C3]. intros c. apply base58_class_alphabet.
  - intros (L & c & r & -> & Hc & Hr). exists [c], r. repeat split.
    + constructor; [|constructor]. unfold Regex.class_test. cbv iota.
      apply (class_is_list _ (lit "KL")); [reflexivity|reflexivity|assumption].
    + apply match_atoms_cons. exists r, []. rewrite app_nil_r. repeat split.
      * simpl in L. lia.
      * eapply Forall_impl; [|exact Hr]. intros a. apply base58_class_alphabet.
Qed.

Lemma hex_regex_shape (t : jsstring) :
  Regex.test Validator.hex_regex t = true <-> Shape.raw_hex t.
Proof.
  unfold Regex.test, Validator.hex_regex; simpl Regex.atoms; simpl Regex.ignoreCase.
  rewrite match_atoms_cons. split.
  - intros (s1 & s2 & -> & L1 & C1 & H2). apply match_atoms_nil in H2. subst s2.
    rewrite app_nil_r. split; [assumption|].
    eapply Forall_impl; [|exact C1]. intros c. apply hex_class_digit.
  - intros [L Hd]. exists t, []. rewrite app_nil_r. repeat split; [assumption|].
    eapply Forall_impl; [|exact Hd]. intros c. apply hex_class_digit.
Qed.

(** The three shapes exclude one another: they differ in length. *)
Lemma shapes_exclusive (t : jsstring) :
  ~ (Shape.wif_uncompressed t /\ Shape.wif_compressed t) /\
  ~ (Shape.wif_uncompressed t /\ Shape.raw_hex t) /\
  ~ (Shape.wif_compressed t /\ Shape.raw_hex t).
Proof.
  unfold Shape.wif_uncompressed, Shape.wif_compressed, Shape.raw_hex.
  repeat split; intros [[L1 _] [L2 _]]; lia.
Qed.

Lemma detectKeyFormat_cases (key : jsstring) :
  let t := trim key in
  (Shape.wif_uncompressed t -> Validator.detectKeyFormat key = Validator.WIF) /\
  (Shape.wif_compressed t -> Validator.detectKeyFormat key = Validator.WIF_compressed) /\
  (Shape.raw_hex t -> Validator.detectKeyFormat key = Validator.hex) /\
  (~ Shape.wif_uncompressed t -> ~ Shape.wif_compressed t -> ~ Shape.raw_hex t ->
   Validator.detectKeyFormat key = Validator.unknown).
Proof.
  intros t. unfold Validator.detectKeyFormat. fold t.
  pose proof (wif_regex_shape t) as H1.
  pose proof (wif_compressed_regex_shape t) as H2.
  pose proof (hex_regex_shape t) as H3.
  pose proof (shapes_exclusive t) as (E1 & E2 & E3).
  destruct (Regex.test Validator.wif_regex t);
    destruct (Regex.test Validator.wif_compressed_regex t);
    destruct (Regex.test Validator.hex_regex t);
    repeat split; intros; try reflexivity; exfalso;
    intuition congruence.
Qed.

Lemma Forall_base58_char (t : jsstring) :
  forallb (fun c => mem c Validator.BASE58_ALPHABET) t = true -> Forall Shape.base58_char t.
Proof.
  rewrite forallb_forall, Forall_forall. intros Ht c Hc. now apply mem_In, Ht.
Qed.

(** C5, as the specification words it, fails: a string of 51 characters of the
    Base58 alphabet that starts with [5] is not WIF for [detectKeyFormat]
    when its second character is not [H], [J] or [K]. *)
Lemma detectKeyFormat_5_not_WIF :
  let key := lit "511111111111111111111111111111111111111111111111111" in
  Shape.wif_uncompressed_spec (trim key) /\
  Validator.detectKeyFormat key = Validator.unknown.
Proof.
  split; [|reflexivity].
  split; [reflexivity|]. split; [eexists; reflexivity|].
  apply Forall_base58_char. reflexivity.
Qed.

(** C5 (amended): after trimming white space, [detectKeyFormat] maps exactly
    the strings of 64 hex characters to the raw-hex format, exactly the
    51-character strings that start with [5] followed by [H], [J] or [K] and
    are over the Base58 alphabet to WIF-uncompressed, exactly the 52-character
    strings that start with [K] or [L] over the Base58 alphabet to
    WIF-compressed, and every other string to unknown. *)
Theorem detectKeyFormat_shapes (key : jsstring) :
  let t := trim key in
  (Shape.raw_hex t -> Validator.detectKeyFormat key = Validator.hex) /\
  (Shape.wif_uncompressed t -> Validator.detectKeyFormat key = Validator.WIF) /\
  (Shape.wif_compressed t -> Validator.detectKeyFormat key = Validator.WIF_compressed) /\
  (~ Shape.raw_hex t -> ~ Shape.wif_uncompressed t -> ~ Shape.wif_compressed t ->
   Validator.detectKeyFormat key = Validator.unknown).
Proof.
  intros t. destruct (detectKeyFormat_cases key) as (H1 & H2 & H3 & H4).
  repeat split; auto.
Qed.

Lemma detectKeyFormat_shapes_witness :
  Validator.detectKeyFormat
    (lit "  5HueCGU8rMjxEXxiPuD5BDku4MkFqeZyd4dZ1jvhTVqvbTLvyTJ ") = Validator.WIF
  /\ Validator.detectKeyFormat
       (lit "KwDiBf89QgGbjEhKnhXJuH7LrciVrZi3qYjgd9M7rFU73sVHnoWn") = Validator.WIF_compressed
  /\ Validator.detectKeyFormat
       (lit "0000000000000000000000000000000000000000000000000000000000000001 ") = Validator.hex
  /\ Validator.detectKeyFormat (lit "5HueCGU8rMjx") = Validator.unknown.
Proof.
  split; [|split; [|split]].
  - apply (detectKeyFormat_shapes _). split; [reflexivity|].
    eexists _, _. split; [reflexivity|]. split; [simpl; auto|].
    apply Forall_base58_char. reflexivity.
  - apply (detectKeyFormat_shapes _). split; [reflexivity|].
    eexists _, _. split; [reflexivity|]. split; [simpl; auto|].
    apply Forall_base58_char. reflexivity.
  - apply (detectKeyFormat_shapes _). split; [reflexivity|].
    apply Forall_forall. apply forallb_forall. reflexivity.
  - apply (detectKeyFormat_shapes _); intros [L _]; discriminate L.
Defined.

(** ** Trimming and [BigInt] *)

Lemma hex_digit_not_white_space (c : char) :
  is_hex_digit c = true -> is_white_space c = false.
Proof.
  unfold is_hex_digit, is_white_space, in_range. intros Hc.
  rewrite !orb_true_iff, !andb_true_iff, !Z.leb_le in Hc.
  repeat (apply orb_false_iff; split);
    try (apply andb_false_iff; rewrite !Z.leb_gt; lia);
    apply Z.eqb_neq; lia.
Qed.

Lemma trimStart_head (s : jsstring) :
  (forall c, hd_error s = Some c -> is_white_space c = false) -> trimStart s = s.
Proof.
  destruct s as [|c s]; [reflexivity|]. intros Hc. simpl. now rewrite (Hc c eq_refl).
Qed.

(** A string that neither starts nor ends with white space is its own
    trimming. *)
Lemma trim_ends (s : jsstring) :
  (forall c, hd_error s = Some c -> is_white_space c = false) ->
  (forall d, hd_error (rev s) = Some d -> is_white_space d = false) ->
  trim s = s.
Proof.
  intros Hc Hd. unfold trim, trimEnd. rewrite (trimStart_head s Hc).
  rewrite (trimStart_head (rev s) Hd). apply rev_involutive.
Qed.

Lemma hd_error_In {A} (l : list A) (a : A) : hd_error l = Some a -> In a l.
Proof. destruct l; simpl; [discriminate|]. intros [= ->]. now left. Qed.

Lemma trim_hex (s : jsstring) : Forall Shape.hex_digit s -> trim s = s.
Proof.
  intros Hs. rewrite Forall_forall in Hs. apply trim_ends; intros c Hc;
    apply hex_digit_not_white_space, Hs.
  - now apply hd_error_In.
  - apply in_rev. now apply hd_error_In.
Qed.

Lemma trim_space_hex (s : jsstring) :
  Forall Shape.hex_digit s -> trim (32 :: s) = s.
Proof.
  intros Hs. unfold trim. change (trimStart (32 :: s)) with (trimStart s).
  fold (trim s). now apply trim_hex.
Qed.

Lemma starts_with_app (p s : jsstring) : starts_with p (p ++ s) = true.
Proof.
  unfold starts_with. rewrite firstn_app, Nat.sub_diag, firstn_all, firstn_O, app_nil_r.
  apply eqb_string_refl.
Qed.

Lemma all_digits_hex (s : jsstring) :
  s <> [] -> Forall Shape.hex_digit s -> all_digits is_hex_digit s = true.
Proof.
  intros Hn Hs. destruct s; [congruence|]. unfold all_digits.
  apply forallb_forall. now apply Forall_forall.
Qed.

(** [BigInt("0x" + s)] for a non-empty run of hexadecimal digits. *)
Lemma BigInt_of_hex (msg : jsstring -> jsstring) (s : jsstring) :
  s <> [] -> Forall Shape.hex_digit s ->
  BigInt_of_string msg (lit "0x" ++ s) = inr (Shape.scalar s).
Proof.
  intros Hn Hs. unfold BigInt_of_string.
  assert (Ht : trim (lit "0x" ++ s) = lit "0x" ++ s).
  { apply trim_ends.
    - intros c [= <-]. reflexivity.
    - intros d Hd. rewrite rev_app_distr in Hd.
      destruct (rev s) as [|e r] eqn:E.
      + apply (f_equal (@rev _)) in E. rewrite rev_involutive in E. now subst.
      + simpl in Hd. injection Hd as <-. apply hex_digit_not_white_space.
        rewrite Forall_forall in Hs. apply Hs, in_rev. rewrite E. now left. }
  rewrite Ht. change (lit "0x" ++ s) with (48 :: 120 :: s) at 1.
  cbv beta iota. rewrite starts_with_app. simpl orb. cbv iota.
  change (skipn 2 (lit "0x" ++ s)) with s.
  now rewrite all_digits_hex.
Qed.

(** [BigInt("0x" + s)] throws when white space comes before the digits. *)
Lemma BigInt_of_space_hex (msg : jsstring -> jsstring) (s : jsstring) :
  s <> [] -> Forall Shape.hex_digit s ->
  BigInt_of_string msg (lit "0x" ++ 32 :: s) =
  inl (SyntaxError (msg (lit "0x" ++ 32 :: s))).
Proof.
  intros Hn Hs. unfold BigInt_of_string.
  assert (Ht : trim (lit "0x" ++ 32 :: s) = lit "0x" ++ 32 :: s).
  { apply trim_ends.
    - intros c [= <-]. reflexivity.
    - intros d Hd. change (lit "0x" ++ 32 :: s) with (lit "0x " ++ s) in Hd.
      rewrite rev_app_distr in Hd.
      destruct (rev s) as [|e r] eqn:E.
      + apply (f_equal (@rev _)) in E. rewrite rev_involutive in E. now subst.
      + simpl in Hd. injection Hd as <-. apply hex_digit_not_white_space.
        rewrite Forall_forall in Hs. apply Hs, in_rev. rewrite E. now left. }
  rewrite Ht. change (lit "0x" ++ 32 :: s) with (48 :: 120 :: 32 :: s) at 1.
  cbv beta iota. rewrite starts_with_app. simpl orb. cbv iota.
  change (skipn 2 (lit "0x" ++ 32 :: s)) with (32 :: s).
  reflexivity.
Qed.

Lemma lower_hex_digit (c : char) :
  is_hex_digit c = true ->
  is_hex_digit (lower_char c) = true /\ hex_value (lower_char c) = hex_value c.
Proof.
  unfold is_hex_digit, lower_char, hex_value, in_range. intros Hc.
  rewrite !orb_true_iff, !andb_true_iff, !Z.leb_le in Hc.
  destruct ((65 <=? c) && (c <=? 90)) eqn:E.
  - apply andb_true_iff in E. rewrite !Z.leb_le in E.
    assert (H1 : (48 <=? c + 32) && (c + 32 <=? 57) = false)
      by (apply andb_false_iff; rewrite !Z.leb_gt; lia).
    assert (H2 : (97 <=? c + 32) && (c + 32 <=? 102) = true)
      by (apply andb_true_iff; rewrite !Z.leb_le; lia).
    assert (H3 : (48 <=? c) && (c <=? 57) = false)
      by (apply andb_false_iff; rewrite !Z.leb_gt; lia).
    assert (H4 : (97 <=? c) && (c <=? 102) = false)
      by (apply andb_false_iff; rewrite !Z.leb_gt; lia).
    rewrite H1, H2, H3, H4. simpl. split; [reflexivity|lia].
  - split; [|reflexivity]. rewrite !orb_true_iff, !andb_true_iff, !Z.leb_le. exact Hc.
Qed.

Lemma toLowerCase_hex (s : jsstring) :
  Forall Shape.hex_digit s ->
  Forall Shape.hex_digit (toLowerCase s) /\ Shape.scalar (toLowerCase s) = Shape.scalar s.
Proof.
  intros Hs. split.
  - unfold toLowerCase. apply Forall_map. eapply Forall_impl; [|exact Hs].
    intros c Hc. now apply lower_hex_digit.
  - unfold Shape.scalar, toLowerCase. f_equal. rewrite map_map. apply map_ext_Forall.
    eapply Forall_impl; [|exact Hs]. intros c Hc. now apply lower_hex_digit.
Qed.

(** ** [validatePrivateKey] *)

Section ValidatorFacts.
Context `{Host}.

Lemma lit_app_not_nil (m : string) (s : jsstring) : m <> EmptyString -> lit m ++ s <> [].
Proof. destruct m; [congruence|]. discriminate. Qed.

(** What the [try] block returns is a success with an address or a failure
    with a text. *)
Lemma validate_body_shape (format : Validator.KeyFormat) (timestamp : Z)
  (key : jsstring) (r : Validator.KeyValidationResult) :
  Validator.validate_body format timestamp key = inr r ->
  (Validator.isValid r = true /\ Validator.error r = None /\
   exists a, Validator.address r = Some a)
  \/ (r = Validator.failure format Validator.out_of_range_error timestamp
      /\ format = Validator.hex)
  \/ (r = Validator.failure format Validator.wif_checksum_error timestamp
      /\ format <> Validator.hex).
Proof.
  unfold Validator.validate_body, bind, ret.
  destruct (Validator.KeyFormat_eqb format Validator.hex) eqn:Ef.
  - assert (format = Validator.hex) by (destruct format; try discriminate; reflexivity).
    destruct (BigInt_of_string _ _) as [e|k]; [discriminate|].
    destruct ((k <=? 0) || (Validator.SECP256K1.N <=? k)).
    + intros [= <-]. right. left. now split.
    + destruct (Validator.privateKeyToPublicKey _ _) as [e|pk]; [discriminate|].
      destruct (Validator.publicKeyToAddress pk) as [e|a]; [discriminate|].
      intros [= <-]. left. simpl. eauto.
  - assert (format <> Validator.hex) by (intros ->; discriminate).
    destruct (negb _).
    + intros [= <-]. right. right. now split.
    + destruct (Validator.privateKeyToPublicKey _ _) as [e|pk]; [discriminate|].
      destruct (Validator.publicKeyToAddress pk) as [e|a]; [discriminate|].
      intros [= <-]. left. simpl. eauto.
Qed.

(** C1: [validatePrivateKey] is a total function into [KeyValidationResult]:
    for every input string it returns either a success that carries an
    address, or a result with [isValid = false] and a non-empty [error];
    whatever is thrown inside (by [BigInt], by [base58Decode], by the curve
    arithmetic) ends in the second. *)
Theorem validatePrivateKey_structured (timestamp : Z) (key : jsstring) :
  let r := Validator.validatePrivateKey timestamp key in
  (Validator.isValid r = true /\ Validator.error r = None /\
   exists a, Validator.address r = Some a)
  \/ (Validator.isValid r = false /\
      exists e, Validator.error r = Some e /\ e <> []).
Proof.
  unfold Validator.validatePrivateKey.
  destruct (Validator.KeyFormat_eqb _ Validator.unknown).
  - right. split; [reflexivity|]. eexists. split; [reflexivity|discriminate].
  - destruct (Validator.validate_body _ timestamp key) as [e|r] eqn:E.
    + right. split; [reflexivity|]. eexists. split; [reflexivity|].
      apply lit_app_not_nil. discriminate.
    + apply validate_body_shape in E. destruct E as [E|[[-> _]|[-> _]]].
      * now left.
      * right. split; [reflexivity|]. eexists. split; [reflexivity|discriminate].
      * right. split; [reflexivity|]. eexists. split; [reflexivity|discriminate].
Qed.

Lemma raw_hex_not_nil (s : jsstring) : Shape.raw_hex s -> s <> [].
Proof. intros [L _] ->. discriminate L. Qed.

Lemma detectKeyFormat_raw_hex (s : jsstring) :
  Shape.raw_hex s -> Validator.detectKeyFormat s = Validator.hex.
Proof.
  intros Hs. apply detectKeyFormat_shapes. destruct Hs as [L Hd].
  rewrite (trim_hex s Hd). now split.
Qed.

Lemma detectKeyFormat_space_raw_hex (s : jsstring) :
  Shape.raw_hex s -> Validator.detectKeyFormat (32 :: s) = Validator.hex.
Proof.
  intros Hs. apply detectKeyFormat_shapes. destruct Hs as [L Hd].
  rewrite (trim_space_hex s Hd). now split.
Qed.

(** C10: white space is trimmed for format detection but not for parsing.
    For every string [h] of 64 hexadecimal digits (whatever its scalar),
    [" " + h] is classified as the hex format, and [validatePrivateKey]
    returns [isValid = false] with the error built from the [SyntaxError] of
    [BigInt("0x" + " " + h)]: the scalar is parsed from the untrimmed
    input. *)
Theorem leading_space_rejected (timestamp : Z) (h : jsstring) :
  Shape.raw_hex h ->
  let key := 32 :: h in
  let r := Validator.validatePrivateKey timestamp key in
  Validator.detectKeyFormat key = Validator.hex /\
  Validator.format r = Validator.hex /\
  Validator.isValid r = false /\
  Validator.error r =
    Some (lit "Validation error: "
            ++ syntax_error_text (lit "0x" ++ 32 :: toLowerCase h)).
Proof.
  intros Hh. cbv zeta. pose proof (detectKeyFormat_space_raw_hex h Hh) as Hf.
  split; [exact Hf|]. unfold Validator.validatePrivateKey.
  rewrite Hf. cbn [Validator.KeyFormat_eqb].
  unfold Validator.validate_body. cbn [Validator.KeyFormat_eqb].
  change (toLowerCase (32 :: h)) with (32 :: toLowerCase h).
  destruct (toLowerCase_hex h (proj2 Hh)) as [Hl _].
  rewrite BigInt_of_space_hex; [| |exact Hl].
  - cbn. repeat split.
  - intros E. apply (f_equal (@length _)) in E. unfold toLowerCase in E.
    rewrite length_map, (proj1 Hh) in E. discriminate.
Qed.

(** The range check on a string of 64 hexadecimal digits. *)
Lemma hex_range_check (timestamp : Z) (s : jsstring) :
  Shape.raw_hex s ->
  let r := Validator.validatePrivateKey timestamp s in
  (~ 0 < Shape.scalar s < Validator.SECP256K1.N ->
   r = Validator.failure Validator.hex Validator.out_of_range_error timestamp) /\
  (0 < Shape.scalar s < Validator.SECP256K1.N ->
   Validator.error r <> Some Validator.out_of_range_error).
Proof.
  intros Hs. cbv zeta. unfold Validator.validatePrivateKey.
  rewrite (detectKeyFormat_raw_hex s Hs). cbn [Validator.KeyFormat_eqb].
  unfold Validator.validate_body. cbn [Validator.KeyFormat_eqb].
  destruct (toLowerCase_hex s (proj2 Hs)) as [Hl Hv].
  rewrite BigInt_of_hex; [|intros E; apply (f_equal (@length _)) in E;
    unfold toLowerCase in E; rewrite length_map, (proj1 Hs) in E; discriminate|exact Hl].
  rewrite Hv. cbn [bind]. split.
  - intros Hr.
    assert (E : (Shape.scalar s <=? 0) || (Validator.SECP256K1.N <=? Shape.scalar s) = true).
    { apply orb_true_iff. rewrite !Z.leb_le. lia. }
    now rewrite E.
  - intros Hr.
    assert (E : (Shape.scalar s <=? 0) || (Validator.SECP256K1.N <=? Shape.scalar s) = false).
    { apply orb_false_iff. rewrite !Z.leb_gt. lia. }
    rewrite E. unfold bind.
    destruct (Validator.privateKeyToPublicKey _ _) as [e|pk]; [discriminate|].
    destruct (Validator.publicKeyToAddress pk) as [e|a]; discriminate.
Qed.

End ValidatorFacts.

Lemma leading_space_rejected_witness :
  let h := lit "0000000000000000000000000000000000000000000000000000000000000001" in
  Shape.raw_hex h /\ 0 < Shape.scalar h < Validator.SECP256K1.N /\
  Validator.isValid (Validator.validatePrivateKey (H := crypto_host) 0 (32 :: h)) = false.
Proof.
  intros h.
  assert (Hh : Shape.raw_hex h)
    by (split; [reflexivity|apply Forall_forall, forallb_forall; reflexivity]).
  split; [exact Hh|]. split; [vm_compute; split; reflexivity|].
  exact (proj1 (proj2 (proj2 (leading_space_rejected (H := crypto_host) 0 h Hh)))).
Defined.

(** The encoding of [N - 1] is a valid key. *)
Lemma order_minus_one_valid (timestamp : Z) :
  let r := Validator.validatePrivateKey (H := crypto_host) timestamp
             (Validator.bigintToHex32 (Validator.SECP256K1.N - 1)) in
  Validator.isValid r = true /\ Validator.error r = None.
Proof.
  vm_compute. split; reflexivity. (*HEAVY*)
Qed. (*HEAVY*)

(** C2: on an input of 64 hexadecimal digits [validatePrivateKey] answers
    with the out-of-range error exactly when the scalar is not in
    [0 < scalar < N]; the 64-digit encodings of [0], [N] and [N + 1] are
    rejected so, and that of [N - 1] passes the range check and is valid
    (with the hash functions of the host computed as the standards define
    them). *)
Theorem range_check_exact `{Host} (timestamp : Z) :
  (forall s, Shape.raw_hex s ->
     (~ 0 < Shape.scalar s < Validator.SECP256K1.N <->
      Validator.validatePrivateKey timestamp s =
      Validator.failure Validator.hex Validator.out_of_range_error timestamp)) /\
  (forall z, In z [0; Validator.SECP256K1.N; Validator.SECP256K1.N + 1] ->
     Validator.validatePrivateKey timestamp (Validator.bigintToHex32 z) =
     Validator.failure Validator.hex Validator.out_of_range_error timestamp) /\
  (let r := Validator.validatePrivateKey (H := crypto_host) timestamp
              (Validator.bigintToHex32 (Validator.SECP256K1.N - 1)) in
   Validator.isValid r = true /\ Validator.error r = None).
Proof.
  split; [|split].
  - intros s Hs. destruct (hex_range_check timestamp s Hs) as [H1 H2]. split; [exact H1|].
    intros E Hr. apply (H2 Hr). now rewrite E.
  - intros z Hz.
    assert (Hs : Shape.raw_hex (Validator.bigintToHex32 z) /\
                 ~ 0 < Shape.scalar (Validator.bigintToHex32 z) < Validator.SECP256K1.N).
    { simpl in Hz. destruct Hz as [<-|[<-|[<-|[]]]];
        (split; [split; [reflexivity|apply Forall_forall, forallb_forall; reflexivity]|]);
        vm_compute; intros [H1 H2]; discriminate. }
    now apply hex_range_check.
  - apply order_minus_one_valid.
Qed.

Lemma range_check_exact_witness :
  let s := lit "FFFFFFFFFFFFFFFFFFFFFFFFFFFFFFFEBAAEDCE6AF48A03BBFD25E8CD0364141" in
  Shape.raw_hex s /\ Shape.scalar s = Validator.SECP256K1.N /\
  Validator.error (Validator.validatePrivateKey (H := crypto_host) 0 s) =
  Some Validator.out_of_range_error.
Proof.
  intros s.
  assert (Hs : Shape.raw_hex s)
    by (split; [reflexivity|apply Forall_forall, forallb_forall; reflexivity]).
  split; [exact Hs|]. split; [reflexivity|].
  rewrite (proj1 (proj1 (range_check_exact (H := crypto_host) 0) s Hs)); [reflexivity|].
  vm_compute. intros [H1 H2]. discriminate.
Defined.

(** ** The derivation engine *)

Lemma key_class_digit (c : char) :
  Regex.class_test true [Regex.rng "0" "9"; Regex.rng "a" "f"] c = true
  <-> Shape.hex_digit c.
Proof.
  unfold Shape.hex_digit, is_hex_digit, Regex.class_test, Regex.in_class,
    lower_char, upper_char. simpl existsb.
  change (Regex.ch "0") with 48. change (Regex.ch "9") with 57.
  change (Regex.ch "a") with 97. change (Regex.ch "f") with 102.
  unfold in_range.
  destruct ((65 <=? c) && (c <=? 90)) eqn:E1; destruct ((97 <=? c) && (c <=? 122)) eqn:E2;
    rewrite ?andb_true_iff, ?andb_false_iff, ?Z.leb_le, ?Z.leb_gt in E1, E2;
    rewrite !orb_true_iff, !andb_true_iff, !Z.leb_le; lia.
Qed.

Lemma key_regex_shape (k : jsstring) :
  Regex.test Engine.key_regex k = true <-> Shape.hex64 k.
Proof.
  unfold Regex.test, Engine.key_regex; simpl Regex.atoms; simpl Regex.ignoreCase.
  rewrite match_atoms_cons. split.
  - intros (s1 & s2 & -> & L1 & C1 & H2). apply match_atoms_nil in H2. subst s2.
    rewrite app_nil_r. split; [assumption|].
    eapply Forall_impl; [|exact C1]. intros c. apply key_class_digit.
  - intros [L Hd]. exists k, []. rewrite app_nil_r. repeat split; [assumption|].
    eapply Forall_impl; [|exact Hd]. intros c. apply key_class_digit.
Qed.

Lemma toLowerCase_valid (k : jsstring) :
  Regex.test Engine.key_regex k = true ->
  Regex.test Engine.key_regex (toLowerCase k) = true.
Proof.
  rewrite !key_regex_shape. intros [L Hd]. split.
  - unfold toLowerCase. now rewrite length_map.
  - now apply toLowerCase_hex.
Qed.

Section EngineFacts.
Context {U : Type} (env : Engine.environment U).

(** A candidate that fails the shape test changes nothing and gives no
    result; one that passes is appended, lower-cased, to the results. *)
Lemma addResult_spec (st : Engine.state U) (k m : jsstring) (i : list jsstring) :
  (Regex.test Engine.key_regex k = false ->
   Engine.addResult env st k m i = (st, None)) /\
  (Regex.test Engine.key_regex k = true ->
   exists st' r, Engine.addResult env st k m i = (st', Some r) /\
     Engine.key r = toLowerCase k /\
     Engine.results st' = Engine.results st ++ [r] /\
     Engine.shouldStop st' = Engine.shouldStop st).
Proof.
  unfold Engine.addResult. split; intros ->; [reflexivity|].
  eexists _, _. split; [reflexivity|]. now repeat split.
Qed.

Lemma addResult_cases (st : Engine.state U) (k m : jsstring) (i : list jsstring) :
  (Regex.test Engine.key_regex k = false /\ Engine.addResult env st k m i = (st, None))
  \/ (Regex.test Engine.key_regex k = true /\
      exists st' r, Engine.addResult env st k m i = (st', Some r) /\
        Engine.key r = toLowerCase k /\
        Engine.results st' = Engine.results st ++ [r] /\
        Engine.shouldStop st' = Engine.shouldStop st).
Proof.
  destruct (addResult_spec st k m i) as [H1 H2].
  destruct (Regex.test Engine.key_regex k); [right|left]; auto.
Qed.

(** [next] appends to the results of the engine exactly what it yields, and
    what it yields is valid. *)
Lemma next_results (gen : Engine.generator) :
  forall st st' r gen',
  Engine.next env gen st = (st', r, gen') ->
  Engine.results st' = Engine.results st ++ match r with Some x => [x] | None => [] end /\
  (forall x, r = Some x -> valid_result x).
Proof.
  induction gen as [|[|k m i] gen IH]; intros st st' r gen' E.
  - injection E as <- <- <-. split; [now rewrite app_nil_r|discriminate].
  - simpl in E. destruct (Engine.shouldStop st).
    + injection E as <- <- <-. split; [now rewrite app_nil_r|discriminate].
    + eapply IH; eassumption.
  - simpl in E. destruct (addResult_cases st k m i) as [[Hk Ha]|[Hk (s1 & x & Ha & Kx & Rx & Sx)]];
      rewrite Ha in E.
    + eapply IH; eassumption.
    + injection E as <- <- <-. split; [assumption|].
      intros y [= <-]. unfold valid_result. rewrite Kx. now apply toLowerCase_valid.
Qed.

(** Every run of a generator, whatever the consumer does with [stop()]:
    the results the engine accumulates are those it yields, and they are
    valid. *)
Lemma consume_results (stops : nat -> bool) (fuel : nat) :
  forall n gen st l st',
  Engine.consume env stops fuel n gen st = (l, st') ->
  Forall valid_result l /\ Engine.results st' = Engine.results st ++ l.
Proof.
  induction fuel as [|fuel IH]; intros n gen st l st' E; simpl in E.
  - injection E as <- <-. split; [constructor|now rewrite app_nil_r].
  - set (st0 := if stops n then Engine.stop st else st) in E.
    assert (H0 : Engine.results st0 = Engine.results st)
      by (unfold st0; destruct (stops n); reflexivity).
    destruct (Engine.next env gen st0) as [[s1 r] gen1] eqn:En.
    destruct (next_results gen st0 s1 r gen1 En) as [H1 Hr]. rewrite H0 in H1.
    destruct r as [x|].
    + destruct (Engine.consume env stops fuel (Datatypes.S n) gen1 s1) as [l1 s2] eqn:Ec.
      injection E as <- <-. destruct (IH _ _ _ _ _ Ec) as (V1 & R1).
      split; [constructor; auto|]. rewrite R1, H1, <- app_assoc. reflexivity.
    + injection E as <- <-. split; [constructor|exact H1].
Qed.

(** [drain] is [next] called until the generator is done. *)
Lemma drain_next (gen : Engine.generator) :
  forall st,
  Engine.drain env gen st =
  match Engine.next env gen st with
  | (st', Some r, gen') => let (l, st'') := Engine.drain env gen' st' in (r :: l, st'')
  | (st', None, _) => ([], st')
  end.
Proof.
  induction gen as [|[|k m i] gen IH]; intros st; simpl.
  - reflexivity.
  - destruct (Engine.shouldStop st); [reflexivity|apply IH].
  - destruct (Engine.addResult env st k m i) as [st' [r|]]; [reflexivity|apply IH].
Qed.

(** With the flag down, a generator yields the keys of its valid candidates,
    in order, whatever the clock and the observer; the flag stays down. *)
Lemma drain_keys (gen : Engine.generator) :
  forall st, Engine.shouldStop st = false ->
  map Engine.key (fst (Engine.drain env gen st)) = yielded_keys gen /\
  Engine.shouldStop (snd (Engine.drain env gen st)) = false.
Proof.
  induction gen as [|[|k m i] gen IH]; intros st Hst; simpl.
  - now split.
  - rewrite Hst. now apply IH.
  - destruct (addResult_cases st k m i) as [[Hk Ha]|[Hk (s1 & x & Ha & Kx & Rx & Sx)]];
      rewrite Ha, Hk.
    + now apply IH.
    + rewrite Hst in Sx. destruct (IH s1 Sx) as [H1 H2].
      destruct (Engine.drain env gen s1) as [l s2]. simpl in *.
      split; [now rewrite Kx, H1|assumption].
Qed.

Lemma drain_inner_keys (others : Engine.state U -> list Engine.DerivationResult * Engine.state U)
  (ks : list jsstring) :
  (forall st, Engine.shouldStop st = false ->
     map Engine.key (fst (others st)) = ks /\ Engine.shouldStop (snd (others st)) = false) ->
  forall gen st, Engine.shouldStop st = false ->
  map Engine.key (fst (Engine.drain_inner env others gen st)) = yielded_keys gen ++ ks /\
  Engine.shouldStop (snd (Engine.drain_inner env others gen st)) = false.
Proof.
  intros Ho gen. induction gen as [|[|k m i] gen IH]; intros st Hst; simpl.
  - now apply Ho.
  - rewrite Hst. now apply IH.
  - destruct (addResult_cases st k m i) as [[Hk Ha]|[Hk (s1 & x & Ha & Kx & Rx & Sx)]];
      rewrite Ha, Hk.
    + now apply IH.
    + rewrite Hst in Sx. rewrite Sx. destruct (IH s1 Sx) as [H1 H2].
      destruct (Engine.drain_inner env others gen s1) as [l s2]. simpl in *.
      split; [now rewrite Kx, H1|assumption].
Qed.

Lemma drain_all_keys (gens : list Engine.generator) :
  forall st, Engine.shouldStop st = false ->
  map Engine.key (fst (Engine.drain_all env gens st)) = flat_map yielded_keys gens /\
  Engine.shouldStop (snd (Engine.drain_all env gens st)) = false.
Proof.
  induction gens as [|gen gens IH]; intros st Hst; simpl.
  - now split.
  - now apply drain_inner_keys.
Qed.

(** The driver yields valid results, and the results of the engine stay
    valid. *)
Lemma drain_inner_valid (others : Engine.state U -> list Engine.DerivationResult * Engine.state U) :
  (forall st, Forall valid_result (Engine.results st) ->
     Forall valid_result (fst (others st)) /\
     Forall valid_result (Engine.results (snd (others st)))) ->
  forall gen st, Forall valid_result (Engine.results st) ->
  Forall valid_result (fst (Engine.drain_inner env others gen st)) /\
  Forall valid_result (Engine.results (snd (Engine.drain_inner env others gen st))).
Proof.
  intros Ho gen. induction gen as [|[|k m i] gen IH]; intros st Hst; simpl.
  - now apply Ho.
  - destruct (Engine.shouldStop st); [now apply Ho|now apply IH].
  - destruct (addResult_cases st k m i) as [[Hk Ha]|[Hk (s1 & x & Ha & Kx & Rx & Sx)]];
      rewrite Ha.
    + now apply IH.
    + assert (Vx : valid_result x)
        by (unfold valid_result; rewrite Kx; now apply toLowerCase_valid).
      assert (V1 : Forall valid_result (Engine.results s1))
        by (rewrite Rx; apply Forall_app; split; [assumption|now constructor]).
      destruct (Engine.shouldStop s1); [split; [constructor|assumption]|].
      destruct (IH s1 V1) as [H1 H2].
      destruct (Engine.drain_inner env others gen s1) as [l s2]. simpl in *.
      split; [now constructor|assumption].
Qed.

Lemma drain_all_valid (gens : list Engine.generator) :
  forall st, Forall valid_result (Engine.results st) ->
  Forall valid_result (fst (Engine.drain_all env gens st)) /\
  Forall valid_result (Engine.results (snd (Engine.drain_all env gens st))).
Proof.
  induction gens as [|gen gens IH]; intros st Hst; simpl.
  - split; [constructor|assumption].
  - now apply drain_inner_valid.
Qed.

End EngineFacts.

(** C7: in every run of every generator of the engine (so of each of its
    seven strategies), under every use of [stop()] by the consumer, every
    result yielded has a key of the shape [^[0-9a-f]{64}$]; the results the
    engine accumulates are exactly those it yields; and a candidate that
    fails the shape test is discarded: [addResult] leaves the engine as it
    was and gives nothing to yield.  The combined driver yields valid
    results as well. *)
Theorem yields_are_hex64 `{Host} {U : Type} (env : Engine.environment U) :
  (forall gen stops fuel n st,
     let run := Engine.consume env stops fuel n gen st in
     Forall (fun r => Regex.test Engine.key_regex (Engine.key r) = true /\
                      Shape.hex64 (Engine.key r)) (fst run) /\
     Engine.results (snd run) = Engine.results st ++ fst run) /\
  (forall st k m i, ~ Shape.hex64 k -> Engine.addResult env st k m i = (st, None)) /\
  (forall u,
     let run := Engine.runAllDerivations env (Engine.create u) in
     Forall (fun r => Shape.hex64 (Engine.key r)) (fst run) /\
     Forall (fun r => Shape.hex64 (Engine.key r)) (Engine.results (snd run))).
Proof.
  split; [|split].
  - intros gen stops fuel n st run.
    destruct (Engine.consume env stops fuel n gen st) as [l st'] eqn:E.
    destruct (consume_results env stops fuel n gen st l st' E) as [V R].
    subst run. simpl. split; [|exact R].
    eapply Forall_impl; [|exact V]. intros r Hr. split; [exact Hr|].
    now apply key_regex_shape.
  - intros st k m i Hk. apply addResult_spec.
    destruct (Regex.test Engine.key_regex k) eqn:E; [|reflexivity].
    now apply key_regex_shape in E.
  - intros u run. subst run. unfold Engine.runAllDerivations.
    destruct (drain_all_valid env Engine.generators (Engine.create u)) as [V1 V2];
      [constructor|].
    split; (eapply Forall_impl; [|eassumption]); intros r Hr; now apply key_regex_shape.
Qed.

Lemma yields_are_hex64_witness :
  let env := {| Engine.clock := fun _ => 0; Engine.onProgress := None |} in
  let st := Engine.create tt in
  ~ Shape.hex64 (lit "0123") /\
  Engine.addResult env st (lit "0123") (lit "method") [] = (st, None).
Proof.
  intros env st.
  assert (Hk : ~ Shape.hex64 (lit "0123")) by (intros [L _]; discriminate L).
  split; [exact Hk|].
  exact (proj1 (proj2 (yields_are_hex64 (H := crypto_host) env)) st _ _ _ Hk).
Defined.

(** C9: generation is deterministic.  Two engines run to completion by
    consumers that never call [stop()] yield the same keys in the same
    order, whatever their clocks and their observers: the sequence is a
    function of the strategies alone.  So it is for each strategy run on its
    own. *)
Theorem generation_deterministic `{Host} {U1 U2 : Type}
  (env1 : Engine.environment U1) (env2 : Engine.environment U2) (u1 : U1) (u2 : U2) :
  map Engine.key (fst (Engine.runAllDerivations env1 (Engine.create u1))) =
  map Engine.key (fst (Engine.runAllDerivations env2 (Engine.create u2))) /\
  map Engine.key (fst (Engine.runAllDerivations env1 (Engine.create u1))) =
  flat_map yielded_keys Engine.generators /\
  forall gen,
    map Engine.key (fst (Engine.drain env1 gen (Engine.create u1))) =
    map Engine.key (fst (Engine.drain env2 gen (Engine.create u2))).
Proof.
  unfold Engine.runAllDerivations.
  destruct (drain_all_keys env1 Engine.generators (Engine.create u1) eq_refl) as [K1 _].
  destruct (drain_all_keys env2 Engine.generators (Engine.create u2) eq_refl) as [K2 _].
  split; [congruence|]. split; [exact K1|].
  intros gen.
  destruct (drain_keys env1 gen (Engine.create u1) eq_refl) as [G1 _].
  destruct (drain_keys env2 gen (Engine.create u2) eq_refl) as [G2 _].
  congruence.
Qed.

(** ** Cancellation *)

Section StopFacts.
Context {U : Type} (env : Engine.environment U).

(** With the flag up, a generator yields at most the candidates it has
    before it reads the flag. *)
Lemma drain_stopped (gen : Engine.generator) :
  forall st, Engine.shouldStop st = true ->
  (length (fst (Engine.drain env gen st)) <= emit_run gen)%nat.
Proof.
  induction gen as [|[|k m i] gen IH]; intros st Hst; simpl.
  - lia.
  - rewrite Hst. simpl. lia.
  - destruct (addResult_cases env st k m i) as [[Hk Ha]|[Hk (s1 & x & Ha & Kx & Rx & Sx)]];
      rewrite Ha.
    + specialize (IH st Hst). lia.
    + rewrite Hst in Sx. specialize (IH s1 Sx).
      destruct (Engine.drain env gen s1) as [l s2]. simpl in *. lia.
Qed.

Lemma drain_stopped_at_check (gen : Engine.generator) (st : Engine.state U) :
  starts_with_check gen = true -> Engine.shouldStop st = true ->
  Engine.drain env gen st = ([], st).
Proof.
  destruct gen as [|[|k m i] gen]; try discriminate. intros _ Hst. simpl. now rewrite Hst.
Qed.

End StopFacts.

Lemma emit_run_max (pre : Engine.generator) (k m : jsstring) (i : list jsstring)
  (rest : Engine.generator) :
  (Datatypes.S (emit_run rest) <= max_run (pre ++ Engine.Emit k m i :: rest))%nat.
Proof.
  induction pre as [|[|k' m' i'] pre IH]; cbn [app max_run]; lia.
Qed.

Section StrategyShapes.
Context `{Host}.

(** The loops of the strategies run over constants: the longest run of
    candidates between two readings of the flag is found by running over
    their steps. *)
Lemma max_run_strategies :
  map max_run Engine.generators = [3; 3; 2; 3; 2; 2; 2]%nat.
Proof. vm_compute. reflexivity. Qed.

Lemma strategies_start_with_check :
  forallb starts_with_check Engine.generators = true.
Proof. lazy. reflexivity. Qed.

Lemma max_run_le_3 (gen : Engine.generator) :
  In gen Engine.generators -> (max_run gen <= 3)%nat.
Proof.
  intros Hg. apply (in_map max_run) in Hg. rewrite max_run_strategies in Hg.
  simpl in Hg. intuition lia.
Qed.

Lemma max_run_le_2 (gen : Engine.generator) :
  In gen [Engine.generateXORChains; Engine.generatePBKDF2Derivations;
          Engine.generateBIP39Style; Engine.generateMatrixDerivations] ->
  (max_run gen <= 2)%nat.
Proof.
  intros [<-|[<-|[<-|[<-|[]]]]]; vm_compute; constructor.
Qed.

(** C8 (amended): for every strategy of an engine, once the stop flag is up,
    a generator suspended at a [yield] yields at most two further results
    before it ends (at most one for the XOR, PBKDF2, BIP39 and Matrix
    strategies), and a strategy invoked with the flag up yields nothing; so
    does the combined driver. *)
Theorem stop_bounds_further_results {U : Type} (env : Engine.environment U) :
  (forall gen pre k m i rest st,
     In gen Engine.generators -> gen = pre ++ Engine.Emit k m i :: rest ->
     Engine.shouldStop st = true ->
     (length (fst (Engine.drain env rest st)) <= 2)%nat) /\
  (forall gen pre k m i rest st,
     In gen [Engine.generateXORChains; Engine.generatePBKDF2Derivations;
             Engine.generateBIP39Style; Engine.generateMatrixDerivations] ->
     gen = pre ++ Engine.Emit k m i :: rest ->
     Engine.shouldStop st = true ->
     (length (fst (Engine.drain env rest st)) <= 1)%nat) /\
  (forall gen st,
     In gen Engine.generators -> Engine.shouldStop st = true ->
     Engine.drain env gen st = ([], st)) /\
  (forall st, Engine.shouldStop st = true ->
     Engine.runAllDerivations env st = ([], st)).
Proof.
  split; [|split; [|split]].
  - intros gen pre k m i rest st Hg E Hst.
    pose proof (drain_stopped env rest st Hst) as H1.
    pose proof (emit_run_max pre k m i rest) as H2. rewrite <- E in H2.
    pose proof (max_run_le_3 gen Hg). lia.
  - intros gen pre k m i rest st Hg E Hst.
    pose proof (drain_stopped env rest st Hst) as H1.
    pose proof (emit_run_max pre k m i rest) as H2. rewrite <- E in H2.
    pose proof (max_run_le_2 gen Hg). lia.
  - intros gen st Hg Hst. apply drain_stopped_at_check; [|assumption].
    pose proof strategies_start_with_check as Hs. rewrite forallb_forall in Hs. now apply Hs.
  - intros st Hst. unfold Engine.runAllDerivations.
    pose proof strategies_start_with_check as Hs. rewrite forallb_forall in Hs.
    induction Engine.generators as [|gen gens IH]; [reflexivity|].
    assert (Hg : starts_with_check gen = true) by (apply Hs; now left).
    destruct gen as [|[|k m i] gen]; try discriminate.
    simpl. rewrite Hst. apply IH. intros g Hin. apply Hs. now right.
Qed.

End StrategyShapes.

(** C8, as the specification words it, fails: the ABBA strategy reads the
    flag once for three candidates.  With the flag raised while the
    generator is suspended at its first [yield], the generator yields two
    more results. *)
Lemma two_results_after_stop :
  let env := {| Engine.clock := fun _ => 0; Engine.onProgress := @None (_ -> unit -> unit) |} in
  let gen := Engine.generateABBAPermutations (H := crypto_host) in
  let suspended := Engine.next env gen (Engine.create tt) in
  In gen (Engine.generators (H := crypto_host)) /\
  snd (fst suspended) <> None /\
  length (fst (Engine.drain env (snd suspended) (Engine.stop (fst (fst suspended))))) = 2%nat.
Proof.
  cbv zeta. split; [right; left; reflexivity|].
  split; [lazy; discriminate|lazy; reflexivity].
Qed.

Lemma stop_bounds_further_results_witness :
  let env := {| Engine.clock := fun _ => 0; Engine.onProgress := @None (_ -> unit -> unit) |} in
  let st := Engine.stop (Engine.create tt) in
  Engine.shouldStop st = true /\
  Engine.drain env (Engine.generateXORChains (H := crypto_host)) st = ([], st).
Proof.
  intros env st. split; [reflexivity|].
  refine (proj1 (proj2 (proj2 (stop_bounds_further_results (H := crypto_host) env))) _ st _ eq_refl).
  right; right; left; reflexivity.
Defined.

(** ** Digits *)

Section Digits.
Variable base : Z.
Hypothesis base_gt_1 : 1 < base.

Lemma digit_measure (st : Z * list Z) :
  digit_cond st = true ->
  (Z.to_nat (fst (digit_body base st)) < Z.to_nat (fst st))%nat.
Proof.
  unfold digit_cond, digit_body. destruct st as [v acc]. simpl. intros Hv.
  apply Z.ltb_lt in Hv. apply Z2Nat.inj_lt; [apply Z.div_pos; lia|lia|].
  apply Z.div_lt; lia.
Qed.

Lemma digits_loop_exec (v : Z) (acc : list Z) (n : nat) :
  (Z.to_nat v <= n)%nat ->
  while_exec digit_cond (digit_body base) (v, acc)
    (while_nat digit_cond (digit_body base) n (v, acc)).
Proof.
  intros Hn. now apply while_nat_exec with (measure := fun st => Z.to_nat (fst st));
    [apply digit_measure|].
Qed.

(** The loop of [digits] terminates within its bound. *)
Lemma digits_exec (v : Z) :
  while_exec digit_cond (digit_body base) (v, [])
    (while_loop digit_cond (digit_body base) (Z.to_pos v) (v, [])).
Proof.
  rewrite while_loop_nat. apply digits_loop_exec. simpl.
  destruct v; simpl; lia.
Qed.

Lemma digits_unfold (v : Z) :
  digits base v = snd (while_loop digit_cond (digit_body base) (Z.to_pos v) (v, [])).
Proof. reflexivity. Qed.

Lemma digits_eq (v : Z) (final : Z * list Z) :
  while_exec digit_cond (digit_body base) (v, []) final -> digits base v = snd final.
Proof.
  intros Hf. unfold digits. f_equal.
  eapply while_exec_deterministic; [apply digits_exec|exact Hf].
Qed.

Lemma digits_exec_acc (st final : Z * list Z) :
  while_exec digit_cond (digit_body base) st final ->
  forall acc acc', snd st = acc ++ acc' ->
  exists l, snd final = l ++ acc' /\
    while_exec digit_cond (digit_body base) (fst st, acc) (fst final, l).
Proof.
  induction 1 as [[v a] Hc|[v a] final Hc Hex IH]; intros acc acc' E; simpl in E; subst a.
  - exists acc. split; [reflexivity|]. now constructor.
  - destruct (IH (v mod base :: acc) acc' eq_refl) as (l & El & Hl).
    exists l. split; [exact El|]. apply while_step; [exact Hc|exact Hl].
Qed.

Lemma digits_nonpos (v : Z) : v <= 0 -> digits base v = [].
Proof.
  intros Hv. apply (digits_eq v (v, [])). constructor.
  unfold digit_cond. simpl. apply Z.ltb_ge. lia.
Qed.

(** The equation of the loop. *)
Lemma digits_step (v : Z) :
  0 < v -> digits base v = digits base (v / base) ++ [v mod base].
Proof.
  intros Hv. pose proof (digits_exec v) as Hex.
  apply while_exec_unfold in Hex.
  assert (Hc : digit_cond (v, []) = true) by (apply Z.ltb_lt; exact Hv).
  rewrite Hc in Hex. unfold digit_body in Hex at 1. simpl fst in Hex. simpl snd in Hex.
  destruct (digits_exec_acc _ _ Hex [] [v mod base] eq_refl) as (l & El & Hl).
  simpl in Hl. rewrite (digits_unfold v), El. f_equal.
  symmetry. apply (digits_eq _ _ Hl).
Qed.

Lemma value_of_app (ds : list Z) (d : Z) :
  value_of base (ds ++ [d]) = value_of base ds * base + d.
Proof. unfold value_of. now rewrite fold_left_app. Qed.

Lemma digits_spec (v : Z) :
  0 <= v ->
  value_of base (digits base v) = v /\
  Forall (fun d => 0 <= d < base) (digits base v) /\
  (0 < v -> exists d l, digits base v = d :: l /\ d <> 0).
Proof.
  intros Hv0. generalize Hv0. revert v Hv0. apply (Z_lt_induction (fun v => 0 <= v ->
    value_of base (digits base v) = v /\
    Forall (fun d => 0 <= d < base) (digits base v) /\
    (0 < v -> exists d l, digits base v = d :: l /\ d <> 0))).
  intros v IH Hv0. destruct (Z.eq_dec v 0) as [->|Hn].
  - rewrite digits_nonpos by lia. repeat split; [constructor|lia].
  - assert (Hv : 0 < v) by lia.
    assert (Hq : 0 <= v / base < v)
      by (split; [apply Z.div_pos; lia|apply Z.div_lt; lia]).
    destruct (IH (v / base) Hq (proj1 Hq)) as (V & R & D).
    pose proof (Z.mod_pos_bound v base ltac:(lia)) as Hm.
    rewrite (digits_step v Hv). repeat split.
    + rewrite value_of_app, V. pose proof (Z.div_mod v base ltac:(lia)). lia.
    + apply Forall_app. split; [exact R|]. constructor; [exact Hm|constructor].
    + intros _. destruct (Z.eq_dec (v / base) 0) as [E|E].
      * rewrite E, digits_nonpos by lia. exists (v mod base), []. split; [reflexivity|].
        pose proof (Z.div_mod v base ltac:(lia)). lia.
      * destruct (D ltac:(lia)) as (d & l & El & Hd). rewrite El.
        exists d, (l ++ [v mod base]). split; [reflexivity|exact Hd].
Qed.

(** A digit list without a leading zero is the digit list of its value. *)
Lemma digits_unique (ds : list Z) :
  Forall (fun d => 0 <= d < base) ds ->
  (forall d l, ds = d :: l -> d <> 0) ->
  digits base (value_of base ds) = ds /\ (ds <> [] -> 0 < value_of base ds).
Proof.
  induction ds as [|d ds IH] using rev_ind; intros Hr Hh.
  - split; [now apply digits_nonpos|congruence].
  - apply Forall_app in Hr. destruct Hr as [Hr Hd]. apply Forall_inv in Hd.
    rewrite value_of_app.
    assert (Hpos : 0 < value_of base ds * base + d).
    { destruct ds as [|e ds].
      - simpl. specialize (Hh d [] eq_refl). unfold value_of. simpl. lia.
      - destruct IH as [_ IH]; [exact Hr|intros ? ? [= <- <-]; now apply (Hh e (ds ++ [d]))|].
        specialize (IH ltac:(discriminate)). nia. }
    split; [|intros _; exact Hpos].
    rewrite (digits_step _ Hpos).
    replace ((value_of base ds * base + d) / base) with (value_of base ds)
      by (apply Z.div_unique with d; lia).
    replace ((value_of base ds * base + d) mod base) with d
      by (apply Z.mod_unique with (value_of base ds); lia).
    f_equal. apply IH; [exact Hr|].
    intros e l ->. now apply (Hh e (l ++ [d])).
Qed.

End Digits.

(** ** Base58 *)

Lemma indexOf_base58_digit (d : Z) :
  0 <= d < 58 -> indexOf (base58_digit d) Validator.BASE58_ALPHABET = Some d.
Proof.
  intros Hd.
  assert (H : forallb (fun n =>
              match indexOf (base58_digit (Z.of_nat n)) Validator.BASE58_ALPHABET with
              | Some i => i =? Z.of_nat n
              | None => false
              end) (seq 0 58) = true) by (vm_compute; reflexivity).
  rewrite forallb_forall in H. specialize (H (Z.to_nat d)).
  rewrite Z2Nat.id in H by lia.
  destruct (indexOf (base58_digit d) Validator.BASE58_ALPHABET) as [i|].
  - f_equal. apply Z.eqb_eq. apply H. apply in_seq. lia.
  - discriminate H. apply in_seq. lia.
Qed.

Lemma base58_digit_one (d : Z) : 0 <= d < 58 -> base58_digit d = 49 -> d = 0.
Proof.
  intros Hd E. pose proof (indexOf_base58_digit d Hd) as H. rewrite E in H.
  now injection H.
Qed.

(** The loop of [base58Encode] writes the base-58 digits of [value]. *)
Lemma enc_loop_digits (n : nat) :
  forall v acc, 0 <= v ->
  while_nat Validator.enc_cond Validator.enc_body n (v, map base58_digit acc) =
  (fst (while_nat digit_cond (digit_body 58) n (v, acc)),
   map base58_digit (snd (while_nat digit_cond (digit_body 58) n (v, acc)))).
Proof.
  induction n as [|n IH]; intros v acc Hv; [reflexivity|].
  simpl. unfold Validator.enc_cond, digit_cond. simpl fst.
  destruct (0 <? v) eqn:E; [|reflexivity]. apply Z.ltb_lt in E.
  unfold Validator.enc_body, digit_body. simpl fst. simpl snd.
  rewrite Z.rem_mod_nonneg, Z.quot_div_nonneg by lia.
  apply (IH (v / 58) (v mod 58 :: acc)). apply Z.div_pos; lia.
Qed.

Lemma enc_loop_result (v : Z) :
  0 <= v ->
  snd (while_loop Validator.enc_cond Validator.enc_body (Z.to_pos v) (v, [])) =
  map base58_digit (digits 58 v).
Proof.
  intros Hv. rewrite while_loop_nat, (enc_loop_digits _ v [] Hv).
  simpl snd. now rewrite digits_unfold, while_loop_nat.
Qed.

(** The loop of [base58Encode] terminates within its bound, for every
    [value]. *)
Lemma enc_loop_exec (v : Z) :
  while_exec Validator.enc_cond Validator.enc_body (v, [])
    (while_loop Validator.enc_cond Validator.enc_body (Z.to_pos v) (v, [])).
Proof.
  apply while_loop_exec with (measure := fun st => Z.to_nat (fst st)).
  - intros [w acc]. unfold Validator.enc_cond, Validator.enc_body. simpl.
    intros Hw. apply Z.ltb_lt in Hw. rewrite Z.quot_div_nonneg by lia.
    apply Z2Nat.inj_lt; [apply Z.div_pos; lia|lia|apply Z.div_lt; lia].
  - simpl. destruct v; simpl; lia.
Qed.

Lemma bytes_value_bytes (msg : jsstring) (b : list Z) :
  forall v, Validator.bytes_value msg (Shape.byte_array b) v
            = inr (fold_left (fun v x => v * 256 + x) b v).
Proof. induction b as [|x b IH]; intros v; simpl; [reflexivity|apply IH]. Qed.

(** A byte string with a non-zero byte is a run of zero bytes, a non-zero
    byte, and the rest. *)
Lemma split_leading_zeros (b : list Z) :
  (exists x, In x b /\ x <> 0) ->
  exists k r rest, b = repeat 0 k ++ r :: rest /\ r <> 0.
Proof.
  induction b as [|x b IH]; intros (y & Hy & Hn); [destruct Hy|].
  destruct (Z.eq_dec x 0) as [->|Hx].
  - destruct Hy as [<-|Hy]; [congruence|].
    destruct IH as (k & r & rest & -> & Hr); [eauto|].
    exists (Datatypes.S k), r, rest. now split.
  - exists O, x, b. now split.
Qed.

Lemma leading_zero_bytes (k : nat) (r : Z) (rest : list Z) :
  r <> 0 ->
  Validator.leading (fun b => number_eqb b (Num 0))
    (Shape.byte_array (repeat 0 k ++ r :: rest)) = k.
Proof.
  intros Hr. induction k as [|k IH]; simpl.
  - apply Z.eqb_neq in Hr. now rewrite Hr.
  - now rewrite IH.
Qed.

Lemma value_leading_zeros (base : Z) (k : nat) (l : list Z) :
  value_of base (repeat 0 k ++ l) = value_of base l.
Proof.
  unfold value_of. rewrite fold_left_app. f_equal.
  induction k as [|k IH]; simpl; [reflexivity|exact IH].
Qed.

Lemma base58_value_digits (ds : list Z) :
  Forall (fun d => 0 <= d < 58) ds ->
  forall v, Validator.base58_value (map base58_digit ds) v
            = inr (fold_left (fun v d => v * 58 + d) ds v).
Proof.
  induction 1 as [|d ds Hd _ IH]; intros v; [reflexivity|].
  cbn [map Validator.base58_value fold_left].
  rewrite (indexOf_base58_digit d Hd). apply IH.
Qed.

Lemma base58_value_ones (k : nat) (s : jsstring) :
  Validator.base58_value (repeat 49 k ++ s) 0 = Validator.base58_value s 0.
Proof. induction k as [|k IH]; [reflexivity|exact IH]. Qed.

Lemma leading_ones (k : nat) (s : jsstring) :
  (forall c l, s = c :: l -> c <> 49) ->
  Validator.leading (fun c => c =? 49) (repeat 49 k ++ s) = k.
Proof.
  intros Hs. induction k as [|k IH]; cbn [repeat app Validator.leading].
  - destruct s as [|c l]; [reflexivity|]. cbn [Validator.leading].
    specialize (Hs c l eq_refl). apply Z.eqb_neq in Hs. now rewrite Hs.
  - change (49 =? 49) with true. cbv iota. now rewrite IH.
Qed.

(** *** Bytes and hexadecimal digits *)

Lemma toString16_pos (v : Z) : 0 < v -> toString16 v = map hex_char (digits 16 v).
Proof.
  intros Hv. unfold toString16.
  destruct (Z.eqb_spec v 0); [lia|]. destruct (Z.ltb_spec v 0); [lia|reflexivity].
Qed.

Lemma fold_nibbles (b : list Z) :
  forall v, fold_left (fun v d => v * 16 + d) (nibbles b) v
            = fold_left (fun v x => v * 256 + x) b v.
Proof.
  induction b as [|x b IH]; intros v; [reflexivity|].
  simpl. rewrite IH. f_equal. pose proof (Z.div_mod x 16 ltac:(lia)). lia.
Qed.

Lemma value_nibbles (b : list Z) : value_of 16 (nibbles b) = value_of 256 b.
Proof. apply fold_nibbles. Qed.

Lemma nibbles_range (b : list Z) :
  Forall Shape.is_byte b -> Forall (fun d => 0 <= d < 16) (nibbles b).
Proof.
  induction 1 as [|x b Hx _ IH]; [constructor|]. unfold Shape.is_byte in Hx.
  simpl. constructor; [split; [apply Z.div_pos; lia|apply Z.div_lt_upper_bound; lia]|].
  constructor; [apply Z.mod_pos_bound; lia|exact IH].
Qed.

Lemma length_nibbles (b : list Z) : length (nibbles b) = (2 * length b)%nat.
Proof. induction b as [|x b IH]; simpl; [reflexivity|]. rewrite IH. lia. Qed.

(** The text [base58Decode] cuts into bytes, once padded to an even length,
    is the hexadecimal text of the bytes. *)
Lemma padded_hex (r : Z) (rest : list Z) :
  r <> 0 -> Forall Shape.is_byte (r :: rest) ->
  let hex := toString16 (value_of 256 (r :: rest)) in
  (if Nat.eqb (length hex mod 2) 0 then hex else lit "0" ++ hex)
  = map hex_char (nibbles (r :: rest)) /\ 0 < value_of 256 (r :: rest).
Proof.
  intros Hr Hb. pose proof (nibbles_range _ Hb) as Hn.
  pose proof (Forall_inv Hb) as Hr'. unfold Shape.is_byte in Hr'.
  cbv zeta. rewrite <- value_nibbles.
  destruct (Z.eq_dec (r / 16) 0) as [E|E].
  - (* the first digit is zero: the text has an odd length and gets its zero *)
    assert (Hm : r mod 16 = r) by (pose proof (Z.div_mod r 16 ltac:(lia)); lia).
    change (nibbles (r :: rest)) with (r / 16 :: r mod 16 :: nibbles rest) in *.
    rewrite E, Hm in *.
    change (0 :: r :: nibbles rest) with (repeat 0 1 ++ r :: nibbles rest).
    rewrite value_leading_zeros.
    destruct (digits_unique 16 ltac:(lia) (r :: nibbles rest)) as [D Hp].
    { now apply Forall_inv_tail in Hn. }
    { now intros d l [= <- _]. }
    specialize (Hp ltac:(discriminate)). split; [|exact Hp].
    rewrite (toString16_pos _ Hp), D, length_map. simpl length.
    rewrite length_nibbles.
    replace (Datatypes.S (2 * length rest)) with (1 + length rest * 2)%nat by lia.
    rewrite Nat.Div0.mod_add. reflexivity.
  - destruct (digits_unique 16 ltac:(lia) (nibbles (r :: rest))) as [D Hp].
    { exact Hn. }
    { now intros d l [= <- _]. }
    specialize (Hp ltac:(discriminate)). split; [|exact Hp].
    rewrite (toString16_pos _ Hp), D, length_map, length_nibbles.
    rewrite Nat.mul_comm, Nat.Div0.mod_mul. reflexivity.
Qed.

Lemma even_offsets_SS (n : nat) :
  Validator.even_offsets (Datatypes.S (Datatypes.S n))
  = O :: map (fun i => Datatypes.S (Datatypes.S i)) (Validator.even_offsets n).
Proof.
  unfold Validator.even_offsets.
  replace ((Datatypes.S (Datatypes.S n) + 1) / 2)%nat with (Datatypes.S ((n + 1) / 2)).
  - generalize ((n + 1) / 2)%nat as m. intros m.
    rewrite <- (cons_seq m 0), <- (seq_shift m 0). cbn [map]. f_equal.
    rewrite !map_map. apply map_ext. intros i. lia.
  - replace (Datatypes.S (Datatypes.S n) + 1)%nat with ((n + 1) + 1 * 2)%nat by lia.
    rewrite Nat.div_add by lia. lia.
Qed.

Lemma hexToBytes_pair (a c : char) (s : jsstring) :
  Validator.hexToBytes (a :: c :: s) = parseInt16 [a; c] :: Validator.hexToBytes s.
Proof.
  unfold Validator.hexToBytes. simpl length. rewrite even_offsets_SS.
  simpl map. f_equal. rewrite map_map. apply map_ext. intros i.
  unfold substring. replace (Datatypes.S (Datatypes.S i) + 2 - Datatypes.S (Datatypes.S i))%nat
    with (i + 2 - i)%nat by lia. reflexivity.
Qed.

Lemma parseInt16_byte (x : Z) :
  Shape.is_byte x -> parseInt16 [hex_char (x / 16); hex_char (x mod 16)] = Num x.
Proof.
  intros Hx. unfold Shape.is_byte in Hx.
  assert (H : forallb (fun n =>
              number_eqb (parseInt16 [hex_char (Z.of_nat n / 16); hex_char (Z.of_nat n mod 16)])
                         (Num (Z.of_nat n))) (seq 0 256) = true) by (vm_compute; reflexivity).
  rewrite forallb_forall in H. specialize (H (Z.to_nat x)).
  rewrite Z2Nat.id in H by lia.
  destruct (parseInt16 _) as [z|]; [|discriminate H; apply in_seq; lia].
  f_equal. apply Z.eqb_eq, H, in_seq. lia.
Qed.

Lemma hexToBytes_nibbles (b : list Z) :
  Forall Shape.is_byte b ->
  Validator.hexToBytes (map hex_char (nibbles b)) = Shape.byte_array b.
Proof.
  induction 1 as [|x b Hx _ IH]; [reflexivity|].
  change (nibbles (x :: b)) with (x / 16 :: x mod 16 :: nibbles b).
  simpl map. rewrite hexToBytes_pair, IH, (parseInt16_byte x Hx). reflexivity.
Qed.

Section Base58Roundtrip.
Context `{Host}.

Lemma base58Encode_bytes (k : nat) (r : Z) (rest : list Z) :
  r <> 0 -> Forall Shape.is_byte (r :: rest) ->
  Validator.base58Encode (Shape.byte_array (repeat 0 k ++ r :: rest)) =
  inr (repeat 49 k ++ map base58_digit (digits 58 (value_of 256 (r :: rest)))).
Proof.
  intros Hr Hb. unfold Validator.base58Encode.
  rewrite bytes_value_bytes. cbn [bind].
  fold (value_of 256 (repeat 0 k ++ r :: rest)). rewrite value_leading_zeros.
  destruct (padded_hex r rest Hr Hb) as [_ Hp].
  rewrite (enc_loop_result _ (Z.lt_le_incl _ _ Hp)), (leading_zero_bytes k r rest Hr).
  destruct (digits_spec 58 ltac:(lia) _ (Z.lt_le_incl _ _ Hp)) as (_ & _ & D).
  destruct (D Hp) as (d & l & -> & _).
  destruct k; reflexivity.
Qed.

Lemma base58Decode_digits (k : nat) (r : Z) (rest : list Z) :
  r <> 0 -> Forall Shape.is_byte (r :: rest) ->
  Validator.base58Decode
    (repeat 49 k ++ map base58_digit (digits 58 (value_of 256 (r :: rest)))) =
  inr (Shape.byte_array (repeat 0 k ++ r :: rest)).
Proof.
  intros Hr Hb. unfold Validator.base58Decode.
  destruct (padded_hex r rest Hr Hb) as [Hh Hp].
  destruct (digits_spec 58 ltac:(lia) _ (Z.lt_le_incl _ _ Hp)) as (V & R & D).
  rewrite base58_value_ones, (base58_value_digits _ R). cbn [bind].
  fold (value_of 58 (digits 58 (value_of 256 (r :: rest)))). rewrite V.
  cbv zeta in Hh. rewrite Hh, (hexToBytes_nibbles _ Hb). unfold ret. f_equal.
  rewrite leading_ones.
  - unfold Shape.byte_array. rewrite map_app, map_repeat. reflexivity.
  - destruct (D Hp) as (d & l & E & Hd). rewrite E. intros c l' [= <- _] Ec.
    apply Hd. apply base58_digit_one; [|exact Ec].
    rewrite E in R. now apply Forall_inv in R.
Qed.

(** C3 (amended): for every byte string [b] that holds a non-zero byte
    (leading zero bytes or not), [base58Decode(base58Encode(b))] is [b]. *)
Theorem base58_roundtrip (b : list Z) :
  Forall Shape.is_byte b -> (exists x, In x b /\ x <> 0) ->
  (s <- Validator.base58Encode (Shape.byte_array b) ;; Validator.base58Decode s)
  = inr (Shape.byte_array b).
Proof.
  intros Hb Hx. destruct (split_leading_zeros b Hx) as (k & r & rest & -> & Hr).
  apply Forall_app in Hb. destruct Hb as [_ Hb].
  rewrite (base58Encode_bytes k r rest Hr Hb). cbn [bind].
  now apply base58Decode_digits.
Qed.

End Base58Roundtrip.

(** C3, as the specification words it, fails on the byte strings without a
    non-zero byte: the empty one comes back as two zero bytes, and a single
    zero byte as two. *)
Lemma base58_roundtrip_fails_on_zeros :
  (s <- Validator.base58Encode (H := crypto_host) (Shape.byte_array []) ;;
   Validator.base58Decode s) = inr (Shape.byte_array [0; 0]) /\
  (s <- Validator.base58Encode (H := crypto_host) (Shape.byte_array [0]) ;;
   Validator.base58Decode s) = inr (Shape.byte_array [0; 0]) /\
  Shape.byte_array [0; 0] <> Shape.byte_array [] /\
  Shape.byte_array [0; 0] <> Shape.byte_array [0].
Proof. repeat split; discriminate. Qed.

Lemma base58_roundtrip_witness :
  let b := [0; 0; 128; 12; 40; 255] in
  Forall Shape.is_byte b /\ (exists x, In x b /\ x <> 0) /\
  (s <- Validator.base58Encode (H := crypto_host) (Shape.byte_array b) ;;
   Validator.base58Decode s) = inr (Shape.byte_array b).
Proof.
  intros b.
  assert (Hb : Forall Shape.is_byte b) by (repeat constructor; discriminate).
  assert (Hx : exists x, In x b /\ x <> 0)
    by (exists 128; split; [simpl; auto|discriminate]).
  split; [exact Hb|]. split; [exact Hx|].
  exact (base58_roundtrip (H := crypto_host) b Hb Hx).
Defined.

(** ** WIF parsing *)

Section WIFFacts.
Context `{Host}.

(** C6 (amended): [validateWIFChecksum] accepts a string exactly when it
    Base58-decodes to at least 37 bytes of which the last four are the
    checksum of the bytes before them, the payload; it then takes the 32
    bytes after the version byte as the key, and takes the key as compressed
    exactly when the payload is 34 bytes long and its last byte is [0x01]:
    any other accepted payload is an uncompressed key.  For an input of a WIF
    format, [validatePrivateKey] reports the checksum error exactly when
    the parsing does not accept. *)
Theorem validateWIFChecksum_accepts (wif : jsstring) :
  let r := Validator.validateWIFChecksum wif in
  (Validator.valid r = true <->
   exists decoded,
     Validator.base58Decode wif = inr decoded /\ (37 <= length decoded)%nat /\
     substring 0 8 (Validator.doubleSha256
                      (Validator.bytesToHex (firstn (length decoded - 4) decoded)))
     = Validator.bytesToHex (skipn (length decoded - 4) decoded)) /\
  (forall decoded, Validator.base58Decode wif = inr decoded ->
   Validator.valid r = true ->
   let payload := firstn (length decoded - 4) decoded in
   Validator.privateKeyHex r = Validator.bytesToHex (firstn 32 (skipn 1 payload)) /\
   (Validator.compressed r = true <->
    length payload = 34%nat /\ nth 33 payload NaN = Num 1)) /\
  (forall timestamp,
   Validator.detectKeyFormat wif = Validator.WIF \/
   Validator.detectKeyFormat wif = Validator.WIF_compressed ->
   (Validator.valid r = false <->
    Validator.error (Validator.validatePrivateKey timestamp wif)
    = Some Validator.wif_checksum_error)).
Proof.
  cbv zeta. unfold Validator.validateWIFChecksum.
  destruct (Validator.base58Decode wif) as [e|decoded] eqn:Ed.
  - split; [|split].
    + split; [discriminate|]. intros (d & Hd & _). discriminate.
    + intros d Hd. discriminate.
    + intros t Hf. unfold Validator.validatePrivateKey, Validator.validate_body,
        Validator.validateWIFChecksum.
      rewrite Ed. destruct Hf as [-> | ->]; simpl; split; reflexivity.
  - destruct (length decoded <? 37)%nat eqn:El.
    + apply Nat.ltb_lt in El. split; [|split].
      * split; [discriminate|]. intros (d & [= <-] & Hl & _). lia.
      * intros d _. discriminate.
      * intros t Hf. unfold Validator.validatePrivateKey, Validator.validate_body,
          Validator.validateWIFChecksum.
        rewrite Ed. apply Nat.ltb_lt in El. rewrite El.
        destruct Hf as [-> | ->]; simpl; split; reflexivity.
    + apply Nat.ltb_ge in El.
      destruct (eqb_string _ _) eqn:Ec; cbn [negb].
      * apply eqb_string_true in Ec. split; [|split].
        -- split; [|reflexivity]. intros _. exists decoded. now repeat split.
        -- intros d [= <-] _. cbv zeta. cbn [Validator.privateKeyHex Validator.compressed].
           split; [reflexivity|].
           rewrite andb_true_iff, Nat.eqb_eq. unfold number_eqb.
           destruct (nth 33 _ NaN) as [z|]; [|intuition discriminate].
           rewrite Z.eqb_eq. split; intros [H1 H2]; split; congruence.
        -- intros t Hf. unfold Validator.validatePrivateKey, Validator.validate_body,
             Validator.validateWIFChecksum.
           rewrite Ed. apply Nat.ltb_ge in El. rewrite El.
           apply eqb_string_true in Ec. rewrite Ec. cbn [negb Validator.valid].
           split; [discriminate|].
           destruct Hf as [-> | ->]; cbn [Validator.KeyFormat_eqb];
             unfold bind;
             destruct (Validator.privateKeyToPublicKey _ _) as [e|pk]; try discriminate;
             destruct (Validator.publicKeyToAddress pk) as [e|a]; discriminate.
      * split; [|split].
        -- split; [discriminate|]. intros (d & [= <-] & _ & Hc).
           apply eqb_string_true in Hc. congruence.
        -- intros d _. discriminate.
        -- intros t Hf. unfold Validator.validatePrivateKey, Validator.validate_body,
             Validator.validateWIFChecksum.
           rewrite Ed. apply Nat.ltb_ge in El. rewrite El, Ec.
           destruct Hf as [-> | ->]; simpl; split; reflexivity.
Qed.

End WIFFacts.

(** C6, as the specification words it, fails: a 52-character string whose
    payload of 34 bytes ends in [0x02] and whose checksum verifies is parsed,
    and [validatePrivateKey] derives an address from it (the one of the
    uncompressed public key). *)
Lemma wif_with_flag_02_accepted :
  let key := lit "KwDiBf89QgGbjEhKnhXJuH7LrciVrZi3qYjgd9M7rFU73sfZr2ym" in
  let r := Validator.validatePrivateKey (H := crypto_host) 0 key in
  (exists decoded,
     Validator.base58Decode key = inr decoded /\ length decoded = 38%nat /\
     nth 33 decoded NaN = Num 2) /\
  Validator.valid (Validator.validateWIFChecksum (H := crypto_host) key) = true /\
  Validator.isValid r = true /\
  Validator.error r = None /\
  Validator.address r = Some (lit "1EHNa6Q4Jz2uvNExL497mE43ikXhwF6kZm").
Proof.
  cbv zeta. split; [eexists; split; [vm_compute; reflexivity|split; reflexivity]|].
  vm_compute. repeat split.
Qed.

Lemma validateWIFChecksum_accepts_witness :
  let key := lit "5HueCGU8rMjxEXxiPuD5BDku4MkFqeZyd4dZ1jvhTVqvbTLvyTJ" in
  Validator.detectKeyFormat key = Validator.WIF /\
  Validator.valid (Validator.validateWIFChecksum (H := crypto_host) key) = true /\
  Validator.error (Validator.validatePrivateKey (H := crypto_host) 0 key)
  <> Some Validator.wif_checksum_error.
Proof.
  intros key.
  assert (Hf : Validator.detectKeyFormat key = Validator.WIF) by reflexivity.
  assert (Hv : Validator.valid (Validator.validateWIFChecksum (H := crypto_host) key) = true)
    by (vm_compute; reflexivity).
  split; [exact Hf|]. split; [exact Hv|].
  intros E.
  apply (proj2 (proj2 (validateWIFChecksum_accepts (H := crypto_host) key)) 0 (or_introl Hf)) in E.
  rewrite Hv in E. discriminate E.
Defined.

(** ** Primality *)

Lemma powmod_pos_correct (a : Z) (e : positive) (n : Z) :
  Primes.powmod_pos a e n = a ^ Zpos e mod n.
Proof.
  induction e as [e IH|e IH|]; cbn [Primes.powmod_pos].
  - rewrite IH, Pos2Z.inj_xI.
    replace (2 * Z.pos e + 1) with (Z.pos e + Z.pos e + 1) by lia.
    rewrite !Z.pow_add_r, Z.pow_1_r by lia.
    rewrite <- (Zmult_mod (a ^ Z.pos e) (a ^ Z.pos e) n).
    apply Zmult_mod_idemp_l.
  - rewrite IH, Pos2Z.inj_xO.
    replace (2 * Z.pos e) with (Z.pos e + Z.pos e) by lia.
    rewrite Z.pow_add_r by lia. symmetry. apply Zmult_mod.
  - now rewrite Z.pow_1_r.
Qed.

Lemma powmod_correct (a e n : Z) : 0 <= e -> Primes.powmod a e n = a ^ e mod n.
Proof.
  intros He. destruct e as [|e|e]; [reflexivity|apply powmod_pos_correct|lia].
Qed.

Lemma mod_one_pow (x p k : Z) : 1 < p -> 0 <= k -> x mod p = 1 -> x ^ k mod p = 1.
Proof.
  intros Hp Hk Hx. rewrite <- Z.mod_pow_l, Hx, Z.pow_1_l by lia. apply Z.mod_1_l. lia.
Qed.

(** Bezout coefficients can be taken non-negative on one side each. *)
Lemma nonneg_bezout (q m : Z) :
  0 < q -> 0 < m -> Z.coprime q m ->
  exists u v, 0 <= u /\ 0 <= v /\ u * q = 1 + v * m.
Proof.
  intros Hq Hm Hc. destruct (Z.Bezout_coprime q m Hc) as (u0 & v0 & E).
  exists (u0 + (Z.abs u0 + Z.abs v0 + 1) * m), ((Z.abs u0 + Z.abs v0 + 1) * q - v0).
  repeat split; nia.
Qed.

(** An element of prime order [q] modulo a prime [p]: [q] divides [p - 1]. *)
Lemma prime_order_divides (p q b : Z) :
  Z.prime p -> Z.prime q -> b ^ q mod p = 1 -> b mod p <> 1 -> (q | p - 1).
Proof.
  intros Hp Hq Hbq Hb1.
  pose proof (Z.prime_ge_2 p Hp) as Hp2. pose proof (Z.prime_ge_2 q Hq) as Hq2.
  assert (Hb0 : b mod p <> 0).
  { intros E. rewrite <- Z.mod_pow_l, E, Z.pow_0_l, Z.mod_0_l in Hbq by lia. discriminate. }
  pose proof (Z.fermat_nz p b Hp Hb0) as Hf.
  destruct (Z.eq_dec ((p - 1) mod q) 0) as [D|D];
    [apply Z.mod_divide; [lia|exact D]|exfalso].
  rewrite Z.mod_divide in D by lia.
  assert (Hc : Z.coprime q (p - 1)) by (now apply Z.coprime_prime_l).
  destruct (nonneg_bezout q (p - 1) ltac:(lia) ltac:(lia) Hc) as (u & v & Hu & Hv & E).
  apply Hb1.
  assert (H1 : b ^ (u * q) mod p = 1).
  { rewrite Z.mul_comm, Z.pow_mul_r by lia. apply mod_one_pow; [lia|lia|exact Hbq]. }
  rewrite E, Z.pow_add_r, Z.pow_1_r in H1 by nia.
  rewrite (Z.mul_comm v), Z.pow_mul_r in H1 by lia.
  rewrite <- Zmult_mod_idemp_r, (mod_one_pow _ p v) in H1; [|lia|lia|exact Hf].
  now rewrite Z.mul_1_r in H1.
Qed.

Lemma mod_divide_transfer (x n p r : Z) :
  0 < p -> (p | n) -> x mod n = r -> x mod p = r mod p.
Proof.
  intros Hp [k Hk] Hx. apply Z.cong_iff_ex. exists (k * (x / n)).
  destruct (Z.eq_dec n 0) as [Hn|Hn].
  - assert (k = 0) by nia. subst. rewrite Z.mod_0_r. ring.
  - pose proof (Z.div_mod x n Hn) as E. rewrite Hx in E.
    rewrite E at 1. rewrite Hk at 1. ring.
Qed.

(** The heart of Pocklington's criterion. *)
Lemma pocklington_factor (n a p q : Z) :
  1 < n -> Z.prime p -> (p | n) -> Z.prime q -> (q | n - 1) ->
  a ^ (n - 1) mod n = 1 ->
  Z.gcd (a ^ ((n - 1) / q) mod n - 1) n = 1 ->
  (q | p - 1).
Proof.
  intros Hn Hp Hpn Hq Hqn Ha Hg.
  pose proof (Z.prime_ge_2 p Hp) as Hp2. pose proof (Z.prime_ge_2 q Hq) as Hq2.
  apply prime_order_divides with (b := a ^ ((n - 1) / q)); try assumption.
  - rewrite <- Z.pow_mul_r; [|apply Z.div_pos; lia|lia].
    replace ((n - 1) / q * q) with (n - 1).
    + rewrite (mod_divide_transfer _ n p 1 ltac:(lia) Hpn Ha). apply Z.mod_1_l. lia.
    + destruct Hqn as [k Hk]. rewrite Hk, Z.div_mul by lia. reflexivity.
  - intros Hb.
    assert (Hd : (p | a ^ ((n - 1) / q) mod n - 1)).
    { apply Z.mod_divide; [lia|].
      rewrite Zminus_mod,
        <- (mod_divide_transfer (a ^ ((n - 1) / q)) n p _ ltac:(lia) Hpn eq_refl), Hb.
      rewrite Z.mod_1_l by lia. reflexivity. }
    pose proof (Z.gcd_greatest _ _ _ Hd Hpn) as H1. rewrite Hg in H1.
    apply Z.divide_1_r_nonneg in H1; lia.
Qed.

(** A prime that divides a product of primes is one of them. *)
Lemma prime_divides_product (q : Z) (qs : list Z) :
  Z.prime q -> Forall Z.prime qs -> (q | Primes.product qs) -> In q qs.
Proof.
  intros Hq. induction 1 as [|r qs Hr _ IH]; simpl; intros Hd.
  - apply Z.divide_1_r_nonneg in Hd; pose proof (Z.prime_ge_2 q Hq); lia.
  - apply Z.divide_prime_mul in Hd; [|exact Hq]. destruct Hd as [Hd|Hd].
    + left. symmetry. now apply Z.divide_prime_prime.
    + right. now apply IH.
Qed.

Lemma distinct_NoDup (l : list Z) : Primes.distinct l = true -> NoDup l.
Proof.
  induction l as [|x l IH]; simpl; intros H; [constructor|].
  apply andb_true_iff in H. destruct H as [Hx Hl]. constructor; [|now apply IH].
  intros Hin. apply negb_true_iff in Hx.
  assert (existsb (Z.eqb x) l = true)
    by (apply existsb_exists; exists x; split; [assumption|apply Z.eqb_refl]).
  congruence.
Qed.

(** Distinct primes that divide [m] divide it together. *)
Lemma product_divides (m : Z) (qs : list Z) :
  NoDup qs -> Forall Z.prime qs -> (forall q, In q qs -> (q | m)) ->
  (Primes.product qs | m).
Proof.
  induction 1 as [|q qs Hq Hnd IH]; intros Hp Hd; simpl.
  - apply Z.divide_1_l.
  - pose proof (Forall_inv Hp) as Hpq. pose proof (Forall_inv_tail Hp) as Hps.
    assert (Hc : Z.coprime q (Primes.product qs)).
    { apply Z.coprime_prime_l; [exact Hpq|]. intros Hdiv. apply Hq.
      now apply prime_divides_product. }
    destruct (Hd q (or_introl eq_refl)) as [k Hk].
    assert (Hk' : (Primes.product qs | k)).
    { apply Z.gauss with q; [|rewrite Z.gcd_comm; exact Hc].
      rewrite Z.mul_comm, <- Hk. apply IH; [exact Hps|]. intros r Hr. apply Hd. now right. }
    destruct Hk' as [j Hj]. exists j. rewrite Hk, Hj. ring.
Qed.

Lemma product_pos (qs : list Z) : Forall Z.prime qs -> 0 < Primes.product qs.
Proof.
  induction 1 as [|q qs Hq _ IH]; simpl; [lia|].
  pose proof (Z.prime_ge_2 q Hq). nia.
Qed.

Lemma exists_prime_divisor (c : Z) : 1 < c -> exists p, Z.prime p /\ (p | c).
Proof.
  intros Hc. assert (H0 : 0 <= c) by lia. revert c H0 Hc.
  apply (Z_lt_induction (fun c => 1 < c -> exists p, Z.prime p /\ (p | c))).
  intros c IH Hc. destruct (prime_dec c) as [Hp|Hp].
  - exists c. split; [now apply prime_alt|apply Z.divide_refl].
  - destruct (not_prime_divide c Hc Hp) as (d & Hd & Hdc).
    destruct (IH d ltac:(lia) ltac:(lia)) as (p & Hpp & Hpd).
    exists p. split; [exact Hpp|]. now apply Z.divide_trans with d.
Qed.

(** A number that is not prime has a prime factor below its square root. *)
Lemma small_prime_factor (n : Z) :
  1 < n -> ~ Z.prime n -> exists p, Z.prime p /\ (p | n) /\ p * p <= n.
Proof.
  intros Hn Hp. rewrite prime_alt in Hp.
  destruct (not_prime_divide n Hn Hp) as (d & Hd & [k Hk]).
  assert (Hk1 : 1 < k) by nia.
  destruct (Z_le_gt_dec d k) as [Hle|Hgt].
  - destruct (exists_prime_divisor d ltac:(lia)) as (p & Hpp & Hpd).
    exists p. split; [exact Hpp|]. split.
    + apply Z.divide_trans with d; [exact Hpd|]. exists k. exact Hk.
    + apply Z.divide_pos_le in Hpd; [|lia]. pose proof (Z.prime_ge_2 p Hpp). nia.
  - destruct (exists_prime_divisor k ltac:(lia)) as (p & Hpp & Hpd).
    exists p. split; [exact Hpp|]. split.
    + apply Z.divide_trans with k; [exact Hpd|]. exists d. lia.
    + apply Z.divide_pos_le in Hpd; [|lia]. pose proof (Z.prime_ge_2 p Hpp). nia.
Qed.

(** Pocklington's criterion. *)
Theorem pocklington_prime (n a : Z) (qs : list Z) :
  Primes.pocklington n a qs = true -> Forall Z.prime qs -> Z.prime n.
Proof.
  unfold Primes.pocklington. rewrite !andb_true_iff, forallb_forall.
  rewrite !Z.ltb_lt, Z.eqb_eq. intros [[[[Hn HF] Hd] Ha] Hq] Hp.
  destruct (prime_dec n) as [Hpn|Hpn]; [now apply prime_alt|exfalso].
  rewrite <- prime_alt in Hpn.
  destruct (small_prime_factor n Hn Hpn) as (p & Hpp & Hpd & Hsq).
  pose proof (Z.prime_ge_2 p Hpp) as Hp2.
  rewrite powmod_correct in Ha by lia.
  assert (HFp : (Primes.product qs | p - 1)).
  { apply product_divides; [now apply distinct_NoDup|exact Hp|].
    intros q Hin. specialize (Hq q Hin). apply andb_true_iff in Hq.
    destruct Hq as [Hq1 Hq2]. apply Z.eqb_eq in Hq1, Hq2.
    rewrite Forall_forall in Hp. pose proof (Hp q Hin) as Hqp.
    pose proof (Z.prime_ge_2 q Hqp) as Hq3.
    rewrite powmod_correct in Hq2 by (apply Z.div_pos; lia).
    apply pocklington_factor with n a; try assumption.
    apply Z.mod_divide; [lia|exact Hq1]. }
  apply Z.divide_pos_le in HFp; [|lia].
  pose proof (product_pos qs Hp). nia.
Qed.

Lemma no_divisor_correct (fuel : nat) :
  forall d n, 0 < d -> Primes.no_divisor fuel d n = true ->
  forall d', d <= d' -> d' * d' <= n -> ~ (d' | n).
Proof.
  induction fuel as [|fuel IH]; intros d n Hd; cbn [Primes.no_divisor];
    destruct (Z.ltb_spec n (d * d)) as [Hlt|Hge]; intros H d' Hd' Hsq;
    try discriminate; try nia.
  apply andb_true_iff in H. destruct H as [Hm Hr].
  destruct (Z.eq_dec d d') as [<-|Hne].
  - apply negb_true_iff, Z.eqb_neq in Hm. intros Hdiv. apply Hm.
    apply Z.mod_divide; [lia|exact Hdiv].
  - apply (IH (d + 1) n ltac:(lia) Hr d'); lia.
Qed.

(** Trial division. *)
Lemma small_prime_correct (n : Z) : Primes.small_prime n = true -> Z.prime n.
Proof.
  unfold Primes.small_prime. rewrite andb_true_iff, Z.ltb_lt. intros [Hn Hd].
  split; [exact Hn|]. intros m Hm [k Hk].
  assert (Hk1 : 1 < k) by nia.
  pose proof (no_divisor_correct _ 2 n ltac:(lia) Hd) as H.
  destruct (Z_le_gt_dec m k) as [Hle|Hgt].
  - apply (H m); [lia|nia|]. exists k. exact Hk.
  - apply (H k); [lia|nia|]. exists m. lia.
Qed.

Lemma check_chain_correct (chain : list (Z * Z * list Z)) :
  forall known, Forall Z.prime known -> Primes.check_chain known chain = true ->
  Forall (fun c => Z.prime (fst (fst c))) chain.
Proof.
  induction chain as [|[[n a] qs] chain IH]; intros known Hk; [constructor|].
  cbn [Primes.check_chain]. rewrite !andb_true_iff, forallb_forall.
  intros [[Hq Hp] Hc].
  assert (Hn : Z.prime n).
  { apply pocklington_prime with a qs; [exact Hp|]. apply Forall_forall.
    intros q Hin. specialize (Hq q Hin).
    destruct (existsb (Z.eqb q) known) eqn:E.
    - apply existsb_exists in E. destruct E as (r & Hr & Er).
      apply Z.eqb_eq in Er. subst r. rewrite Forall_forall in Hk. now apply Hk.
    - now apply small_prime_correct. }
  constructor; [exact Hn|]. apply IH with (n :: known); [now constructor|exact Hc].
Qed.

(** The field modulus of secp256k1 is prime. *)
Theorem P_prime : Z.prime Validator.P.
Proof.
  assert (H : Primes.check_chain [] Primes.secp256k1_chain = true)
    by (vm_compute; reflexivity).
  apply check_chain_correct in H; [|constructor].
  rewrite Forall_forall in H.
  apply (H (Validator.P, 2,
            [205115282021455665897114700593932402728804164701536103180137503955397371])).
  unfold Primes.secp256k1_chain. simpl. auto 10.
Qed.

(** ** Modular arithmetic *)

(** [mod] is the remainder in [0, m); it is [Z.modulo] for a positive
    modulus. *)
Lemma mod_modulo (a m : Z) : 0 < m -> Validator.mod_ a m = a mod m.
Proof.
  intros Hm. unfold Validator.mod_. cbv zeta.
  pose proof (Z.quot_rem' a m) as E.
  pose proof (Z.rem_bound_abs a m ltac:(lia)) as Hb.
  destruct (Z.leb_spec 0 (Z.rem a m)) as [Hr|Hr].
  - apply Z.mod_unique with (Z.quot a m); lia.
  - apply Z.mod_unique with (Z.quot a m - 1); lia.
Qed.

Lemma mod_range (a m : Z) : 0 < m -> 0 <= Validator.mod_ a m < m.
Proof. intros Hm. rewrite mod_modulo by assumption. apply Z.mod_pos_bound. exact Hm. Qed.

(** The loop of [modInverse] leaves within its bound, whatever [a] and [m]:
    the absolute value of [r] decreases. *)
Lemma modInverse_loop_exec (a m : Z) :
  while_exec Validator.inv_cond Validator.inv_body (a, m, 1, 0)
    (while_loop Validator.inv_cond Validator.inv_body (Z.to_pos (Z.abs m + 1))
       (a, m, 1, 0)).
Proof.
  apply while_loop_exec with
    (measure := fun st : Validator.inv_state => Z.to_nat (Z.abs (snd (fst (fst st))))).
  - intros [[[old_r r] old_s] s]. unfold Validator.inv_cond, Validator.inv_body. simpl.
    intros Hr. apply negb_true_iff, Z.eqb_neq in Hr.
    pose proof (Z.quot_rem' old_r r) as E.
    pose proof (Z.rem_bound_abs old_r r Hr) as Hb.
    replace (old_r - Z.quot old_r r * r) with (Z.rem old_r r) by lia. lia.
  - simpl. lia.
Qed.

(** The invariant of the extended Euclidean loop, for [0 <= a]. *)
Lemma modInverse_invariant (a m : Z) (st : Validator.inv_state) :
  0 <= a -> 0 < m ->
  while_exec Validator.inv_cond Validator.inv_body (a, m, 1, 0) st ->
  let '(old_r, r, old_s, s) := st in
  r = 0 /\ old_r = Z.gcd a m /\ (m | old_s * a - old_r).
Proof.
  intros Ha Hm Hex.
  pose (Inv := fun st : Validator.inv_state =>
    let '(old_r, r, old_s, s) := st in
    0 <= old_r /\ 0 <= r /\ (m | old_s * a - old_r) /\ (m | s * a - r) /\
    Z.gcd old_r r = Z.gcd a m).
  destruct (while_exec_invariant _ _ Inv _ _ Hex) as [Hi Hc].
  - intros [[[old_r r] old_s] s] (H1 & H2 & H3 & H4 & H5) Hr.
    unfold Validator.inv_cond in Hr. apply negb_true_iff, Z.eqb_neq in Hr.
    unfold Validator.inv_body, Inv.
    pose proof (Z.quot_rem' old_r r) as E.
    pose proof (Z.rem_bound_pos old_r r H1 ltac:(lia)) as Hb.
    replace (old_r - Z.quot old_r r * r) with (Z.rem old_r r) by lia.
    repeat split; try lia; try assumption.
    + replace ((old_s - Z.quot old_r r * s) * a - Z.rem old_r r)
        with ((old_s * a - old_r) - Z.quot old_r r * (s * a - r)) by lia.
      apply Z.divide_sub_r; [assumption|]. now apply Z.divide_mul_r.
    + rewrite <- H5.
      replace (Z.rem old_r r) with (old_r + (- Z.quot old_r r) * r) by lia.
      rewrite Z.gcd_add_mult_diag_r. apply Z.gcd_comm.
  - unfold Inv. repeat split; try lia.
    + exists 0. lia.
    + exists (-1). lia.
  - destruct st as [[[old_r r] old_s] s]. destruct Hi as (H1 & H2 & H3 & H4 & H5).
    unfold Validator.inv_cond in Hc. apply negb_false_iff, Z.eqb_eq in Hc. subst r.
    rewrite Z.gcd_0_r, Z.abs_eq in H5 by assumption. now repeat split.
Qed.

(** What the loop leaves in [old_s] is an inverse of [a] modulo [m] when the
    two are coprime. *)
Lemma modInverse_divides (a m : Z) :
  0 <= a -> 1 < m -> Z.gcd a m = 1 -> (m | a * Validator.modInverse a m - 1).
Proof.
  intros Ha Hm Hg.
  pose proof (modInverse_loop_exec a m) as Hex.
  pose proof (modInverse_invariant a m _ Ha ltac:(lia) Hex) as Hi.
  unfold Validator.modInverse.
  destruct (while_loop _ _ _ _) as [[[old_r r] old_s] s].
  destruct Hi as (_ & Hr & [q Hq]). rewrite Hg in Hr. subst old_r.
  rewrite mod_modulo by lia.
  pose proof (Z.div_mod old_s m ltac:(lia)) as E.
  exists (q - a * (old_s / m)). nia.
Qed.

(** X1: for [0 <= a] coprime to a modulus [m > 1], [modInverse a m] is the
    inverse of [a] modulo [m], reduced to [0 <= . < m]. *)
Theorem modInverse_correct (a m : Z) :
  0 <= a -> 1 < m -> Z.gcd a m = 1 ->
  0 <= Validator.modInverse a m < m /\ (a * Validator.modInverse a m) mod m = 1.
Proof.
  intros Ha Hm Hg. split.
  - unfold Validator.modInverse.
    destruct (while_loop _ _ _ _) as [[[old_r r] old_s] s]. apply mod_range. lia.
  - destruct (modInverse_divides a m Ha Hm Hg) as [q Hq].
    replace (a * Validator.modInverse a m) with (1 + q * m) by lia.
    rewrite Z.mod_add by lia. apply Z.mod_small. lia.
Qed.

Lemma modInverse_correct_witness :
  0 <= Validator.modInverse 3 7 < 7 /\ (3 * Validator.modInverse 3 7) mod 7 = 1.
Proof. apply modInverse_correct; [lia|lia|reflexivity]. Defined.

(** ** The curve *)

(** The algebra of the chord and of the tangent, in the ring of integers
    modulo [p]. *)
Section CurveAlgebra.
Variable p : Z.
Add Ring zmod_ring : (Zmod.ring_theory p).
Local Notation "a + b" := (Zmod.add a b).
Local Notation "a * b" := (Zmod.mul a b).
Local Notation "a - b" := (Zmod.sub a b).

Lemma chord_on_curve (X1 Y1 X2 Y2 I c : Zmod p) :
  Y1 * Y1 = X1 * X1 * X1 + c ->
  Y2 * Y2 = X2 * X2 * X2 + c ->
  (X2 - X1) * I = Zmod.one ->
  let S := (Y2 - Y1) * I in
  let X3 := S * S - X1 - X2 in
  let Y3 := S * (X1 - X3) - Y1 in
  Y3 * Y3 = X3 * X3 * X3 + c.
Proof.
  intros H1 H2 H3 S X3 Y3.
  assert (HS : S * (X2 - X1) = Y2 - Y1).
  { unfold S. transitivity ((Y2 - Y1) * ((X2 - X1) * I)); [ring|]. rewrite H3. ring. }
  assert (HG : (X2 - X1) * (X3 * X3 * X3 + c - Y3 * Y3) = Zmod.zero).
  { transitivity (((X2 * X2 * X2 + c - (S * (X2 - X1) + Y1) * (S * (X2 - X1) + Y1))
                   - (X1 * X1 * X1 + c - Y1 * Y1)) * (X3 - X1)
                  + (X2 - X1) * (X1 * X1 * X1 + c - Y1 * Y1)).
    - unfold Y3, X3. ring.
    - rewrite HS. replace (Y2 - Y1 + Y1) with Y2 by ring. rewrite <- H1, <- H2. ring. }
  transitivity (X3 * X3 * X3 + c - (I * ((X2 - X1) * (X3 * X3 * X3 + c - Y3 * Y3)))).
  - transitivity (X3 * X3 * X3 + c - ((X2 - X1) * I) * (X3 * X3 * X3 + c - Y3 * Y3)); [|ring].
    rewrite H3. ring.
  - rewrite HG. ring.
Qed.

Lemma tangent_on_curve (X1 Y1 I c : Zmod p) :
  let two := Zmod.one + Zmod.one in
  let three := two + Zmod.one in
  Y1 * Y1 = X1 * X1 * X1 + c ->
  (two * Y1) * I = Zmod.one ->
  let S := three * X1 * X1 * I in
  let X3 := S * S - two * X1 in
  let Y3 := S * (X1 - X3) - Y1 in
  Y3 * Y3 = X3 * X3 * X3 + c.
Proof.
  intros two three H1 H3 S X3 Y3.
  assert (HS : S * (two * Y1) = three * X1 * X1).
  { unfold S. transitivity (three * X1 * X1 * ((two * Y1) * I)); [ring|]. rewrite H3. ring. }
  transitivity (X3 * X3 * X3 + c
      - ((three * X1 * X1 - S * (two * Y1)) * (X3 - X1) + (X1 * X1 * X1 + c - Y1 * Y1))).
  - unfold Y3, X3, three, two. ring.
  - rewrite HS, <- H1. ring.
Qed.

End CurveAlgebra.

Lemma P_gt_1 : 1 < Validator.P.
Proof. reflexivity. Qed.

Lemma coprime_P (a : Z) : a mod Validator.P <> 0 -> Z.gcd a Validator.P = 1.
Proof.
  intros Ha. rewrite Z.gcd_comm. apply Z.coprime_prime_l; [apply P_prime|].
  intros Hd. apply Ha. apply Z.mod_divide in Hd; [assumption|]. pose proof P_gt_1. lia.
Qed.

Lemma on_curve_Zmod (x y : Z) :
  Shape.on_curve (x, y) <->
  Zmod.mul (Zmod.of_Z Validator.P y) (Zmod.of_Z Validator.P y) =
  Zmod.add (Zmod.mul (Zmod.mul (Zmod.of_Z Validator.P x) (Zmod.of_Z Validator.P x))
              (Zmod.of_Z Validator.P x)) (Zmod.of_Z Validator.P 7).
Proof.
  unfold Shape.on_curve. cbn [fst snd].
  rewrite <- !Zmod.of_Z_mul, <- Zmod.of_Z_add. symmetry. apply Zmod.of_Z_inj.
Qed.

Lemma of_Z_mod_ (a : Z) :
  Zmod.of_Z Validator.P (Validator.mod_ a Validator.P) = Zmod.of_Z Validator.P a.
Proof. pose proof P_gt_1. rewrite mod_modulo by lia. apply Zmod.of_Z_mod. Qed.

Lemma inverse_Zmod (a : Z) :
  0 <= a -> a mod Validator.P <> 0 ->
  Zmod.mul (Zmod.of_Z Validator.P a) (Zmod.of_Z Validator.P (Validator.modInverse a Validator.P))
  = Zmod.one.
Proof.
  intros Ha Hn. pose proof P_gt_1 as HP.
  destruct (modInverse_divides a Validator.P Ha P_gt_1 (coprime_P a Hn)) as [q Hq].
  rewrite <- Zmod.of_Z_mul, <- Zmod.of_Z_1. apply Zmod.of_Z_inj.
  replace (a * Validator.modInverse a Validator.P) with (1 + q * Validator.P) by lia.
  apply Z.mod_add. lia.
Qed.

Ltac push_of_Z :=
  repeat first [rewrite of_Z_mod_ | rewrite Zmod.of_Z_sub | rewrite Zmod.of_Z_mul
               | rewrite Zmod.of_Z_add].

(** The branch of [pointAdd] for two points of different abscissa. *)
Lemma pointAdd_chord (x1 y1 x2 y2 : Z) :
  Shape.field_point (x1, y1) -> Shape.field_point (x2, y2) ->
  Shape.on_curve (x1, y1) -> Shape.on_curve (x2, y2) ->
  x1 <> x2 ->
  let s := Validator.mod_ ((y2 - y1) *
             Validator.modInverse (Validator.mod_ (x2 - x1) Validator.P) Validator.P)
             Validator.P in
  let x := Validator.mod_ (s * s - x1 - x2) Validator.P in
  let y := Validator.mod_ (s * (x1 - x) - y1) Validator.P in
  Shape.on_curve (x, y).
Proof.
  intros [Hx1 Hy1] [Hx2 Hy2] H1 H2 Hne s x y. cbn [fst snd] in *.
  pose proof P_gt_1 as HP.
  apply on_curve_Zmod in H1, H2. apply on_curve_Zmod.
  assert (Hd : Validator.mod_ (x2 - x1) Validator.P mod Validator.P <> 0).
  { rewrite mod_modulo, Z.mod_mod by lia. intros E.
    apply Z.mod_divide in E; [|lia]. destruct E as [q Hq].
    assert (q = 0) by nia. lia. }
  pose proof (inverse_Zmod _ (proj1 (mod_range (x2 - x1) Validator.P ltac:(lia))) Hd) as Hi.
  rewrite of_Z_mod_, Zmod.of_Z_sub in Hi.
  unfold y, x, s. push_of_Z.
  exact (chord_on_curve Validator.P _ _ _ _ _ _ H1 H2 Hi).
Qed.

(** Two field points of the curve with the same abscissa are equal or
    opposite. *)
Lemma same_ordinate (x y1 y2 : Z) :
  0 <= y1 < Validator.P -> 0 <= y2 < Validator.P ->
  Shape.on_curve (x, y1) -> Shape.on_curve (x, y2) ->
  (y1 + y2) mod Validator.P <> 0 -> y1 = y2.
Proof.
  intros Hy1 Hy2 H1 H2 Hs. unfold Shape.on_curve in *. cbn [fst snd] in *.
  pose proof P_gt_1 as HP.
  assert (Hd : (Validator.P | (y1 - y2) * (y1 + y2))).
  { apply Z.mod_divide; [lia|].
    replace ((y1 - y2) * (y1 + y2)) with (y1 * y1 - y2 * y2) by ring.
    rewrite Zminus_mod, H1, H2, Z.sub_diag. apply Z.mod_0_l. lia. }
  apply Z.divide_prime_mul in Hd; [|apply P_prime].
  destruct Hd as [[q Hq]|Hd].
  - assert (q = 0) by nia. lia.
  - apply Z.mod_divide in Hd; [contradiction|lia].
Qed.

(** The branch of [pointAdd] that doubles a point. *)
Lemma pointAdd_tangent (x1 y1 : Z) :
  Shape.field_point (x1, y1) -> Shape.on_curve (x1, y1) ->
  (y1 + y1) mod Validator.P <> 0 ->
  let s := Validator.mod_ (3 * x1 * x1 * Validator.modInverse (2 * y1) Validator.P)
             Validator.P in
  let x := Validator.mod_ (s * s - 2 * x1) Validator.P in
  let y := Validator.mod_ (s * (x1 - x) - y1) Validator.P in
  Shape.on_curve (x, y).
Proof.
  intros [Hx1 Hy1] H1 Hne s x y. cbn [fst snd] in *.
  pose proof P_gt_1 as HP.
  apply on_curve_Zmod in H1. apply on_curve_Zmod.
  replace (y1 + y1) with (2 * y1) in Hne by ring.
  pose proof (inverse_Zmod (2 * y1) ltac:(lia) Hne) as Hi.
  unfold y, x, s.
  change 3 with (1 + 1 + 1). change 2 with (1 + 1) in Hi |- *.
  push_of_Z. rewrite Zmod.of_Z_mul, Zmod.of_Z_add in Hi. rewrite !Zmod.of_Z_1 in *.
  exact (tangent_on_curve Validator.P _ _ _ _ H1 Hi).
Qed.

Lemma pointAdd_curve_point (p1 p2 : Validator.Point) :
  Shape.curve_point p1 -> Shape.curve_point p2 ->
  Shape.curve_point (Validator.pointAdd p1 p2).
Proof.
  destruct p1 as [[x1 y1]|], p2 as [[x2 y2]|]; cbn [Validator.pointAdd]; try tauto.
  intros [F1 C1] [F2 C2]. pose proof P_gt_1 as HP.
  destruct (Z.eqb_spec x1 x2) as [<-|Hx].
  - destruct (Z.eqb_spec (Validator.mod_ (y1 + y2) Validator.P) 0) as [|Hs]; [exact I|].
    rewrite mod_modulo in Hs by lia.
    assert (y1 = y2) as <-
      by (apply (same_ordinate x1); solve [apply F1 | apply F2 | assumption]).
    split; [split; apply mod_range; lia|].
    now apply pointAdd_tangent.
  - split; [split; apply mod_range; lia|].
    now apply pointAdd_chord.
Qed.

Lemma G_curve_point : Shape.curve_point (Some Shape.G).
Proof. split; [split; split; reflexivity || discriminate|]. vm_compute. reflexivity. Qed.

(** X2: the sum of two finite points of the curve whose coordinates are
    field elements is the point at infinity exactly when the two are
    opposite, and otherwise a finite point of the curve with coordinates in
    the field. *)
Theorem pointAdd_on_curve (p1 p2 : Z * Z) :
  Shape.field_point p1 -> Shape.on_curve p1 ->
  Shape.field_point p2 -> Shape.on_curve p2 ->
  match Validator.pointAdd (Some p1) (Some p2) with
  | None => fst p1 = fst p2 /\ (snd p1 + snd p2) mod Validator.P = 0
  | Some q =>
    Shape.field_point q /\ Shape.on_curve q /\
    ~ (fst p1 = fst p2 /\ (snd p1 + snd p2) mod Validator.P = 0)
  end.
Proof.
  intros F1 C1 F2 C2.
  pose proof (pointAdd_curve_point (Some p1) (Some p2) (conj F1 C1) (conj F2 C2)) as Hc.
  destruct p1 as [x1 y1], p2 as [x2 y2]. cbn [fst snd].
  pose proof P_gt_1 as HP.
  unfold Validator.pointAdd in *.
  destruct (Z.eqb_spec x1 x2) as [Hx|Hx].
  - rewrite mod_modulo in * by lia.
    destruct (Z.eqb_spec ((y1 + y2) mod Validator.P) 0) as [Hs|Hs].
    + now split.
    + destruct Hc as [Hf Ho]. split; [exact Hf|]. split; [exact Ho|]. tauto.
  - destruct Hc as [Hf Ho]. split; [exact Hf|]. split; [exact Ho|]. tauto.
Qed.

Lemma pointAdd_on_curve_witness :
  Shape.field_point Shape.G /\ Shape.on_curve Shape.G /\
  match Validator.pointAdd (Some Shape.G) (Some Shape.G) with
  | None => False
  | Some q => Shape.field_point q /\ Shape.on_curve q
  end.
Proof.
  destruct G_curve_point as [HF HC]. split; [exact HF|]. split; [exact HC|].
  pose proof (pointAdd_on_curve Shape.G Shape.G HF HC HF HC) as H.
  destruct (Validator.pointAdd (Some Shape.G) (Some Shape.G)) as [q|].
  - split; apply H.
  - destruct H as [_ H]. vm_compute in H. discriminate H.
Defined.

(** The loop of [pointMultiply] halves [k] and leaves within its bound. *)
Lemma pointMultiply_loop_exec (k : Z) (p : Validator.Point) :
  while_exec Validator.mul_cond Validator.mul_body (k, None, p)
    (while_loop Validator.mul_cond Validator.mul_body (Z.to_pos k) (k, None, p)).
Proof.
  apply while_loop_exec with
    (measure := fun st : Validator.mul_state => Z.to_nat (fst (fst st))).
  - intros [[k' result] addend]. unfold Validator.mul_cond, Validator.mul_body.
    cbn [fst]. intros Hk. apply Z.ltb_lt in Hk.
    rewrite Z.shiftr_div_pow2 by lia. change (2 ^ 1) with 2.
    assert (k' / 2 < k') by (apply Z.div_lt; lia).
    assert (0 <= k' / 2) by (apply Z.div_pos; lia). lia.
  - cbn [fst]. destruct k; simpl; lia.
Qed.

Lemma pointMultiply_curve_point (k : Z) (p : Validator.Point) :
  Shape.curve_point p -> Shape.curve_point (Validator.pointMultiply k p).
Proof.
  intros Hp. pose proof (pointMultiply_loop_exec k p) as Hex.
  unfold Validator.pointMultiply.
  destruct (while_loop _ _ _ _) as [[k' result] addend].
  apply (while_exec_invariant _ _
           (fun st : Validator.mul_state =>
              Shape.curve_point (snd (fst st)) /\ Shape.curve_point (snd st))) in Hex.
  - apply Hex.
  - intros [[k0 r0] a0] [Hr Ha] _. unfold Validator.mul_body. cbn [fst snd].
    split; [|now apply pointAdd_curve_point].
    destruct (negb _); [now apply pointAdd_curve_point|assumption].
  - split; [exact I|exact Hp].
Qed.

Lemma pointMultiply_nonpositive (k : Z) (p : Validator.Point) :
  k <= 0 -> Validator.pointMultiply k p = None.
Proof.
  intros Hk. unfold Validator.pointMultiply.
  replace (Z.to_pos k) with 1%positive by (destruct k; [reflexivity|lia|reflexivity]).
  cbn [while_loop]. unfold Validator.mul_cond.
  replace (0 <? k) with false by (symmetry; apply Z.ltb_ge; exact Hk). reflexivity.
Qed.

(** X3: for every scalar [k], the double-and-add loop of [pointMultiply]
    ends, and what it returns for a point of the curve (so for the generator
    [G]) is the point at infinity or a finite point of the curve; for
    [k <= 0] it is the point at infinity. *)
Theorem pointMultiply_on_curve (k : Z) (p : Validator.Point) :
  Shape.curve_point p ->
  (exists k' addend,
     while_exec Validator.mul_cond Validator.mul_body (k, None, p)
       (k', Validator.pointMultiply k p, addend)) /\
  Shape.curve_point (Validator.pointMultiply k p) /\
  Shape.curve_point (Validator.pointMultiply k (Some Shape.G)) /\
  (k <= 0 -> Validator.pointMultiply k p = None).
Proof.
  intros Hp. split; [|split; [|split]].
  - pose proof (pointMultiply_loop_exec k p) as Hex.
    unfold Validator.pointMultiply.
    destruct (while_loop _ _ _ _) as [[k' result] addend]. now exists k', addend.
  - now apply pointMultiply_curve_point.
  - apply pointMultiply_curve_point, G_curve_point.
  - apply pointMultiply_nonpositive.
Qed.

Lemma pointMultiply_on_curve_witness :
  Shape.curve_point (Some Shape.G) /\
  Shape.curve_point (Validator.pointMultiply 5 (Some Shape.G)).
Proof.
  split; [exact G_curve_point|].
  exact (proj1 (proj2 (pointMultiply_on_curve 5 (Some Shape.G) G_curve_point))).
Defined.

(** ** Bytes and hexadecimal text *)

Lemma hex_digit_units (c : char) :
  is_hex_digit c = true <-> In c (lit "0123456789abcdefABCDEF").
Proof.
  rewrite <- (class_is_list [Regex.rng "0" "9"; Regex.rng "a" "f"; Regex.rng "A" "F"]
                (lit "0123456789abcdefABCDEF")) by (vm_compute; reflexivity).
  symmetry. apply hex_class_digit.
Qed.

(** A byte is written with its two hexadecimal digits. *)
Lemma byte_toString16 (x : Z) :
  Shape.is_byte x ->
  padStart0 2 (toString16 x) = [hex_char (x / 16); hex_char (x mod 16)].
Proof.
  intros Hx. unfold Shape.is_byte in Hx.
  assert (H : forallb (fun n =>
              eqb_string (padStart0 2 (toString16 (Z.of_nat n)))
                [hex_char (Z.of_nat n / 16); hex_char (Z.of_nat n mod 16)])
              (seq 0 256) = true) by (vm_compute; reflexivity).
  rewrite forallb_forall in H. specialize (H (Z.to_nat x)).
  rewrite Z2Nat.id in H by lia. apply eqb_string_true, H, in_seq. lia.
Qed.

Lemma bytesToHex_nibbles (b : list Z) :
  Forall Shape.is_byte b ->
  Validator.bytesToHex (Shape.byte_array b) = map hex_char (nibbles b).
Proof.
  induction 1 as [|x b Hx _ IH]; [reflexivity|].
  unfold Validator.bytesToHex in *. cbn [Shape.byte_array map concat].
  unfold Shape.byte_array in IH. rewrite IH.
  cbn [number_toString16]. rewrite (byte_toString16 x Hx). reflexivity.
Qed.

(** Two hexadecimal digits are read as one byte, and written back in lower
    case. *)
Lemma parseInt16_pair (a c : char) :
  is_hex_digit a = true -> is_hex_digit c = true ->
  parseInt16 [a; c] = Num (16 * hex_value a + hex_value c) /\
  0 <= 16 * hex_value a + hex_value c < 256 /\
  padStart0 2 (toString16 (16 * hex_value a + hex_value c)) = [lower_char a; lower_char c].
Proof.
  intros Ha Hc. apply hex_digit_units in Ha, Hc.
  assert (H : forallb (fun a => forallb (fun c =>
              let v := 16 * hex_value a + hex_value c in
              number_eqb (parseInt16 [a; c]) (Num v) && (0 <=? v) && (v <? 256)
              && eqb_string (padStart0 2 (toString16 v)) [lower_char a; lower_char c])
              (lit "0123456789abcdefABCDEF")) (lit "0123456789abcdefABCDEF") = true)
    by (vm_compute; reflexivity).
  rewrite forallb_forall in H. specialize (H a Ha).
  rewrite forallb_forall in H. specialize (H c Hc). cbv zeta in H.
  rewrite !andb_true_iff, Z.leb_le, Z.ltb_lt, eqb_string_true in H.
  destruct H as [[[H1 H2] H3] H4]. split; [|split; [lia|exact H4]].
  destruct (parseInt16 [a; c]) as [z|]; [|discriminate H1].
  f_equal. now apply Z.eqb_eq.
Qed.

(** One hexadecimal digit alone is read as its value, and written back with
    a zero before it. *)
Lemma parseInt16_single (c : char) :
  is_hex_digit c = true ->
  parseInt16 [c] = Num (hex_value c) /\ 0 <= hex_value c < 16 /\
  padStart0 2 (toString16 (hex_value c)) = [48; lower_char c].
Proof.
  intros Hc. apply hex_digit_units in Hc.
  assert (H : forallb (fun c =>
              let v := hex_value c in
              number_eqb (parseInt16 [c]) (Num v) && (0 <=? v) && (v <? 16)
              && eqb_string (padStart0 2 (toString16 v)) [48; lower_char c])
              (lit "0123456789abcdefABCDEF") = true)
    by (vm_compute; reflexivity).
  rewrite forallb_forall in H. specialize (H c Hc). cbv zeta in H.
  rewrite !andb_true_iff, Z.leb_le, Z.ltb_lt, eqb_string_true in H.
  destruct H as [[[H1 H2] H3] H4]. split; [|split; [lia|exact H4]].
  destruct (parseInt16 [c]) as [z|]; [|discriminate H1].
  f_equal. now apply Z.eqb_eq.
Qed.

(** Induction over a list two elements at a time. *)
Lemma pair_induction {A} (Q : list A -> Prop) :
  Q [] -> (forall a, Q [a]) -> (forall a c l, Q l -> Q (a :: c :: l)) ->
  forall l, Q l.
Proof.
  intros H0 H1 H2 l.
  assert (H : Q l /\ forall a, Q (a :: l)); [|apply H].
  induction l as [|c l [IH1 IH2]]; [now split|].
  split; [apply IH2|]. intros a. now apply H2.
Qed.

Lemma hexToBytes_single (c : char) : Validator.hexToBytes [c] = [parseInt16 [c]].
Proof. reflexivity. Qed.

(** The bytes [hexToBytes] reads from hexadecimal digits are bytes, and they
    are written back as the digits in lower case, with a zero before the last
    one when their number is odd. *)
Lemma hexToBytes_digits (h : jsstring) :
  Forall Shape.hex_digit h ->
  exists b, Validator.hexToBytes h = Shape.byte_array b /\ Forall Shape.is_byte b /\
    length b = ((length h + 1) / 2)%nat /\
    Validator.bytesToHex (Shape.byte_array b) =
      (if Nat.even (length h) then toLowerCase h
       else toLowerCase (removelast h) ++ 48 :: toLowerCase [last h 0]).
Proof.
  induction h as [|c|a c h IH] using pair_induction; intros Hh.
  - exists []. repeat split. constructor.
  - apply Forall_inv in Hh. destruct (parseInt16_single c Hh) as (E & Hr & Hw).
    exists [hex_value c]. rewrite hexToBytes_single, E. repeat split.
    + constructor; [unfold Shape.is_byte; lia|constructor].
    + unfold Validator.bytesToHex. cbn [Shape.byte_array map concat number_toString16].
      rewrite Hw. reflexivity.
  - pose proof (Forall_inv Hh) as Ha. pose proof (Forall_inv (Forall_inv_tail Hh)) as Hc.
    destruct (IH (Forall_inv_tail (Forall_inv_tail Hh))) as (b & Eb & Hb & Lb & Wb).
    destruct (parseInt16_pair a c Ha Hc) as (E & Hr & Hw).
    exists ((16 * hex_value a + hex_value c) :: b).
    rewrite hexToBytes_pair, E, Eb. repeat split.
    + constructor; assumption.
    + cbn [length]. rewrite Lb.
      replace (Datatypes.S (Datatypes.S (length h)) + 1)%nat with (length h + 1 + 1 * 2)%nat by lia.
      rewrite Nat.div_add by lia. lia.
    + unfold Validator.bytesToHex in *.
      cbn [Shape.byte_array map concat number_toString16].
      unfold Shape.byte_array in Wb. rewrite Wb, Hw.
      change (Nat.even (length (a :: c :: h))) with (Nat.even (length h)).
      destruct (Nat.even (length h)) eqn:Ev; [reflexivity|].
      destruct h as [|d h]; [discriminate Ev|].
      change (removelast (a :: c :: d :: h)) with (a :: c :: removelast (d :: h)).
      change (last (a :: c :: d :: h) 0) with (last (d :: h) 0). reflexivity.
Qed.

(** The number of digits of a value below [base ^ k]. *)
Lemma digits_length_le (base : Z) (Hb : 1 < base) (k : nat) :
  forall v, v < base ^ Z.of_nat k -> (length (digits base v) <= k)%nat.
Proof.
  induction k as [|k IH]; intros v Hv.
  - rewrite digits_nonpos by (simpl in Hv; lia). simpl. lia.
  - destruct (Z.le_gt_cases v 0) as [Hn|Hp];
      [rewrite digits_nonpos by assumption; simpl; lia|].
    rewrite digits_step by assumption. rewrite length_app. simpl.
    assert (v / base < base ^ Z.of_nat k).
    { apply Z.div_lt_upper_bound; [lia|].
      rewrite Nat2Z.inj_succ, Z.pow_succ_r in Hv by lia. exact Hv. }
    specialize (IH _ H). lia.
Qed.

Lemma digits_length_gt (base : Z) (Hb : 1 < base) (k : nat) :
  forall v, base ^ Z.of_nat k <= v -> (k < length (digits base v))%nat.
Proof.
  induction k as [|k IH]; intros v Hv.
  - simpl in Hv. rewrite digits_step by lia. rewrite length_app. simpl. lia.
  - assert (0 < base ^ Z.of_nat (Datatypes.S k)) by (apply Z.pow_pos_nonneg; lia).
    rewrite digits_step by lia. rewrite length_app. simpl.
    assert (base ^ Z.of_nat k <= v / base).
    { apply Z.div_le_lower_bound; [lia|].
      rewrite Nat2Z.inj_succ, Z.pow_succ_r in Hv by lia. exact Hv. }
    specialize (IH _ H0). lia.
Qed.

Lemma hex_char_digit (d : Z) :
  0 <= d < 16 ->
  is_hex_digit (hex_char d) = true /\ hex_value (hex_char d) = d /\
  lower_char (hex_char d) = hex_char d.
Proof.
  intros Hd.
  assert (H : forallb (fun n => let d := Z.of_nat n in
              is_hex_digit (hex_char d) && (hex_value (hex_char d) =? d)
              && (lower_char (hex_char d) =? hex_char d)) (seq 0 16) = true)
    by (vm_compute; reflexivity).
  rewrite forallb_forall in H. specialize (H (Z.to_nat d)). cbv zeta in H.
  rewrite Z2Nat.id in H by lia. rewrite !andb_true_iff, !Z.eqb_eq in H.
  destruct H as [[H1 H2] H3]; [apply in_seq; lia|]. now repeat split.
Qed.

(** The text [toString(16)] writes for [n >= 0]: lower-case hexadecimal
    digits whose value is [n]. *)
Lemma toString16_digits (n : Z) :
  0 <= n ->
  Forall Shape.hex_digit (toString16 n) /\ Shape.scalar (toString16 n) = n /\
  toLowerCase (toString16 n) = toString16 n /\ toString16 n <> [] /\
  forall k, n < 16 ^ Z.of_nat (Datatypes.S k) ->
            (length (toString16 n) <= Datatypes.S k)%nat.
Proof.
  intros Hn. destruct (Z.eq_dec n 0) as [->|Hz].
  - split; [repeat constructor|]. split; [reflexivity|]. split; [reflexivity|].
    split; [discriminate|]. intros k0 _. simpl. lia.
  - rewrite toString16_pos by lia.
    destruct (digits_spec 16 ltac:(lia) n Hn) as (Hv & Hr & Hd).
    assert (Hall : Forall (fun d => is_hex_digit (hex_char d) = true /\
                                  hex_value (hex_char d) = d /\
                                  lower_char (hex_char d) = hex_char d) (digits 16 n))
      by (eapply Forall_impl; [|exact Hr]; intros d; apply hex_char_digit).
    repeat split.
    + apply Forall_map. eapply Forall_impl; [|exact Hall]. now intros d [H1 _].
    + unfold Shape.scalar. rewrite map_map. rewrite <- Hv at 2. f_equal.
      rewrite <- (map_id (digits 16 n)) at 2. apply map_ext_Forall.
      eapply Forall_impl; [|exact Hall]. now intros d (_ & H2 & _).
    + unfold toLowerCase. rewrite map_map. apply map_ext_Forall.
      eapply Forall_impl; [|exact Hall]. now intros d (_ & _ & H3).
    + destruct (Hd ltac:(lia)) as (d & l & E & _). rewrite E. discriminate.
    + intros k0 Hk. rewrite length_map. now apply digits_length_le.
Qed.

Lemma scalar_app (s t : jsstring) :
  Shape.scalar (s ++ t) = Shape.scalar s * 16 ^ Z.of_nat (length t) + Shape.scalar t.
Proof.
  unfold Shape.scalar, value_of. rewrite map_app, fold_left_app.
  generalize (fold_left (fun v d => v * 16 + d) (map hex_value s) 0) as a.
  induction t as [|c t IH]; intros a.
  - simpl. lia.
  - cbn [map fold_left length]. rewrite IH, (IH (0 * 16 + hex_value c)).
    rewrite Nat2Z.inj_succ, Z.pow_succ_r by lia. lia.
Qed.

Lemma scalar_zeros (k : nat) : Shape.scalar (repeat 48 k) = 0.
Proof.
  induction k as [|k IH]; [reflexivity|].
  change (repeat 48 (Datatypes.S k)) with ([48] ++ repeat 48 k).
  rewrite scalar_app, IH. reflexivity.
Qed.

Lemma bigintToHex32_digits (n : Z) :
  0 <= n ->
  Forall Shape.hex_digit (Validator.bigintToHex32 n) /\
  Shape.scalar (Validator.bigintToHex32 n) = n /\
  toLowerCase (Validator.bigintToHex32 n) = Validator.bigintToHex32 n /\
  (n < 2 ^ 256 -> length (Validator.bigintToHex32 n) = 64%nat) /\
  (2 ^ 256 <= n -> (64 < length (Validator.bigintToHex32 n))%nat).
Proof.
  intros Hn. destruct (toString16_digits n Hn) as (Hd & Hv & Hl & _ & Hk).
  unfold Validator.bigintToHex32, padStart0. split; [|split; [|split; [|split]]].
  - apply Forall_app. split; [|exact Hd].
    apply Forall_forall. intros c Hc. apply repeat_spec in Hc. now subst.
  - rewrite scalar_app, scalar_zeros, Hv. lia.
  - unfold toLowerCase in *. rewrite map_app. unfold jsstring, char in *.
    rewrite Hl. f_equal. rewrite map_repeat. reflexivity.
  - intros Hlt. specialize (Hk 63%nat Hlt).
    rewrite length_app, repeat_length. unfold jsstring, char in *. lia.
  - intros Hge. rewrite length_app, repeat_length.
    assert (Hp : 0 < n) by (assert (0 < 2 ^ 256) by reflexivity; lia).
    rewrite toString16_pos by exact Hp. unfold jsstring, char in *.
    rewrite !length_map.
    pose proof (digits_length_gt 16 ltac:(lia) 64 n Hge). lia.
Qed.

(** X4: writing bytes in hexadecimal and reading them back gives the bytes:
    [hexToBytes (bytesToHex b) = b] for every array of bytes. *)
Theorem hexToBytes_bytesToHex (b : list Z) :
  Forall Shape.is_byte b ->
  Validator.hexToBytes (Validator.bytesToHex (Shape.byte_array b)) = Shape.byte_array b.
Proof.
  intros Hb. rewrite bytesToHex_nibbles by exact Hb. now apply hexToBytes_nibbles.
Qed.

Lemma hexToBytes_bytesToHex_witness :
  Forall Shape.is_byte [0; 7; 128; 255] /\
  Validator.hexToBytes (Validator.bytesToHex (Shape.byte_array [0; 7; 128; 255]))
  = Shape.byte_array [0; 7; 128; 255].
Proof.
  assert (Hb : Forall Shape.is_byte [0; 7; 128; 255])
    by (repeat constructor; unfold Shape.is_byte; lia).
  split; [exact Hb|]. exact (hexToBytes_bytesToHex _ Hb).
Defined.

(** X5: reading hexadecimal digits as bytes and writing them back gives the
    digits in lower case when their number is even; when it is odd the last
    digit is read as a byte of its own and comes back with a zero before
    it. *)
Theorem bytesToHex_hexToBytes (h : jsstring) :
  Forall Shape.hex_digit h ->
  Validator.bytesToHex (Validator.hexToBytes h) =
    (if Nat.even (length h) then toLowerCase h
     else toLowerCase (removelast h) ++ 48 :: toLowerCase [last h 0]) /\
  length (Validator.hexToBytes h) = ((length h + 1) / 2)%nat.
Proof.
  intros Hh. destruct (hexToBytes_digits h Hh) as (b & Eb & _ & Lb & Wb).
  rewrite Eb. split; [exact Wb|]. unfold Shape.byte_array. now rewrite length_map.
Qed.

Lemma bytesToHex_hexToBytes_witness :
  Forall Shape.hex_digit (lit "0aF3c") /\
  Validator.bytesToHex (Validator.hexToBytes (lit "0aF3c")) = lit "0af30c".
Proof.
  assert (Hh : Forall Shape.hex_digit (lit "0aF3c")) by (repeat constructor).
  split; [exact Hh|]. exact (proj1 (bytesToHex_hexToBytes _ Hh)).
Defined.

(** X6: [bigintToHex32] pads and never cuts: for [n >= 0] its text is made
    of lower-case hexadecimal digits that [BigInt] reads back as [n]; it has
    exactly 64 of them when [n < 2^256] and more than 64 otherwise. *)
Theorem bigintToHex32_roundtrip (msg : jsstring -> jsstring) (n : Z) :
  0 <= n ->
  BigInt_of_string msg (lit "0x" ++ Validator.bigintToHex32 n) = inr n /\
  toLowerCase (Validator.bigintToHex32 n) = Validator.bigintToHex32 n /\
  (n < 2 ^ 256 -> Shape.raw_hex (Validator.bigintToHex32 n)) /\
  (2 ^ 256 <= n -> (64 < length (Validator.bigintToHex32 n))%nat).
Proof.
  intros Hn. destruct (bigintToHex32_digits n Hn) as (Hd & Hv & Hl & H64 & Hgt).
  split; [|split; [exact Hl|split; [|exact Hgt]]].
  - rewrite BigInt_of_hex; [now rewrite Hv| |exact Hd].
    intros E. destruct (Z.lt_ge_cases n (2 ^ 256)) as [H1|H1].
    + specialize (H64 H1). rewrite E in H64. discriminate.
    + specialize (Hgt H1). rewrite E in Hgt. simpl in Hgt. lia.
  - intros Hlt. split; [now apply H64|exact Hd].
Qed.

Lemma bigintToHex32_roundtrip_witness :
  BigInt_of_string (fun s => s) (lit "0x" ++ Validator.bigintToHex32 48879) = inr 48879 /\
  Validator.bigintToHex32 48879 =
  lit "000000000000000000000000000000000000000000000000000000000000beef".
Proof.
  split; [|reflexivity].
  exact (proj1 (bigintToHex32_roundtrip (fun s => s) 48879 ltac:(lia))).
Defined.

(** ** Public keys *)

Section PublicKeys.
Context `{Host}.

Lemma field_element_hex (x : Z) :
  0 <= x < Validator.P ->
  Shape.raw_hex (Validator.bigintToHex32 x) /\ Shape.scalar (Validator.bigintToHex32 x) = x.
Proof.
  intros Hx. destruct (bigintToHex32_digits x (proj1 Hx)) as (Hd & Hv & _ & H64 & _).
  assert (Hlt : x < 2 ^ 256) by (assert (Validator.P < 2 ^ 256) by reflexivity; lia).
  split; [split; [now apply H64|exact Hd]|exact Hv].
Qed.

(** X7: for a non-empty text of hexadecimal digits, [privateKeyToPublicKey]
    either throws its own error, which it does exactly when the multiple of
    the generator is the point at infinity (so for the scalar zero), or
    returns the SEC encoding of a finite point of the curve: 66 hexadecimal
    digits, [02] or [03] by the parity of [y] and then [x], when compressed;
    130 digits, [04] then [x] then [y], when not. *)
Theorem privateKeyToPublicKey_shape (h : jsstring) (c : bool) :
  h <> [] -> Forall Shape.hex_digit h ->
  match Validator.privateKeyToPublicKey h c with
  | inl e =>
    e = Error (lit "Invalid private key - results in point at infinity") /\
    Validator.pointMultiply (Shape.scalar h) (Some Shape.G) = None
  | inr pk =>
    exists x y,
      Validator.pointMultiply (Shape.scalar h) (Some Shape.G) = Some (x, y) /\
      Shape.field_point (x, y) /\ Shape.on_curve (x, y) /\
      Forall Shape.hex_digit pk /\
      if c then
        length pk = 66%nat /\
        pk = (if Z.even y then lit "02" else lit "03") ++ Validator.bigintToHex32 x
      else
        length pk = 130%nat /\
        pk = lit "04" ++ Validator.bigintToHex32 x ++ Validator.bigintToHex32 y
  end /\
  (Shape.scalar h = 0 ->
   Validator.privateKeyToPublicKey h c =
   inl (Error (lit "Invalid private key - results in point at infinity"))).
Proof.
  intros Hn Hh. unfold Validator.privateKeyToPublicKey.
  rewrite (BigInt_of_hex _ h Hn Hh). cbn [bind]. cbv zeta.
  fold Shape.G.
  pose proof (pointMultiply_curve_point (Shape.scalar h) (Some Shape.G) G_curve_point) as Hc.
  split.
  - destruct (Validator.pointMultiply (Shape.scalar h) (Some Shape.G)) as [[x y]|];
      [|now split].
    destruct Hc as [[Hx Hy] Ho]. cbn [fst snd] in Hx, Hy.
    destruct (field_element_hex x Hx) as [[Lx Dx] _].
    destruct (field_element_hex y Hy) as [[Ly Dy] _].
    assert (Ev : (Z.rem y 2 =? 0) = Z.even y).
    { rewrite Z.rem_mod_nonneg by lia. rewrite Zeven_mod. reflexivity. }
    rewrite Ev.
    destruct c; unfold ret; exists x, y; (split; [reflexivity|]);
      (split; [now split|]); (split; [exact Ho|]).
    + split; [|split; [|reflexivity]].
      * apply Forall_app. split; [|exact Dx]. destruct (Z.even y); repeat constructor.
      * rewrite length_app. unfold jsstring, char in *. rewrite Lx.
        now destruct (Z.even y).
    + split; [|split; [|reflexivity]].
      * apply Forall_app. split; [repeat constructor|]. apply Forall_app. now split.
      * rewrite !length_app. unfold jsstring, char in *. rewrite Lx, Ly. reflexivity.
  - intros ->. rewrite pointMultiply_nonpositive by lia. reflexivity.
Qed.

End PublicKeys.

Lemma privateKeyToPublicKey_shape_witness :
  lit "01" <> [] /\ Forall Shape.hex_digit (lit "01") /\
  exists x y, Validator.pointMultiply (Shape.scalar (lit "01")) (Some Shape.G) = Some (x, y) /\
    Validator.privateKeyToPublicKey (H := crypto_host) (lit "01") true =
    inr ((if Z.even y then lit "02" else lit "03") ++ Validator.bigintToHex32 x).
Proof.
  assert (Hn : lit "01" <> []) by discriminate.
  assert (Hh : Forall Shape.hex_digit (lit "01")) by (repeat constructor).
  split; [exact Hn|]. split; [exact Hh|].
  assert (E : Validator.privateKeyToPublicKey (H := crypto_host) (lit "01") true =
              inr (lit "0279be667ef9dcbbac55a06295ce870b07029bfcdb2dce28d959f2815b16f81798"))
    by (vm_compute; reflexivity).
  pose proof (proj1 (privateKeyToPublicKey_shape (H := crypto_host) (lit "01") true Hn Hh))
    as Hs.
  destruct Hs as (x & y & H1 & H2 & H3 & H4 & Hl & H5).
  exists x, y. split; [exact H1|]. rewrite E. f_equal. exact H5.
Defined.

(** ** Base58: errors, alphabet and the round trip from text *)

Lemma indexOf_None (c : char) (s : jsstring) : indexOf c s = None <-> ~ In c s.
Proof.
  induction s as [|d s IH]; simpl; [tauto|].
  destruct (Z.eqb_spec d c) as [->|Hn].
  - split; [discriminate|]. intros Hc. exfalso. apply Hc. now left.
  - destruct (indexOf c s) as [z|]; simpl.
    + split; [discriminate|]. intros Hc. exfalso.
      assert (Hz : Some z = None) by (apply IH; intros Hin; apply Hc; now right).
      discriminate Hz.
    + split; [|reflexivity]. intros _ [E|Hin]; [congruence|].
      revert Hin. now apply IH.
Qed.

(** The characters of the alphabet are the 58 digits. *)
Lemma base58_char_digit (c : char) :
  Shape.base58_char c <-> exists d, 0 <= d < 58 /\ c = base58_digit d.
Proof.
  unfold Shape.base58_char. split.
  - intros Hc. destruct (In_nth _ _ 0 Hc) as (n & Hn & E).
    exists (Z.of_nat n). change (length Validator.BASE58_ALPHABET) with 58%nat in Hn.
    split; [lia|]. unfold base58_digit. now rewrite Nat2Z.id.
  - intros (d & Hd & ->). unfold base58_digit. apply nth_In.
    change (length Validator.BASE58_ALPHABET) with 58%nat. lia.
Qed.

Lemma base58_text_digits (s : jsstring) :
  Forall Shape.base58_char s ->
  exists ds, s = map base58_digit ds /\ Forall (fun d => 0 <= d < 58) ds.
Proof.
  induction 1 as [|c s Hc _ (ds & -> & Hds)]; [now exists []|].
  apply base58_char_digit in Hc. destruct Hc as (d & Hd & ->).
  exists (d :: ds). split; [reflexivity|now constructor].
Qed.

(** The first loop of [base58Decode] throws at the first character that is
    not of the alphabet. *)
Lemma base58_value_throws (pre post : jsstring) (c : char) (v : Z) :
  Forall Shape.base58_char pre -> ~ Shape.base58_char c ->
  Validator.base58_value (pre ++ c :: post) v =
  inl (Error (lit "Invalid Base58 character: " ++ [c])).
Proof.
  intros Hpre Hc. revert v. induction Hpre as [|a pre Ha _ IH]; intros v.
  - cbn [app Validator.base58_value]. apply indexOf_None in Hc. now rewrite Hc.
  - cbn [app Validator.base58_value].
    apply base58_char_digit in Ha. destruct Ha as (d & Hd & ->).
    rewrite (indexOf_base58_digit d Hd). apply IH.
Qed.

Lemma Forall_split_first {A} (Q : A -> Prop) (Qdec : forall a, {Q a} + {~ Q a})
  (l : list A) :
  Forall Q l \/ exists pre c post, l = pre ++ c :: post /\ Forall Q pre /\ ~ Q c.
Proof.
  induction l as [|a l IH]; [left; constructor|].
  destruct (Qdec a) as [Ha|Ha].
  - destruct IH as [IH|(pre & c & post & -> & Hp & Hc)].
    + left. now constructor.
    + right. exists (a :: pre), c, post. repeat split; [now constructor|assumption].
  - right. exists [], a, l. repeat split; [constructor|assumption].
Qed.

Lemma base58_char_dec (c : char) : {Shape.base58_char c} + {~ Shape.base58_char c}.
Proof. apply in_dec, Z.eq_dec. Qed.

Lemma even_padded_hex (v : Z) :
  0 <= v ->
  let hex := toString16 v in
  let hex' := if Nat.eqb (length hex mod 2) 0 then hex else lit "0" ++ hex in
  Forall Shape.hex_digit hex' /\ Nat.even (length hex') = true /\ hex' <> [] /\
  Shape.scalar hex' = v /\
  length hex' = (2 * ((length hex + 1) / 2))%nat.
Proof.
  intros Hv. cbv zeta.
  destruct (toString16_digits v Hv) as (Hd & Hs & _ & Hn & _).
  unfold jsstring, char in *.
  generalize dependent (toString16 v). intros hex Hd Hs Hn.
  unfold jsstring, char in hex.
  pose proof (Nat.div_mod_eq (length hex) 2) as E.
  pose proof (Nat.mod_upper_bound (length hex) 2 ltac:(lia)) as Hm.
  destruct (Nat.eqb_spec (length hex mod 2) 0) as [E0|E1].
  - repeat split; try assumption.
    + rewrite Nat.even_spec. exists (length hex / 2)%nat. lia.
    + replace (length hex + 1)%nat with (1 + (length hex / 2) * 2)%nat by lia.
      rewrite Nat.div_add by lia. change (1 / 2)%nat with 0%nat. lia.
  - assert (E2 : (length hex mod 2 = 1)%nat) by lia.
    repeat split.
    + constructor; [reflexivity|exact Hd].
    + change (length (lit "0" ++ hex)) with (Datatypes.S (length hex)).
      rewrite Nat.even_spec. exists (length hex / 2 + 1)%nat. lia.
    + discriminate.
    + change (lit "0" ++ hex) with ([48] ++ hex). rewrite scalar_app, Hs. reflexivity.
    + change (length (lit "0" ++ hex)) with (Datatypes.S (length hex)).
      replace (length hex + 1)%nat with (0 + (length hex / 2 + 1) * 2)%nat by lia.
      rewrite Nat.div_add by lia. change (0 / 2)%nat with 0%nat. lia.
Qed.

(** What [base58Decode] returns for a text of the alphabet. *)
Lemma base58Decode_alphabet (s : jsstring) :
  Forall Shape.base58_char s ->
  exists ds v b,
    s = map base58_digit ds /\ Forall (fun d => 0 <= d < 58) ds /\
    v = value_of 58 ds /\ 0 <= v /\
    Forall Shape.is_byte b /\
    length b = ((length (toString16 v) + 1) / 2)%nat /\
    Validator.base58Decode s =
    inr (Shape.byte_array (repeat 0 (Validator.leading (fun c => c =? 49) s) ++ b)).
Proof.
  intros Hs. destruct (base58_text_digits s Hs) as (ds & -> & Hds).
  assert (Hv : 0 <= value_of 58 ds).
  { unfold value_of. assert (G : forall a, 0 <= a -> 0 <= fold_left (fun v d => v * 58 + d) ds a).
    { clear Hs. induction Hds as [|d ds Hd _ IH]; intros a Ha; [exact Ha|].
      simpl. apply IH. lia. }
    apply G. lia. }
  destruct (even_padded_hex _ Hv) as (Hd & He & Hn & Hsc & Hl). cbv zeta in *.
  destruct (hexToBytes_digits _ Hd) as (b & Eb & Hb & Lb & _).
  exists ds, (value_of 58 ds), b. repeat split; try assumption.
  - rewrite Lb, Hl.
    replace (2 * ((length (toString16 (value_of 58 ds)) + 1) / 2) + 1)%nat
      with (1 + ((length (toString16 (value_of 58 ds)) + 1) / 2) * 2)%nat by lia.
    rewrite Nat.div_add by lia. change (1 / 2)%nat with 0%nat. lia.
  - unfold Validator.base58Decode. rewrite (base58_value_digits _ Hds). cbn [bind].
    fold (value_of 58 ds). rewrite Eb. unfold ret, Shape.byte_array.
    rewrite map_app, map_repeat. reflexivity.
Qed.

(** X8: [base58Decode] returns for exactly the texts over the Base58
    alphabet, and throws an [Error] for every other; what it returns is a
    non-empty array of bytes, and the empty text decodes to one zero byte. *)
Theorem base58Decode_result (s : jsstring) :
  (Forall Shape.base58_char s ->
   exists b, Validator.base58Decode s = inr (Shape.byte_array b) /\
             Forall Shape.is_byte b /\ b <> []) /\
  (~ Forall Shape.base58_char s ->
   exists msg, Validator.base58Decode s = inl (Error msg)) /\
  Validator.base58Decode [] = inr [Num 0].
Proof.
  split; [|split; [|reflexivity]].
  - intros Hs.
    destruct (base58Decode_alphabet s Hs) as (ds & v & b & _ & _ & Ev & Hv & Hb & Lb & E).
    exists (repeat 0 (Validator.leading (fun c => c =? 49) s) ++ b).
    split; [exact E|]. split.
    + apply Forall_app. split; [|exact Hb].
      apply Forall_forall. intros x Hx. apply repeat_spec in Hx. subst x.
      unfold Shape.is_byte. lia.
    + destruct (toString16_digits v Hv) as (_ & _ & _ & Hn & _).
      destruct (toString16 v) as [|c l]; [congruence|].
      destruct b as [|x b]; [|destruct (repeat 0 _); discriminate].
      exfalso. cbn [length] in Lb.
      replace (Datatypes.S (length l) + 1)%nat with (length l + 1 * 2)%nat in Lb by lia.
      rewrite Nat.div_add in Lb by lia. lia.
  - intros Hn.
    destruct (Forall_split_first _ base58_char_dec s) as [Hs|(pre & c & post & -> & Hp & Hc)];
      [contradiction|].
    eexists. unfold Validator.base58Decode.
    rewrite (base58_value_throws pre post c 0 Hp Hc). reflexivity.
Qed.

Section Base58Text.
Context `{Host}.

Lemma bytes_value_result (msg : jsstring) (bytes : list number) :
  forall v,
  match Validator.bytes_value msg bytes v with
  | inl e => e = RangeError msg /\ In NaN bytes
  | inr _ => ~ In NaN bytes
  end.
Proof.
  induction bytes as [|[z|] bytes IH]; intros v; cbn [Validator.bytes_value].
  - intros [].
  - cbn [BigInt_of_number bind ret]. specialize (IH (v * 256 + z)).
    destruct (Validator.bytes_value msg bytes (v * 256 + z)) as [e|w].
    + destruct IH as [-> Hin]. split; [reflexivity|now right].
    + intros [E|Hin]; [discriminate|contradiction].
  - cbn [BigInt_of_number bind throw]. split; [reflexivity|now left].
Qed.

Lemma Forall_base58_ones (k : nat) : Forall Shape.base58_char (repeat 49 k).
Proof.
  apply Forall_forall. intros c Hc. apply repeat_spec in Hc. subst c.
  apply base58_char_digit. exists 0. split; [lia|reflexivity].
Qed.

(** What [base58Encode] returns: the [1] of the leading zero bytes, then
    digits of the alphabet, or ["1"] when there is neither. *)
Lemma base58Encode_inr (bytes : list number) (s : jsstring) :
  Validator.base58Encode bytes = inr s ->
  ~ In NaN bytes /\
  exists tail, Forall Shape.base58_char tail /\
    s = let r := repeat 49 (Validator.leading (fun b => number_eqb b (Num 0)) bytes)
                 ++ tail in
        match r with [] => lit "1" | _ => r end.
Proof.
  unfold Validator.base58Encode.
  pose proof (bytes_value_result range_error_text bytes 0) as Hv.
  destruct (Validator.bytes_value range_error_text bytes 0) as [e|v]; [discriminate|].
  cbn [bind ret]. intros [= <-]. split; [exact Hv|].
  exists (snd (while_loop Validator.enc_cond Validator.enc_body (Z.to_pos v) (v, []))).
  split; [|reflexivity].
  destruct (Z.le_gt_cases 0 v) as [Hp|Hn].
  - rewrite (enc_loop_result v Hp).
    destruct (digits_spec 58 ltac:(lia) v Hp) as (_ & Hr & _).
    apply Forall_map. eapply Forall_impl; [|exact Hr].
    intros d Hd. apply base58_char_digit. now exists d.
  - replace (Z.to_pos v) with 1%positive by (destruct v; [lia|lia|reflexivity]).
    cbn [while_loop]. unfold Validator.enc_cond. cbn [fst].
    replace (0 <? v) with false by (symmetry; apply Z.ltb_ge; lia). constructor.
Qed.



Lemma leading_split (s : jsstring) :
  exists k t, s = repeat 49 k ++ t /\ (forall c l, t = c :: l -> c <> 49).
Proof.
  induction s as [|a s (k & t & -> & Ht)].
  - exists O, []. split; [reflexivity|discriminate].
  - destruct (Z.eq_dec a 49) as [->|Ha].
    + exists (Datatypes.S k), t. now split.
    + exists O, (a :: repeat 49 k ++ t). split; [reflexivity|].
      now intros c l [= <- _].
Qed.

Lemma leading_repeat {A} (is_z : A -> bool) (a : A) (k : nat) :
  is_z a = true -> Validator.leading is_z (repeat a k) = k.
Proof.
  intros Ha. induction k as [|k IH]; [reflexivity|].
  cbn [repeat Validator.leading]. rewrite Ha. now f_equal.
Qed.

(** A text of [1] only decodes to one zero byte more than it has
    characters. *)
Lemma base58Decode_ones (k : nat) :
  Validator.base58Decode (repeat 49 k) = inr (Shape.byte_array (repeat 0 (Datatypes.S k))).
Proof.
  unfold Validator.base58Decode.
  rewrite <- (app_nil_r (repeat 49 k)) at 1. rewrite base58_value_ones.
  cbn [Validator.base58_value bind ret].
  rewrite (leading_repeat _ 49 k eq_refl).
  change (Validator.hexToBytes _) with [Num 0].
  unfold Shape.byte_array. rewrite map_repeat.
  change [Num 0] with (repeat (Num 0) 1). rewrite <- repeat_app.
  replace (k + 1)%nat with (Datatypes.S k) by lia. reflexivity.
Qed.

Lemma base58Encode_zeros (n : nat) :
  Validator.base58Encode (Shape.byte_array (repeat 0 (Datatypes.S n))) =
  inr (repeat 49 (Datatypes.S n)).
Proof.
  unfold Validator.base58Encode. rewrite bytes_value_bytes. cbn [bind ret].
  fold (value_of 256 (repeat 0 (Datatypes.S n))).
  rewrite <- (app_nil_r (repeat 0 (Datatypes.S n))), value_leading_zeros.
  change (value_of 256 []) with 0.
  cbn [Z.to_pos while_loop Validator.enc_cond fst Z.ltb Z.compare snd].
  rewrite !app_nil_r. unfold Shape.byte_array. rewrite map_repeat.
  rewrite (leading_repeat _ (Num 0) (Datatypes.S n) eq_refl). reflexivity.
Qed.

(** X10: decoding a text of the Base58 alphabet and encoding the bytes gives
    the text back, unless the text is made of [1] only (or empty): then one
    more [1] comes back. *)
Theorem base58_text_roundtrip (s : jsstring) :
  Forall Shape.base58_char s ->
  (b <- Validator.base58Decode s ;; Validator.base58Encode b) =
  inr (if forallb (fun c => c =? 49) s then s ++ lit "1" else s).
Proof.
  intros Hs. destruct (leading_split s) as (k & t & -> & Ht).
  apply Forall_app in Hs. destruct Hs as [_ Hs].
  destruct (base58_text_digits t Hs) as (ds & -> & Hds).
  destruct ds as [|d0 ds].
  - cbn [map]. rewrite app_nil_r.
    replace (forallb (fun c => c =? 49) (repeat 49 k)) with true
      by (symmetry; apply forallb_forall; intros c Hc; apply repeat_spec in Hc;
          subst c; reflexivity).
    rewrite base58Decode_ones. cbn [bind]. rewrite base58Encode_zeros.
    cbn [repeat]. rewrite repeat_cons. reflexivity.
  - assert (Hd0 : d0 <> 0).
    { intros ->. apply (Ht _ _ eq_refl). reflexivity. }
    replace (forallb (fun c => c =? 49) (repeat 49 k ++ map base58_digit (d0 :: ds))) with false.
    2:{ symmetry. rewrite forallb_app. apply andb_false_iff. right.
        cbn [map forallb]. apply andb_false_iff. left. apply Z.eqb_neq.
        apply (Ht _ _ eq_refl). }
    destruct (digits_unique 58 ltac:(lia) (d0 :: ds) Hds) as [Hu Hpos].
    { now intros d l [= <- _]. }
    specialize (Hpos ltac:(discriminate)).
    destruct (digits_spec 256 ltac:(lia) (value_of 58 (d0 :: ds)) (Z.lt_le_incl _ _ Hpos))
      as (Hv & Hr & Hd).
    destruct (Hd Hpos) as (r & rest & Eb & Hrn).
    rewrite Eb in Hv, Hr.
    assert (Hb : Forall Shape.is_byte (r :: rest)) by exact Hr.
    rewrite <- Hu, <- Hv.
    rewrite (base58Decode_digits k r rest Hrn Hb). cbn [bind].
    apply (base58Encode_bytes k r rest Hrn Hb).
Qed.

End Base58Text.

Lemma base58_text_roundtrip_witness :
  Forall Shape.base58_char (lit "11Zz9") /\
  (b <- Validator.base58Decode (lit "11Zz9") ;; Validator.base58Encode (H := crypto_host) b)
  = inr (lit "11Zz9").
Proof.
  assert (Hs : Forall Shape.base58_char (lit "11Zz9"))
    by (apply Forall_base58_char; reflexivity).
  split; [exact Hs|]. exact (base58_text_roundtrip (H := crypto_host) _ Hs).
Defined.

(** ** The size of a decoded WIF key *)

Lemma value_of_app_pow (base : Z) (s t : list Z) :
  value_of base (s ++ t) = value_of base s * base ^ Z.of_nat (length t) + value_of base t.
Proof.
  unfold value_of. rewrite fold_left_app.
  generalize (fold_left (fun v d => v * base + d) s 0) as a.
  induction t as [|c t IH]; intros a.
  - simpl. lia.
  - cbn [fold_left length]. rewrite IH, (IH (0 * base + c)).
    rewrite Nat2Z.inj_succ, Z.pow_succ_r by lia. lia.
Qed.

Lemma value_of_bound (base : Z) (ds : list Z) :
  1 < base -> Forall (fun d => 0 <= d < base) ds ->
  0 <= value_of base ds < base ^ Z.of_nat (length ds).
Proof.
  intros Hb Hds. induction Hds as [|d ds Hd _ IH].
  - change (value_of base []) with 0. change (Z.of_nat (length (@nil Z))) with 0.
    rewrite Z.pow_0_r. lia.
  - change (d :: ds) with ([d] ++ ds). rewrite value_of_app_pow, length_app.
    change (value_of base [d]) with (0 * base + d). cbn [length].
    rewrite Nat2Z.inj_add, Z.pow_add_r by lia. change (Z.of_nat 1) with 1.
    rewrite Z.pow_1_r.
    assert (0 < base ^ Z.of_nat (length ds)) by (apply Z.pow_pos_nonneg; lia). nia.
Qed.

Lemma base58_digit_inj (d e : Z) :
  0 <= d < 58 -> 0 <= e < 58 -> base58_digit d = base58_digit e -> d = e.
Proof.
  intros Hd He E. pose proof (indexOf_base58_digit d Hd) as H1.
  rewrite E, (indexOf_base58_digit e He) in H1. now injection H1.
Qed.

(** A text of the alphabet that does not start with [1] and whose value
    needs [k] bytes decodes to [k] bytes. *)
Lemma base58Decode_size (s : jsstring) (ds : list Z) (k : nat) :
  s = map base58_digit ds -> Forall (fun d => 0 <= d < 58) ds ->
  (forall c l, s = c :: l -> c <> 49) ->
  256 ^ Z.of_nat k <= value_of 58 ds < 256 ^ Z.of_nat (Datatypes.S k) ->
  exists b, Validator.base58Decode s = inr (Shape.byte_array b) /\
            Forall Shape.is_byte b /\ length b = Datatypes.S k.
Proof.
  intros Es Hds Hhd Hv.
  assert (Hs : Forall Shape.base58_char s).
  { subst s. apply Forall_map. eapply Forall_impl; [|exact Hds].
    intros d Hd. apply base58_char_digit. now exists d. }
  destruct (base58Decode_alphabet s Hs) as (ds' & v & b & Es' & Hds' & Ev & Hv0 & Hb & Lb & E).
  assert (ds' = ds).
  { subst s. clear - Es' Hds Hds'. revert ds' Es' Hds'.
    induction Hds as [|d ds Hd _ IH]; intros [|d' ds'] E H'; try discriminate; [reflexivity|].
    injection E as E1 E2. f_equal.
    - symmetry. apply base58_digit_inj; [exact Hd|now apply Forall_inv in H'|exact E1].
    - apply IH; [exact E2|now apply Forall_inv_tail in H']. }
  subst ds'. subst v.
  replace (Validator.leading (fun c => c =? 49) s) with O in E.
  2:{ destruct s as [|c l]; [reflexivity|]. cbn [Validator.leading].
      specialize (Hhd c l eq_refl). apply Z.eqb_neq in Hhd. now rewrite Hhd. }
  exists b. split; [exact E|]. split; [exact Hb|]. rewrite Lb.
  assert (Hpos : 0 < value_of 58 ds).
  { assert (0 < 256 ^ Z.of_nat k) by (apply Z.pow_pos_nonneg; lia). lia. }
  rewrite toString16_pos by exact Hpos. rewrite length_map.
  assert (H1 : (2 * k < length (digits 16 (value_of 58 ds)))%nat).
  { apply digits_length_gt; [lia|].
    replace (16 ^ Z.of_nat (2 * k)) with (256 ^ Z.of_nat k); [lia|].
    rewrite Nat2Z.inj_mul, Z.pow_mul_r by lia. reflexivity. }
  assert (H2 : (length (digits 16 (value_of 58 ds)) <= 2 * Datatypes.S k)%nat).
  { apply digits_length_le; [lia|].
    replace (16 ^ Z.of_nat (2 * Datatypes.S k)) with (256 ^ Z.of_nat (Datatypes.S k)); [lia|].
    rewrite (Nat2Z.inj_mul 2), Z.pow_mul_r by lia. reflexivity. }
  set (n := length (digits 16 (value_of 58 ds))) in *.
  assert (Hn : n = (2 * k + 1)%nat \/ n = (2 * k + 2)%nat) by lia.
  destruct Hn as [-> | ->].
  - replace (2 * k + 1 + 1)%nat with (0 + (k + 1) * 2)%nat by lia.
    rewrite Nat.div_add by lia. change (0 / 2)%nat with 0%nat. lia.
  - replace (2 * k + 2 + 1)%nat with (1 + (k + 1) * 2)%nat by lia.
    rewrite Nat.div_add by lia. change (1 / 2)%nat with 0%nat. lia.
Qed.

(** A text of one of the two WIF shapes always decodes: a 51-character one
    to exactly 37 bytes, a 52-character one to exactly 38 bytes. *)
Lemma wif_decoded_size (t : jsstring) :
  Shape.wif_uncompressed t \/ Shape.wif_compressed t ->
  exists b, Validator.base58Decode t = inr (Shape.byte_array b) /\
            Forall Shape.is_byte b /\
            length b = (if Nat.eqb (length t) 51 then 37 else 38)%nat.
Proof.
  intros [(L & c & r & -> & Hc & Hr) | (L & c & r & -> & Hc & Hr)].
  - destruct (base58_text_digits r Hr) as (ds & -> & Hds).
    assert (Hl : length ds = 49%nat) by (cbn [length] in L; rewrite length_map in L; lia).
    assert (Hc' : exists d, 16 <= d <= 18 /\ c = base58_digit d).
    { destruct Hc as [<-|[<-|[<-|[]]]]; [exists 16|exists 17|exists 18]; split; (lia || reflexivity). }
    destruct Hc' as (d & Hd & ->).
    rewrite L. change (Nat.eqb 51 51) with true. cbv iota.
    apply (base58Decode_size _ (4 :: d :: ds) 36).
    + reflexivity.
    + constructor; [lia|]. constructor; [lia|exact Hds].
    + intros c l [= <- _]. discriminate.
    + change (4 :: d :: ds) with ([4; d] ++ ds). rewrite value_of_app_pow, Hl.
      change (value_of 58 [4; d]) with ((0 * 58 + 4) * 58 + d).
      pose proof (value_of_bound 58 ds ltac:(lia) Hds) as Hb. rewrite Hl in Hb.
      set (p := 58 ^ Z.of_nat 49) in *.
      assert (H1 : 256 ^ Z.of_nat 36 <= 248 * p) by (vm_compute; discriminate).
      assert (H2 : 251 * p <= 256 ^ Z.of_nat 37) by (vm_compute; discriminate).
      assert (Hp : 0 < p) by reflexivity. nia.
  - destruct (base58_text_digits r Hr) as (ds & -> & Hds).
    assert (Hl : length ds = 51%nat) by (cbn [length] in L; rewrite length_map in L; lia).
    assert (Hc' : exists d, 18 <= d <= 19 /\ c = base58_digit d).
    { destruct Hc as [<-|[<-|[]]]; [exists 18|exists 19]; split; (lia || reflexivity). }
    destruct Hc' as (d & Hd & ->).
    rewrite L. change (Nat.eqb 52 51) with false. cbv iota.
    apply (base58Decode_size _ (d :: ds) 37).
    + reflexivity.
    + constructor; [lia|exact Hds].
    + intros c l [= <- _]. intros E.
      assert (d = 0) by (apply base58_digit_one; [lia|exact E]). lia.
    + change (d :: ds) with ([d] ++ ds). rewrite value_of_app_pow, Hl.
      change (value_of 58 [d]) with (0 * 58 + d).
      pose proof (value_of_bound 58 ds ltac:(lia) Hds) as Hb. rewrite Hl in Hb.
      set (p := 58 ^ Z.of_nat 51) in *.
      assert (H1 : 256 ^ Z.of_nat 37 <= 18 * p) by (vm_compute; discriminate).
      assert (H2 : 20 * p <= 256 ^ Z.of_nat 38) by (vm_compute; discriminate).
      assert (Hp : 0 < p) by reflexivity. nia.
Qed.

(** What [bytesToHex] writes for bytes: two lower-case hexadecimal digits
    each. *)
Lemma bytesToHex_shape (b : list Z) :
  Forall Shape.is_byte b ->
  Forall Shape.hex_digit (Validator.bytesToHex (Shape.byte_array b)) /\
  length (Validator.bytesToHex (Shape.byte_array b)) = (2 * length b)%nat /\
  toLowerCase (Validator.bytesToHex (Shape.byte_array b))
  = Validator.bytesToHex (Shape.byte_array b).
Proof.
  intros Hb. rewrite (bytesToHex_nibbles b Hb).
  pose proof (nibbles_range b Hb) as Hr.
  assert (Hall : Forall (fun d => is_hex_digit (hex_char d) = true /\
                                hex_value (hex_char d) = d /\
                                lower_char (hex_char d) = hex_char d) (nibbles b))
    by (eapply Forall_impl; [|exact Hr]; intros d; apply hex_char_digit).
  split; [|split].
  - apply Forall_map. eapply Forall_impl; [|exact Hall]. now intros d [H1 _].
  - rewrite length_map. apply length_nibbles.
  - unfold toLowerCase. rewrite map_map. apply map_ext_Forall.
    eapply Forall_impl; [|exact Hall]. now intros d (_ & _ & H3).
Qed.

Lemma Forall_firstn_part {A} (Q : A -> Prop) (n : nat) (l : list A) :
  Forall Q l -> Forall Q (firstn n l).
Proof.
  intros Hl. rewrite <- (firstn_skipn n l) in Hl. now apply Forall_app in Hl.
Qed.

Lemma Forall_skipn_part {A} (Q : A -> Prop) (n : nat) (l : list A) :
  Forall Q l -> Forall Q (skipn n l).
Proof.
  intros Hl. rewrite <- (firstn_skipn n l) in Hl. now apply Forall_app in Hl.
Qed.

Section WIFDetected.
Context `{Host}.

(** X11: a text of one of the two WIF shapes always decodes, to exactly 37
    bytes when it has 51 characters and to exactly 38 when it has 52: the
    length test of [validateWIFChecksum] never fails on it and the checksum
    alone decides.  When it accepts, the private key it returns is 64
    lower-case hexadecimal digits; and a 51-character key is never taken as
    compressed. *)
Theorem validateWIFChecksum_detected (t : jsstring) :
  Shape.wif_uncompressed t \/ Shape.wif_compressed t ->
  let r := Validator.validateWIFChecksum t in
  (exists decoded,
     Validator.base58Decode t = inr decoded /\
     length decoded = (if Nat.eqb (length t) 51 then 37 else 38)%nat /\
     (Validator.valid r = true <->
      substring 0 8 (Validator.doubleSha256
                       (Validator.bytesToHex (firstn (length decoded - 4) decoded)))
      = Validator.bytesToHex (skipn (length decoded - 4) decoded))) /\
  (Validator.valid r = true ->
   Shape.raw_hex (Validator.privateKeyHex r) /\
   toLowerCase (Validator.privateKeyHex r) = Validator.privateKeyHex r) /\
  (Shape.wif_uncompressed t -> Validator.compressed r = false).
Proof.
  intros Ht. destruct (wif_decoded_size t Ht) as (b & E & Hb & L).
  assert (L37 : (37 <= length b)%nat) by (destruct (Nat.eqb (length t) 51); lia).
  cbv zeta. unfold Validator.validateWIFChecksum. rewrite E.
  assert (Ld : length (Shape.byte_array b) = length b)
    by (unfold Shape.byte_array; apply length_map).
  rewrite Ld.
  replace (length b <? 37)%nat with false by (symmetry; apply Nat.ltb_ge; exact L37).
  split; [|split].
  - exists (Shape.byte_array b). split; [reflexivity|]. split; [now rewrite Ld|]. rewrite Ld.
    destruct (eqb_string _ _) eqn:Ec; cbn [negb Validator.valid Validator.invalid_wif].
    + apply eqb_string_true in Ec. now split.
    + split; [discriminate|]. intros Ec'. apply eqb_string_true in Ec'. congruence.
  - destruct (eqb_string _ _); cbn [negb Validator.valid Validator.invalid_wif];
      [|discriminate]. intros _. cbn [Validator.privateKeyHex].
    unfold Shape.byte_array. repeat (rewrite firstn_map || rewrite skipn_map).
    fold (Shape.byte_array (firstn 32 (skipn 1 (firstn (length b - 4) b)))).
    set (key := firstn 32 (skipn 1 (firstn (length b - 4) b))).
    assert (Hk : Forall Shape.is_byte key).
    { unfold key. now apply Forall_firstn_part, Forall_skipn_part, Forall_firstn_part. }
    assert (Lk : length key = 32%nat).
    { unfold key. rewrite length_firstn, length_skipn, length_firstn. lia. }
    destruct (bytesToHex_shape key Hk) as (H1 & H2 & H3).
    split; [split; [rewrite H2, Lk; reflexivity|exact H1]|exact H3].
  - intros Hu. destruct (eqb_string _ _); cbn [negb Validator.compressed Validator.invalid_wif];
      [|reflexivity].
    destruct Hu as [Lt _]. rewrite Lt in L. change (Nat.eqb 51 51) with true in L.
    cbv iota in L. rewrite length_firstn, Ld, L. reflexivity.
Qed.

End WIFDetected.

Lemma validateWIFChecksum_detected_witness :
  let t := lit "5HueCGU8rMjxEXxiPuD5BDku4MkFqeZyd4dZ1jvhTVqvbTLvyTJ" in
  Shape.wif_uncompressed t /\
  (exists decoded, Validator.base58Decode t = inr decoded /\ length decoded = 37%nat) /\
  Validator.compressed (Validator.validateWIFChecksum (H := crypto_host) t) = false.
Proof.
  intros t.
  assert (Ht : Shape.wif_uncompressed t) by (apply wif_regex_shape; reflexivity).
  split; [exact Ht|].
  destruct (validateWIFChecksum_detected (H := crypto_host) t (or_introl Ht))
    as ((d & E & L & _) & _ & Hc).
  split; [exists d; split; [exact E|exact L]|]. exact (Hc Ht).
Defined.

(** ** [validatePrivateKey]: white space, letter case, and what a result holds *)

Lemma base58_not_white_space (c : char) :
  Shape.base58_char c -> is_white_space c = false.
Proof.
  intros Hc.
  assert (H : forallb (fun c => negb (is_white_space c)) Validator.BASE58_ALPHABET = true)
    by (vm_compute; reflexivity).
  rewrite forallb_forall in H. apply negb_true_iff. now apply H.
Qed.

Lemma trim_no_white_space (s : jsstring) :
  Forall (fun c => is_white_space c = false) s -> trim s = s.
Proof.
  intros Hs. rewrite Forall_forall in Hs.
  apply trim_ends; intros c Hc; apply Hs.
  - now apply hd_error_In.
  - apply in_rev. now apply hd_error_In.
Qed.

Lemma trimStart_white_space (w s : jsstring) :
  Forall (fun c => is_white_space c = true) w -> trimStart (w ++ s) = trimStart s.
Proof.
  induction 1 as [|c w Hc _ IH]; [reflexivity|]. cbn [app trimStart]. now rewrite Hc.
Qed.

(** White space after a text that neither starts nor ends with white space
    is trimmed away. *)
Lemma trim_trailing (s w : jsstring) :
  trim s = s -> s <> [] -> Forall (fun c => is_white_space c = true) w ->
  trim (s ++ w) = s.
Proof.
  intros Hs Hn Hw. unfold trim, trimEnd in *.
  assert (H1 : trimStart s = s).
  { destruct s as [|c s]; [congruence|]. cbn [trimStart] in *.
    destruct (is_white_space c) eqn:Ec; [|reflexivity].
    exfalso. apply (f_equal (@length _)) in Hs. rewrite length_rev in Hs.
    assert (Hle : forall t : jsstring, (length (trimStart t) <= length t)%nat).
    { induction t as [|a t IH]; [simpl; lia|]. cbn [trimStart].
      destruct (is_white_space a); cbn [length]; lia. }
    pose proof (Hle (rev (trimStart s))) as H2. pose proof (Hle s) as H3.
    rewrite length_rev in H2. cbn [length] in Hs. lia. }
  rewrite H1 in Hs.
  assert (H2 : trimStart (s ++ w) = s ++ w).
  { destruct s as [|c s]; [congruence|]. cbn [app trimStart] in *.
    destruct (is_white_space c); [|reflexivity].
    exfalso. apply (f_equal (@length _)) in H1.
    assert (Hle : forall t : jsstring, (length (trimStart t) <= length t)%nat).
    { induction t as [|a t IH]; [simpl; lia|]. cbn [trimStart].
      destruct (is_white_space a); cbn [length]; lia. }
    pose proof (Hle s). cbn [length] in H1. lia. }
  rewrite H2, rev_app_distr, trimStart_white_space, Hs; [reflexivity|].
  apply Forall_forall. intros c Hc. apply in_rev in Hc.
  rewrite Forall_forall in Hw. now apply Hw.
Qed.

(** When [BigInt] of a text returns, it returns the same for every text with
    the same trimming. *)
Lemma BigInt_of_string_trim (msg : jsstring -> jsstring) (x y : jsstring) (v : Z) :
  trim y = trim x -> BigInt_of_string msg x = inr v -> BigInt_of_string msg y = inr v.
Proof.
  unfold BigInt_of_string. intros ->. destruct (trim x) as [|c r]; [trivial|].
  repeat match goal with
         | |- context [if ?b then _ else _] => destruct b
         end; unfold bind, throw, ret; try discriminate; trivial;
  repeat match goal with
         | |- context [if ?b then _ else _] => destruct b
         end; try discriminate; trivial.
Qed.

Lemma white_space_lower (c : char) : is_white_space c = true -> lower_char c = c.
Proof.
  unfold lower_char, in_range. intros Hc.
  destruct ((65 <=? c) && (c <=? 90)) eqn:E; [|reflexivity].
  apply andb_true_iff in E. rewrite !Z.leb_le in E. exfalso.
  unfold is_white_space, in_range in Hc.
  rewrite !orb_true_iff, !andb_true_iff, !Z.leb_le, !Z.eqb_eq in Hc. lia.
Qed.

Lemma lower_char_idempotent (c : char) : lower_char (lower_char c) = lower_char c.
Proof.
  unfold lower_char, in_range.
  destruct ((65 <=? c) && (c <=? 90)) eqn:E; [|now rewrite E].
  apply andb_true_iff in E. rewrite !Z.leb_le in E.
  replace ((65 <=? c + 32) && (c + 32 <=? 90)) with false; [reflexivity|].
  symmetry. apply andb_false_iff. rewrite !Z.leb_gt. lia.
Qed.

Section ValidateMore.
Context `{Host}.

(** X12: a key of a WIF format with white space around it is classified
    by its trimming, but decoded as it is, and so always rejected with the
    checksum error, whatever the key. *)
Theorem wif_with_white_space_rejected (timestamp : Z) (key : jsstring) :
  Shape.wif_uncompressed (trim key) \/ Shape.wif_compressed (trim key) ->
  key <> trim key ->
  Validator.detectKeyFormat key <> Validator.unknown /\
  Validator.validatePrivateKey timestamp key =
  Validator.failure (Validator.detectKeyFormat key) Validator.wif_checksum_error timestamp.
Proof.
  intros Ht Hk.
  assert (Hf : Validator.detectKeyFormat key = Validator.WIF \/
               Validator.detectKeyFormat key = Validator.WIF_compressed).
  { destruct Ht as [Ht|Ht]; [left|right]; now apply detectKeyFormat_cases. }
  assert (Hd : exists e, Validator.base58Decode key = inl e).
  { destruct (Forall_split_first _ base58_char_dec key)
      as [Hs|(pre & c & post & -> & Hp & Hc)].
    - exfalso. apply Hk. symmetry. apply trim_no_white_space.
      eapply Forall_impl; [|exact Hs]. apply base58_not_white_space.
    - eexists. unfold Validator.base58Decode.
      rewrite (base58_value_throws pre post c 0 Hp Hc). reflexivity. }
  destruct Hd as [e Hd]. split; [destruct Hf as [-> | ->]; discriminate|].
  unfold Validator.validatePrivateKey, Validator.validate_body, Validator.validateWIFChecksum.
  rewrite Hd. destruct Hf as [-> | ->]; reflexivity.
Qed.

(** X13: the validation of a key of 64 hexadecimal digits depends neither
    on the case of its letters nor on white space after it. *)
Theorem hex_case_and_trailing_space (timestamp : Z) (h w : jsstring) :
  Shape.raw_hex h -> Forall (fun c => is_white_space c = true) w ->
  Validator.validatePrivateKey timestamp (h ++ w) =
  Validator.validatePrivateKey timestamp (toLowerCase h).
Proof.
  intros Hh Hw. destruct (toLowerCase_hex h (proj2 Hh)) as [Hl Hv].
  assert (Hlh : Shape.raw_hex (toLowerCase h)).
  { split; [|exact Hl]. unfold toLowerCase. rewrite length_map. apply Hh. }
  assert (Ht : trim (h ++ w) = h).
  { apply trim_trailing; [apply trim_hex, Hh|now apply raw_hex_not_nil|exact Hw]. }
  assert (F1 : Validator.detectKeyFormat (h ++ w) = Validator.hex).
  { apply detectKeyFormat_cases. now rewrite Ht. }
  unfold Validator.validatePrivateKey.
  rewrite F1, (detectKeyFormat_raw_hex _ Hlh). cbn [Validator.KeyFormat_eqb].
  unfold Validator.validate_body. cbn [Validator.KeyFormat_eqb].
  assert (E1 : toLowerCase (h ++ w) = toLowerCase h ++ w).
  { unfold toLowerCase. rewrite map_app. f_equal.
    rewrite <- (map_id w) at 2. apply map_ext_Forall.
    eapply Forall_impl; [|exact Hw]. apply white_space_lower. }
  assert (E2 : toLowerCase (toLowerCase h) = toLowerCase h).
  { unfold toLowerCase. rewrite map_map. apply map_ext. apply lower_char_idempotent. }
  rewrite E1, E2.
  assert (Hn : toLowerCase h <> []) by now apply raw_hex_not_nil.
  pose proof (BigInt_of_hex syntax_error_text _ Hn Hl) as B.
  assert (B' : BigInt_of_string syntax_error_text (lit "0x" ++ toLowerCase h ++ w)
               = inr (Shape.scalar (toLowerCase h))).
  { apply (BigInt_of_string_trim _ (lit "0x" ++ toLowerCase h)); [|exact B].
    rewrite app_assoc. rewrite trim_trailing; [| | |exact Hw].
    - symmetry. apply trim_ends.
      + intros c [= <-]. reflexivity.
      + intros d Hd. rewrite rev_app_distr in Hd.
        destruct (rev (toLowerCase h)) as [|e r] eqn:E.
        * apply (f_equal (@rev _)) in E. rewrite rev_involutive in E. now subst.
        * simpl in Hd. injection Hd as <-. apply hex_digit_not_white_space.
          rewrite Forall_forall in Hl. apply Hl, in_rev. rewrite E. now left.
    - apply trim_ends.
      + intros c [= <-]. reflexivity.
      + intros d Hd. rewrite rev_app_distr in Hd.
        destruct (rev (toLowerCase h)) as [|e r] eqn:E.
        * apply (f_equal (@rev _)) in E. rewrite rev_involutive in E. now subst.
        * simpl in Hd. injection Hd as <-. apply hex_digit_not_white_space.
          rewrite Forall_forall in Hl. apply Hl, in_rev. rewrite E. now left.
    - discriminate. }
  rewrite B, B'. cbn [bind].
  destruct ((_ <=? 0) || _); [reflexivity|].
  unfold Validator.privateKeyToPublicKey. rewrite B, B'. reflexivity.
Qed.

(** An address is the Base58 text of bytes that start with the version byte
    zero: it starts with [1]. *)
Lemma publicKeyToAddress_shape (pk a : jsstring) :
  Validator.publicKeyToAddress pk = inr a ->
  exists rest, a = 49 :: rest /\ Forall Shape.base58_char a.
Proof.
  unfold Validator.publicKeyToAddress. cbv zeta.
  rewrite <- app_assoc. change (lit "00" ++ ?x) with (48 :: 48 :: x).
  rewrite hexToBytes_pair. change (parseInt16 [48; 48]) with (Num 0).
  intros E. destruct (base58Encode_inr _ _ E) as (_ & tail & Ht & ->).
  cbn [Validator.leading number_eqb Z.eqb repeat app]. cbv zeta.
  eexists. split; [reflexivity|].
  constructor; [apply (Forall_inv (Forall_base58_ones 1))|].
  apply Forall_app. split; [apply Forall_base58_ones|exact Ht].
Qed.

(** X14: what a result of [validatePrivateKey] holds.  Its format is the
    detected one and its time the reading of the clock; [checksum] repeats
    [isValid]; a failure carries no address and never matches the puzzle; a
    success has a known format, no error, and an address that starts with
    [1], is written in the Base58 alphabet, and is compared with the address
    of the puzzle. *)
Theorem validatePrivateKey_result (timestamp : Z) (key : jsstring) :
  let r := Validator.validatePrivateKey timestamp key in
  Validator.format r = Validator.detectKeyFormat key /\
  Validator.timestamp r = timestamp /\
  Validator.checksum r = Validator.isValid r /\
  (Validator.isValid r = false ->
   Validator.address r = None /\ Validator.matchesPuzzle r = false) /\
  (Validator.isValid r = true ->
   Validator.format r <> Validator.unknown /\ Validator.error r = None /\
   exists rest,
     Validator.address r = Some (49 :: rest) /\
     Forall Shape.base58_char (49 :: rest) /\
     Validator.matchesPuzzle r = eqb_string (49 :: rest) Validator.GSMG_PUZZLE_ADDRESS).
Proof.
  cbv zeta. unfold Validator.validatePrivateKey.
  destruct (Validator.KeyFormat_eqb (Validator.detectKeyFormat key) Validator.unknown) eqn:Eu.
  - assert (Validator.detectKeyFormat key = Validator.unknown)
      by (destruct (Validator.detectKeyFormat key); try discriminate; reflexivity).
    cbn. split; [congruence|]. split; [reflexivity|]. split; [reflexivity|].
    split; [now split|discriminate].
  - assert (Hu : Validator.detectKeyFormat key <> Validator.unknown)
      by (intros E; rewrite E in Eu; discriminate).
    set (format := Validator.detectKeyFormat key) in *.
    assert (Hderive : forall pkh c,
      match (publicKey <- Validator.privateKeyToPublicKey pkh c ;;
             address <- Validator.publicKeyToAddress publicKey ;;
             ret {| Validator.isValid := true; Validator.format := format;
                    Validator.address := Some address;
                    Validator.matchesPuzzle :=
                      eqb_string address Validator.GSMG_PUZZLE_ADDRESS;
                    Validator.checksum := true; Validator.error := None;
                    Validator.timestamp := timestamp |}) with
      | inl _ => True
      | inr r => Validator.format r = format /\ Validator.timestamp r = timestamp /\
                 Validator.checksum r = Validator.isValid r /\
                 Validator.isValid r = true /\ Validator.error r = None /\
                 exists rest, Validator.address r = Some (49 :: rest) /\
                   Forall Shape.base58_char (49 :: rest) /\
                   Validator.matchesPuzzle r
                   = eqb_string (49 :: rest) Validator.GSMG_PUZZLE_ADDRESS
      end).
    { intros pkh c. unfold bind, ret.
      destruct (Validator.privateKeyToPublicKey pkh c) as [e|pk]; [exact I|].
      destruct (Validator.publicKeyToAddress pk) as [e|a] eqn:Ea; [exact I|].
      destruct (publicKeyToAddress_shape pk a Ea) as (rest & -> & Hr).
      cbn. repeat split. exists rest. now repeat split. }
    assert (Hbody : match Validator.validate_body format timestamp key with
      | inl _ => True
      | inr r => Validator.format r = format /\ Validator.timestamp r = timestamp /\
                 Validator.checksum r = Validator.isValid r /\
                 (Validator.isValid r = false ->
                  Validator.address r = None /\ Validator.matchesPuzzle r = false) /\
                 (Validator.isValid r = true -> Validator.error r = None /\
                  exists rest, Validator.address r = Some (49 :: rest) /\
                   Forall Shape.base58_char (49 :: rest) /\
                   Validator.matchesPuzzle r
                   = eqb_string (49 :: rest) Validator.GSMG_PUZZLE_ADDRESS)
      end).
    { unfold Validator.validate_body.
      destruct (Validator.KeyFormat_eqb format Validator.hex).
      - destruct (BigInt_of_string _ _) as [e|k]; [exact I|]. cbn [bind].
        destruct ((k <=? 0) || _).
        + cbn. split; [reflexivity|]. split; [reflexivity|]. split; [reflexivity|].
          split; [now split|discriminate].
        + specialize (Hderive (toLowerCase key) true).
          destruct (bind _ _) as [e|r]; [exact I|].
          destruct Hderive as (H1 & H2 & H3 & H4 & H5 & H6).
          split; [exact H1|]. split; [exact H2|]. split; [exact H3|].
          split; [intros H7; congruence|]. intros _. split; [exact H5|exact H6].
      - destruct (negb _).
        + cbn. split; [reflexivity|]. split; [reflexivity|]. split; [reflexivity|].
          split; [now split|discriminate].
        + specialize (Hderive (Validator.privateKeyHex (Validator.validateWIFChecksum key))
                              (Validator.compressed (Validator.validateWIFChecksum key))).
          destruct (bind _ _) as [e|r]; [exact I|].
          destruct Hderive as (H1 & H2 & H3 & H4 & H5 & H6).
          split; [exact H1|]. split; [exact H2|]. split; [exact H3|].
          split; [intros H7; congruence|]. intros _. split; [exact H5|exact H6]. }
    destruct (Validator.validate_body format timestamp key) as [e|r].
    + cbn. split; [reflexivity|]. split; [reflexivity|]. split; [reflexivity|].
      split; [now split|discriminate].
    + destruct Hbody as (H1 & H2 & H3 & H4 & H5).
      split; [exact H1|]. split; [exact H2|]. split; [exact H3|]. split; [exact H4|].
      intros Hv. split; [rewrite H1; exact Hu|]. now apply H5.
Qed.

End ValidateMore.

Lemma wif_with_white_space_rejected_witness :
  let key := lit " 5HueCGU8rMjxEXxiPuD5BDku4MkFqeZyd4dZ1jvhTVqvbTLvyTJ" in
  Shape.wif_uncompressed (trim key) /\ key <> trim key /\
  Validator.validatePrivateKey (H := crypto_host) 0 key =
  Validator.failure Validator.WIF Validator.wif_checksum_error 0.
Proof.
  intros key.
  assert (Ht : Shape.wif_uncompressed (trim key)) by (apply wif_regex_shape; reflexivity).
  assert (Hk : key <> trim key) by discriminate.
  split; [exact Ht|]. split; [exact Hk|].
  exact (proj2 (wif_with_white_space_rejected (H := crypto_host) 0 key (or_introl Ht) Hk)).
Defined.

Lemma hex_case_and_trailing_space_witness :
  let h := lit "00000000000000000000000000000000000000000000000000000000000000AB" in
  let w := [32; 10] in
  Shape.raw_hex h /\ Forall (fun c => is_white_space c = true) w /\
  Validator.validatePrivateKey (H := crypto_host) 0 (h ++ w) =
  Validator.validatePrivateKey (H := crypto_host) 0 (toLowerCase h).
Proof.
  intros h w.
  assert (Hh : Shape.raw_hex h)
    by (split; [reflexivity|apply Forall_forall, forallb_forall; reflexivity]).
  assert (Hw : Forall (fun c => is_white_space c = true) w) by (repeat constructor).
  split; [exact Hh|]. split; [exact Hw|].
  exact (hex_case_and_trailing_space (H := crypto_host) 0 h w Hh Hw).
Defined.

(** ** [permutations] and [combinations] *)

Section Permutations.
Context {T : Type}.

Lemma permutations_len_unfold (size' : nat) (arr : list T) :
  Engine.permutations_len (Datatypes.S size') arr =
  if Nat.eqb (Datatypes.S size') 1 then [arr]
  else permutations_loop size' (seq 0 (Datatypes.S size')) arr.
Proof. reflexivity. Qed.

Lemma permutations_loop_cons (size' i : nat) (indices : list nat) (arr : list T) :
  permutations_loop size' (i :: indices) arr =
  Engine.permutations_len size' arr
    ++ permutations_loop size' indices
         (if Nat.even (Datatypes.S size') then Engine.swap i size' arr
          else Engine.swap 0 size' arr).
Proof. reflexivity. Qed.

Lemma firstn_skipn_middle (l1 l2 : list T) (a : T) :
  firstn (length l1) (l1 ++ a :: l2) = l1 /\
  skipn (Datatypes.S (length l1)) (l1 ++ a :: l2) = l2.
Proof.
  split.
  - rewrite firstn_app, Nat.sub_diag, firstn_all. cbn [firstn]. apply app_nil_r.
  - rewrite skipn_app, skipn_all2 by lia.
    replace (Datatypes.S (length l1) - length l1)%nat with 1%nat by lia. reflexivity.
Qed.

Lemma swap_Permutation (i j : nat) (arr : list T) : Permutation arr (Engine.swap i j arr).
Proof.
  unfold Engine.swap.
  destruct (nth_error arr i) as [a|] eqn:Ei; [|reflexivity].
  destruct (nth_error arr j) as [b|] eqn:Ej; [|reflexivity].
  destruct (nth_error_split arr i Ei) as (l1 & l2 & E1 & L1). subst i.
  assert (Ha1 : firstn (length l1) arr ++ b :: skipn (Datatypes.S (length l1)) arr
                = l1 ++ b :: l2).
  { rewrite E1. destruct (firstn_skipn_middle l1 l2 a) as [-> ->]. reflexivity. }
  rewrite Ha1.
  assert (Ej1 : exists b', nth_error (l1 ++ b :: l2) j = Some b' /\
                           Permutation (a :: l1 ++ b :: l2) (b' :: l1 ++ a :: l2) /\
                           (j = length l1 -> b' = b)).
  { rewrite E1 in Ej.
    destruct (Nat.lt_ge_cases j (length l1)) as [Hlt|Hge].
    - rewrite nth_error_app1 in * by lia. exists b. split; [exact Ej|].
      split; [|lia]. transitivity (a :: b :: l1 ++ l2).
      + constructor. symmetry. apply Permutation_middle.
      + transitivity (b :: a :: l1 ++ l2); [apply perm_swap|].
        constructor. apply Permutation_middle.
    - rewrite nth_error_app2 in * by lia.
      destruct (j - length l1)%nat as [|n] eqn:En.
      + cbn [nth_error] in *. injection Ej as Eab. subst b. exists a.
        split; [reflexivity|].
        split; [|reflexivity]. transitivity (a :: a :: l1 ++ l2).
        * constructor. symmetry. apply Permutation_middle.
        * constructor. apply Permutation_middle.
      + cbn [nth_error] in *. exists b. split; [exact Ej|]. split; [|lia].
        transitivity (a :: b :: l1 ++ l2).
        * constructor. symmetry. apply Permutation_middle.
        * transitivity (b :: a :: l1 ++ l2); [apply perm_swap|].
          constructor. apply Permutation_middle. }
  destruct Ej1 as (b' & Ej1 & Hp & _).
  destruct (nth_error_split _ j Ej1) as (m1 & m2 & E2 & L2). subst j.
  rewrite E2. destruct (firstn_skipn_middle m1 m2 b') as [-> ->].
  transitivity (a :: m1 ++ m2); [|apply Permutation_middle].
  apply Permutation_cons_inv with b'.
  transitivity (b' :: l1 ++ a :: l2); [rewrite E1; reflexivity|].
  transitivity (a :: l1 ++ b :: l2); [symmetry; exact Hp|].
  rewrite E2. transitivity (a :: b' :: m1 ++ m2); [|apply perm_swap].
  constructor. symmetry. apply Permutation_middle.
Qed.

(** Every array the generator yields holds the elements of the input. *)
Lemma permutations_len_Permutation (size : nat) :
  forall arr : list T, Forall (Permutation arr) (Engine.permutations_len size arr).
Proof.
  induction size as [|size' IH]; intros arr; [constructor|].
  rewrite permutations_len_unfold. destruct (Nat.eqb (Datatypes.S size') 1).
  - constructor; [reflexivity|constructor].
  - generalize (seq 0 (Datatypes.S size')). intros indices. revert arr.
    induction indices as [|i indices IHi]; intros arr; [constructor|].
    rewrite permutations_loop_cons. apply Forall_app. split; [apply IH|].
    eapply Forall_impl; [|apply IHi].
    intros p Hp. etransitivity; [|exact Hp].
    destruct (Nat.even _); apply swap_Permutation.
Qed.

(** The generator yields [size!] arrays. *)
Lemma permutations_len_length (size : nat) :
  forall arr : list T,
  (0 < size)%nat -> length (Engine.permutations_len size arr) = fact size.
Proof.
  induction size as [|size' IH]; intros arr Hs; [lia|].
  rewrite permutations_len_unfold.
  destruct (Nat.eqb_spec (Datatypes.S size') 1) as [E|E].
  - injection E as ->. reflexivity.
  - assert (H : forall indices (a : list T),
              length (permutations_loop size' indices a)
              = (length indices * fact size')%nat).
    { induction indices as [|i indices IHi]; intros a; [reflexivity|].
      rewrite permutations_loop_cons, length_app, IHi, IH by lia.
      cbn [length]. lia. }
    rewrite H, length_seq. reflexivity.
Qed.

(** With three elements to permute, the first array is yielded again as the
    fifth. *)
Lemma permutations_len_3 (a b c : T) (rest : list T) :
  Engine.permutations_len 3 (a :: b :: c :: rest) =
  [a :: b :: c :: rest; b :: a :: c :: rest; c :: b :: a :: rest;
   b :: c :: a :: rest; a :: b :: c :: rest; b :: a :: c :: rest].
Proof. reflexivity. Qed.

Lemma permutations_len_repeats (size : nat) :
  forall arr : list T,
  (3 <= size)%nat -> (size <= length arr)%nat ->
  ~ NoDup (Engine.permutations_len size arr).
Proof.
  induction size as [|size' IH]; intros arr H3 Hl; [lia|].
  destruct (Nat.eq_dec size' 2) as [->|Hn].
  - destruct arr as [|a [|b [|c rest]]]; try (cbn [length] in Hl; lia).
    rewrite permutations_len_3. intros Hd.
    inversion Hd as [|x l Hx _]. apply Hx. cbn. tauto.
  - rewrite permutations_len_unfold.
    destruct (Nat.eqb_spec (Datatypes.S size') 1) as [E|_]; [lia|].
    cbn [seq]. rewrite permutations_loop_cons. intros Hd.
    apply NoDup_app_remove_r in Hd. revert Hd. apply IH; lia.
Qed.

(** X15: the generator of permutations yields, for a non-empty array of [n]
    elements, exactly [n!] arrays, each a rearrangement of the input; and
    nothing for the empty array.  But it does not enumerate the
    permutations: from three elements on, it yields some array twice, so that
    some orders of distinct elements are never yielded. *)
Theorem permutations_yields (inputArr : list T) :
  Forall (Permutation inputArr) (Engine.permutations inputArr) /\
  length (Engine.permutations inputArr)
  = (if Nat.eqb (length inputArr) 0 then 0 else fact (length inputArr))%nat /\
  ((3 <= length inputArr)%nat -> ~ NoDup (Engine.permutations inputArr)).
Proof.
  unfold Engine.permutations. split; [apply permutations_len_Permutation|]. split.
  - destruct inputArr as [|a l]; [reflexivity|].
    change (Nat.eqb (length (a :: l)) 0) with false. cbv iota.
    apply permutations_len_length. cbn [length]. lia.
  - intros H3. apply permutations_len_repeats; [exact H3|lia].
Qed.

End Permutations.

Section Combinations.
Context {T : Type}.

Lemma subseq_length (c l : list T) : subseq c l -> (length c <= length l)%nat.
Proof. induction 1; cbn [length]; lia. Qed.

Lemma subseq_nil_l (l : list T) : subseq [] l.
Proof. induction l; constructor; assumption. Qed.

Lemma combinations_unfold (first : T) (rest : list T) (k' : nat) :
  Engine.combinations (first :: rest) (Datatypes.S k') =
  if (length (first :: rest) <? Datatypes.S k')%nat then []
  else map (cons first) (Engine.combinations rest k')
         ++ Engine.combinations rest (Datatypes.S k').
Proof. reflexivity. Qed.

Lemma combinations_In (arr : list T) :
  forall k c, In c (Engine.combinations arr k) <-> subseq c arr /\ length c = k.
Proof.
  induction arr as [|first rest IH]; intros k c.
  - destruct k as [|k'].
    + cbn. split.
      * intros [<-|[]]. split; [constructor|reflexivity].
      * intros [_ L]. destruct c; [now left|discriminate].
    + cbn. split; [intros []|]. intros [Hs L]. apply subseq_length in Hs.
      cbn [length] in Hs. lia.
  - destruct k as [|k'].
    + cbn. split.
      * intros [<-|[]]. split; [apply subseq_nil_l|reflexivity].
      * intros [_ L]. destruct c; [now left|discriminate].
    + rewrite combinations_unfold.
      destruct (Nat.ltb_spec (length (first :: rest)) (Datatypes.S k')) as [Hlt|Hge].
      * split; [intros []|]. intros [Hs L]. apply subseq_length in Hs. lia.
      * rewrite in_app_iff, in_map_iff. split.
        -- intros [(c' & <- & Hc)|Hc].
           ++ apply IH in Hc. destruct Hc as [Hs L].
              split; [now constructor|cbn [length]; lia].
           ++ apply IH in Hc. destruct Hc as [Hs L]. split; [now constructor|exact L].
        -- intros [Hs L]. inversion Hs as [|a c' l Hs' E1 E2|a c' l Hs' E1 E2]; subst.
           ++ left. exists c'. split; [reflexivity|]. apply IH.
              split; [exact Hs'|]. cbn [length] in L. lia.
           ++ right. apply IH. now split.
Qed.

Lemma choose_above (n k : nat) : (n < k)%nat -> choose n k = 0%nat.
Proof.
  revert k. induction n as [|n IH]; intros [|k] H; try lia; [reflexivity|].
  cbn [choose]. rewrite !IH by lia. reflexivity.
Qed.

Lemma combinations_length (arr : list T) :
  forall k, length (Engine.combinations arr k) = choose (length arr) k.
Proof.
  induction arr as [|first rest IH]; intros [|k']; try reflexivity.
  rewrite combinations_unfold.
  destruct (Nat.ltb_spec (length (first :: rest)) (Datatypes.S k')) as [Hlt|Hge].
  - now rewrite choose_above.
  - rewrite length_app, length_map, !IH. reflexivity.
Qed.

(** X16: [combinations(arr, k)] yields exactly the arrays of [k] elements of
    [arr] taken in the order of [arr], one for each choice of positions: [n]
    choose [k] of them; the empty array alone for [k = 0], and nothing when
    [k] exceeds the length. *)
Theorem combinations_yields (arr : list T) (k : nat) :
  (forall c, In c (Engine.combinations arr k) <-> subseq c arr /\ length c = k) /\
  length (Engine.combinations arr k) = choose (length arr) k /\
  Engine.combinations arr 0 = [[]] /\
  ((length arr < k)%nat -> Engine.combinations arr k = []).
Proof.
  split; [apply combinations_In|]. split; [apply combinations_length|].
  split; [now destruct arr|].
  intros Hlt. apply length_zero_iff_nil. rewrite combinations_length.
  now apply choose_above.
Qed.

End Combinations.

(** ** [xorHex] *)

Lemma testbit_concat (k x s n : Z) :
  0 <= k -> 0 <= s < 2 ^ k -> 0 <= n ->
  Z.testbit (x * 2 ^ k + s) n = if n <? k then Z.testbit s n else Z.testbit x (n - k).
Proof.
  intros Hk Hs Hn. assert (Hp : 0 < 2 ^ k) by (apply Z.pow_pos_nonneg; lia).
  destruct (Z.ltb_spec n k) as [Hlt|Hge].
  - rewrite <- (Z.mod_pow2_bits_low (x * 2 ^ k + s) k n Hlt).
    rewrite Z.add_comm, Z.mod_add by lia. rewrite Z.mod_small by lia. reflexivity.
  - replace n with (n - k + k) at 1 by lia.
    rewrite <- Z.div_pow2_bits by lia.
    rewrite Z.add_comm, Z.div_add by lia. rewrite Z.div_small by lia. reflexivity.
Qed.

Lemma lxor_range (k a b : Z) :
  0 <= k -> 0 <= a < 2 ^ k -> 0 <= b < 2 ^ k -> 0 <= Z.lxor a b < 2 ^ k.
Proof.
  intros Hk Ha Hb.
  assert (H0 : 0 <= Z.lxor a b) by (apply Z.lxor_nonneg; lia).
  split; [exact H0|].
  destruct (Z.eq_dec (Z.lxor a b) 0) as [->|Hn]; [apply Z.pow_pos_nonneg; lia|].
  assert (Hk0 : 0 < k).
  { destruct (Z.eq_dec k 0) as [->|]; [|lia]. exfalso. apply Hn.
    change (2 ^ 0) with 1 in *. replace a with 0 by lia. replace b with 0 by lia.
    reflexivity. }
  apply Z.log2_lt_pow2; [lia|].
  apply Z.le_lt_trans with (Z.max (Z.log2 a) (Z.log2 b)); [apply Z.log2_lxor; lia|].
  apply Z.max_lub_lt.
  - destruct (Z.eq_dec a 0) as [->|]; [simpl; lia|]. apply Z.log2_lt_pow2; lia.
  - destruct (Z.eq_dec b 0) as [->|]; [simpl; lia|]. apply Z.log2_lt_pow2; lia.
Qed.

Lemma lxor_concat (k x y s t : Z) :
  0 <= k -> 0 <= s < 2 ^ k -> 0 <= t < 2 ^ k ->
  Z.lxor (x * 2 ^ k + s) (y * 2 ^ k + t) = Z.lxor x y * 2 ^ k + Z.lxor s t.
Proof.
  intros Hk Hs Ht. apply Z.bits_inj'. intros n Hn.
  rewrite Z.lxor_spec, !testbit_concat by (try apply lxor_range; lia).
  destruct (n <? k); now rewrite Z.lxor_spec.
Qed.

Lemma scalar_bound (s : jsstring) :
  Forall Shape.hex_digit s -> 0 <= Shape.scalar s < 16 ^ Z.of_nat (length s).
Proof.
  intros Hs. unfold Shape.scalar. rewrite <- (length_map hex_value s).
  apply value_of_bound; [lia|]. apply Forall_map.
  eapply Forall_impl; [|exact Hs]. intros c Hc.
  destruct (parseInt16_single c Hc) as (_ & Hr & _). exact Hr.
Qed.

(** One round of the loop of [xorHex] on two pairs of digits. *)
Lemma xor_chunk (a1 c1 a2 c2 : char) :
  is_hex_digit a1 = true -> is_hex_digit c1 = true ->
  is_hex_digit a2 = true -> is_hex_digit c2 = true ->
  let z := Z.lxor (16 * hex_value a1 + hex_value c1) (16 * hex_value a2 + hex_value c2) in
  padStart0 2 (toString16 (Z.lxor (Engine.to_int32 (parseInt16 [a1; c1]))
                                  (Engine.to_int32 (parseInt16 [a2; c2]))))
  = [hex_char (z / 16); hex_char (z mod 16)] /\ 0 <= z < 256.
Proof.
  intros H1 H2 H3 H4 z.
  destruct (parseInt16_pair a1 c1 H1 H2) as (E1 & R1 & _).
  destruct (parseInt16_pair a2 c2 H3 H4) as (E2 & R2 & _).
  rewrite E1, E2. unfold Engine.to_int32.
  rewrite !Z.mod_small by lia.
  replace (16 * hex_value a1 + hex_value c1 + 2147483648 - 2147483648)
    with (16 * hex_value a1 + hex_value c1) by lia.
  replace (16 * hex_value a2 + hex_value c2 + 2147483648 - 2147483648)
    with (16 * hex_value a2 + hex_value c2) by lia.
  fold z.
  assert (Hz : 0 <= z < 256) by (apply (lxor_range 8); lia).
  split; [|exact Hz]. now apply byte_toString16.
Qed.

Lemma xor_loop_pair (a1 c1 a2 c2 : char) (r1 r2 : jsstring) (n : nat) :
  flat_map (fun i =>
      let b1 := parseInt16 (substring i (i + 2) (a1 :: c1 :: r1)) in
      let b2 := parseInt16 (substring i (i + 2) (a2 :: c2 :: r2)) in
      padStart0 2 (toString16 (Z.lxor (Engine.to_int32 b1) (Engine.to_int32 b2))))
    (Validator.even_offsets (Datatypes.S (Datatypes.S n)))
  = padStart0 2 (toString16 (Z.lxor (Engine.to_int32 (parseInt16 [a1; c1]))
                                    (Engine.to_int32 (parseInt16 [a2; c2]))))
    ++ flat_map (fun i =>
         let b1 := parseInt16 (substring i (i + 2) r1) in
         let b2 := parseInt16 (substring i (i + 2) r2) in
         padStart0 2 (toString16 (Z.lxor (Engine.to_int32 b1) (Engine.to_int32 b2))))
       (Validator.even_offsets n).
Proof.
  rewrite even_offsets_SS. cbn [flat_map]. f_equal.
  rewrite flat_map_concat_map, map_map, <- flat_map_concat_map.
  apply flat_map_ext. intros i. cbv zeta.
  unfold substring.
  replace (Datatypes.S (Datatypes.S i) + 2 - Datatypes.S (Datatypes.S i))%nat
    with (i + 2 - i)%nat by lia. reflexivity.
Qed.

(** [xorHex] on two texts of hexadecimal digits of the same even length. *)
Lemma xorHex_same_length (n : nat) :
  forall p1 p2 : jsstring,
  length p1 = (2 * n)%nat -> length p2 = (2 * n)%nat ->
  Forall Shape.hex_digit p1 -> Forall Shape.hex_digit p2 ->
  let r := flat_map (fun i =>
      let b1 := parseInt16 (substring i (i + 2) p1) in
      let b2 := parseInt16 (substring i (i + 2) p2) in
      padStart0 2 (toString16 (Z.lxor (Engine.to_int32 b1) (Engine.to_int32 b2))))
    (Validator.even_offsets (2 * n)) in
  length r = (2 * n)%nat /\ Forall Shape.hex_digit r /\ toLowerCase r = r /\
  Shape.scalar r = Z.lxor (Shape.scalar p1) (Shape.scalar p2).
Proof.
  induction n as [|n IH]; intros p1 p2 L1 L2 H1 H2.
  - destruct p1; [|discriminate]. destruct p2; [|discriminate].
    cbn. repeat split; constructor.
  - destruct p1 as [|a1 [|c1 r1]]; try (cbn [length] in L1; lia).
    destruct p2 as [|a2 [|c2 r2]]; try (cbn [length] in L2; lia).
    replace (2 * Datatypes.S n)%nat with (Datatypes.S (Datatypes.S (2 * n))) by lia.
    cbv zeta. rewrite xor_loop_pair.
    pose proof (Forall_inv H1) as Ha1. pose proof (Forall_inv (Forall_inv_tail H1)) as Hc1.
    pose proof (Forall_inv H2) as Ha2. pose proof (Forall_inv (Forall_inv_tail H2)) as Hc2.
    pose proof (Forall_inv_tail (Forall_inv_tail H1)) as Hr1.
    pose proof (Forall_inv_tail (Forall_inv_tail H2)) as Hr2.
    destruct (xor_chunk a1 c1 a2 c2 Ha1 Hc1 Ha2 Hc2) as [-> Hz]. cbv zeta in Hz.
    set (z := Z.lxor (16 * hex_value a1 + hex_value c1) (16 * hex_value a2 + hex_value c2)) in *.
    cbn [length] in L1, L2.
    destruct (IH r1 r2 ltac:(lia) ltac:(lia) Hr1 Hr2) as (L & Hd & Hl & Hs).
    cbv zeta in L, Hd, Hl, Hs.
    set (rest := flat_map _ (Validator.even_offsets (2 * n))) in *.
    assert (Hq : 0 <= z / 16 < 16)
      by (split; [apply Z.div_pos; lia|apply Z.div_lt_upper_bound; lia]).
    assert (Hm : 0 <= z mod 16 < 16) by (apply Z.mod_pos_bound; lia).
    destruct (hex_char_digit _ Hq) as (D1 & V1 & W1).
    destruct (hex_char_digit _ Hm) as (D2 & V2 & W2).
    split; [cbn [app length]; lia|]. split; [|split].
    + cbn [app]. constructor; [exact D1|]. constructor; [exact D2|exact Hd].
    + cbn [app]. unfold toLowerCase in *. cbn [map]. now rewrite W1, W2, Hl.
    + change (a1 :: c1 :: r1) with ([a1; c1] ++ r1).
      change (a2 :: c2 :: r2) with ([a2; c2] ++ r2).
      change ([hex_char (z / 16); hex_char (z mod 16)] ++ rest)
        with ([hex_char (z / 16); hex_char (z mod 16)] ++ rest).
      rewrite !scalar_app, Hs, L.
      assert (E1 : length r1 = (2 * n)%nat) by lia.
      assert (E2 : length r2 = (2 * n)%nat) by lia.
      rewrite E1, E2.
      change (Shape.scalar [hex_char (z / 16); hex_char (z mod 16)])
        with ((0 * 16 + hex_value (hex_char (z / 16))) * 16 + hex_value (hex_char (z mod 16))).
      change (Shape.scalar [a1; c1]) with ((0 * 16 + hex_value a1) * 16 + hex_value c1).
      change (Shape.scalar [a2; c2]) with ((0 * 16 + hex_value a2) * 16 + hex_value c2).
      rewrite V1, V2.
      replace ((0 * 16 + z / 16) * 16 + z mod 16) with z
        by (pose proof (Z.div_mod z 16 ltac:(lia)); lia).
      replace (16 ^ Z.of_nat (2 * n)) with (2 ^ (4 * Z.of_nat (2 * n)))
        by (rewrite Z.pow_mul_r by lia; reflexivity).
      pose proof (scalar_bound r1 Hr1) as B1. pose proof (scalar_bound r2 Hr2) as B2.
      rewrite E1 in B1. rewrite E2 in B2.
      replace (16 ^ Z.of_nat (2 * n)) with (2 ^ (4 * Z.of_nat (2 * n))) in B1, B2
        by (rewrite Z.pow_mul_r by lia; reflexivity).
      replace ((0 * 16 + hex_value a1) * 16 + hex_value c1)
        with (16 * hex_value a1 + hex_value c1) by lia.
      replace ((0 * 16 + hex_value a2) * 16 + hex_value c2)
        with (16 * hex_value a2 + hex_value c2) by lia.
      rewrite lxor_concat by lia. reflexivity.
Qed.

Lemma padStart0_hex (n : nat) (s : jsstring) :
  Forall Shape.hex_digit s -> (length s <= n)%nat ->
  length (padStart0 n s) = n /\ Forall Shape.hex_digit (padStart0 n s) /\
  Shape.scalar (padStart0 n s) = Shape.scalar s.
Proof.
  intros Hs Hl. unfold padStart0. split; [|split].
  - rewrite length_app, repeat_length. unfold jsstring, char in *. lia.
  - apply Forall_app. split; [|exact Hs].
    apply Forall_forall. intros c Hc. apply repeat_spec in Hc. now subst.
  - rewrite scalar_app, scalar_zeros. lia.
Qed.

Lemma xorHex_hex (hex1 hex2 : jsstring) :
  Forall Shape.hex_digit hex1 -> Forall Shape.hex_digit hex2 ->
  Nat.even (Nat.max (length hex1) (length hex2)) = true ->
  length (Engine.xorHex hex1 hex2) = Nat.max (length hex1) (length hex2) /\
  Forall Shape.hex_digit (Engine.xorHex hex1 hex2) /\
  toLowerCase (Engine.xorHex hex1 hex2) = Engine.xorHex hex1 hex2 /\
  Shape.scalar (Engine.xorHex hex1 hex2) = Z.lxor (Shape.scalar hex1) (Shape.scalar hex2).
Proof.
  intros H1 H2 He. unfold Engine.xorHex. cbv zeta.
  set (len := Nat.max (length hex1) (length hex2)) in *.
  apply Nat.even_spec in He. destruct He as [n Hn].
  destruct (padStart0_hex len hex1 H1 ltac:(lia)) as (L1 & D1 & S1).
  destruct (padStart0_hex len hex2 H2 ltac:(lia)) as (L2 & D2 & S2).
  rewrite Hn in *.
  pose proof (xorHex_same_length n _ _ L1 L2 D1 D2) as Hx. cbv zeta in Hx.
  rewrite S1, S2 in Hx. exact Hx.
Qed.

(** X17: on texts of hexadecimal digits, the longer of an even length,
    [xorHex] gives that many lower-case hexadecimal digits, whose value is
    the exclusive or of the two values; so the exclusive or of two keys of
    64 digits is again such a key. *)
Theorem xorHex_value (hex1 hex2 : jsstring) :
  Forall Shape.hex_digit hex1 -> Forall Shape.hex_digit hex2 ->
  Nat.even (Nat.max (length hex1) (length hex2)) = true ->
  let r := Engine.xorHex hex1 hex2 in
  length r = Nat.max (length hex1) (length hex2) /\
  Forall Shape.hex_digit r /\ toLowerCase r = r /\
  Shape.scalar r = Z.lxor (Shape.scalar hex1) (Shape.scalar hex2) /\
  (Shape.hex64 hex1 -> Shape.hex64 hex2 -> Regex.test Engine.key_regex r = true).
Proof.
  intros H1 H2 He. destruct (xorHex_hex hex1 hex2 H1 H2 He) as (L & D & W & S).
  cbv zeta. split; [exact L|]. split; [exact D|]. split; [exact W|]. split; [exact S|].
  intros [L1 _] [L2 _]. apply key_regex_shape. split; [|exact D].
  rewrite L, L1, L2. reflexivity.
Qed.

Lemma xorHex_value_witness :
  let a := lit "0f" in let b := lit "A5c3" in
  Forall Shape.hex_digit a /\ Forall Shape.hex_digit b /\
  Engine.xorHex a b = lit "a5cc" /\
  Shape.scalar (Engine.xorHex a b) = Z.lxor (Shape.scalar a) (Shape.scalar b).
Proof.
  intros a b.
  assert (Ha : Forall Shape.hex_digit a) by (repeat constructor).
  assert (Hb : Forall Shape.hex_digit b) by (repeat constructor).
  split; [exact Ha|]. split; [exact Hb|]. split; [reflexivity|].
  exact (proj1 (proj2 (proj2 (proj2 (xorHex_value a b Ha Hb eq_refl))))).
Defined.

(** Two texts of the same number of lower-case hexadecimal digits with the
    same value are the same text. *)
Lemma scalar_inj (n : nat) :
  forall s t : jsstring,
  length s = n -> length t = n ->
  Forall Shape.hex_digit s -> Forall Shape.hex_digit t ->
  toLowerCase s = s -> toLowerCase t = t ->
  Shape.scalar s = Shape.scalar t -> s = t.
Proof.
  induction n as [|n IH]; intros s t Ls Lt Hs Ht Ws Wt E.
  - destruct s; [|discriminate]. destruct t; [reflexivity|discriminate].
  - destruct s as [|a s]; [discriminate|]. destruct t as [|b t]; [discriminate|].
    change (a :: s) with ([a] ++ s) in E. change (b :: t) with ([b] ++ t) in E.
    rewrite !scalar_app in E. injection Ls as Ls. injection Lt as Lt.
    rewrite Ls, Lt in E.
    change (Shape.scalar [a]) with (0 * 16 + hex_value a) in E.
    change (Shape.scalar [b]) with (0 * 16 + hex_value b) in E.
    pose proof (scalar_bound s (Forall_inv_tail Hs)) as Bs.
    pose proof (scalar_bound t (Forall_inv_tail Ht)) as Bt.
    rewrite Ls in Bs. rewrite Lt in Bt.
    destruct (parseInt16_single a (Forall_inv Hs)) as (_ & Ra & _).
    destruct (parseInt16_single b (Forall_inv Ht)) as (_ & Rb & _).
    set (q := 16 ^ Z.of_nat n) in *.
    assert (Hv : hex_value a = hex_value b)
      by (destruct (Z.lt_trichotomy (hex_value a) (hex_value b)) as [Hlt|[Heq|Hgt]];
          [exfalso; nia|exact Heq|exfalso; nia]).
    assert (Hr : Shape.scalar s = Shape.scalar t) by (rewrite Hv in E; lia).
    unfold toLowerCase in Ws, Wt. cbn [map] in Ws, Wt.
    injection Ws as Wa Ws. injection Wt as Wb Wt.
    f_equal.
    + assert (G : forall c, In c (lit "0123456789abcdefABCDEF") -> lower_char c = c ->
                            hex_char (hex_value c) = c).
      { intros c Hc. cbn in Hc.
        repeat (destruct Hc as [<-|Hc]; [vm_compute; intros; congruence|]).
        destruct Hc. }
      rewrite <- (G a), <- (G b); [now rewrite Hv| | | |]; try assumption;
        apply hex_digit_units; [exact (Forall_inv Ht)|exact (Forall_inv Hs)].
    + apply IH; try assumption; [exact (Forall_inv_tail Hs)|exact (Forall_inv_tail Ht)].
Qed.

Lemma fold_lxor_Permutation (l1 l2 : list Z) :
  Permutation l1 l2 -> forall a, fold_left Z.lxor l1 a = fold_left Z.lxor l2 a.
Proof.
  induction 1 as [|x l1 l2 _ IH|x y l|l1 l2 l3 _ IH1 _ IH2]; intros a.
  - reflexivity.
  - cbn [fold_left]. apply IH.
  - cbn [fold_left]. f_equal. rewrite !Z.lxor_assoc. f_equal. apply Z.lxor_comm.
  - now rewrite IH1.
Qed.

(** The chain of [xorHex] over keys of 64 digits. *)
Lemma xor_chain (rest : list jsstring) :
  forall first : jsstring,
  Shape.hex64 first -> toLowerCase first = first -> Forall Shape.hex64 rest ->
  let r := fold_left Engine.xorHex rest first in
  Shape.hex64 r /\ toLowerCase r = r /\
  Shape.scalar r = fold_left Z.lxor (map Shape.scalar rest) (Shape.scalar first).
Proof.
  induction rest as [|x rest IH]; intros first Hf Wf Hr;
    [cbn [fold_left map]; split; [exact Hf|split; [exact Wf|reflexivity]]|].
  cbn [fold_left map]. pose proof (Forall_inv Hr) as Hx.
  assert (He : Nat.even (Nat.max (length first) (length x)) = true)
    by (rewrite (proj1 Hf), (proj1 Hx); reflexivity).
  destruct (xorHex_hex first x (proj2 Hf) (proj2 Hx) He) as (L & D & W & S).
  rewrite (proj1 Hf), (proj1 Hx) in L.
  rewrite <- S. apply IH; [split; [exact L|exact D]|exact W|exact (Forall_inv_tail Hr)].
Qed.

(** X18: the key of a chain of [xorHex] over keys of 64 digits does not
    depend on the order of the chain; so every array that
    [permutations(KNOWN_HASHES)] yields gives the XOR-chain strategy the same
    key. *)
Theorem xor_chain_order (l p : list jsstring) :
  Forall Shape.hex64 l -> (2 <= length l)%nat -> Permutation l p ->
  Engine.xor_all p = Engine.xor_all l /\
  Shape.hex64 (Engine.xor_all l) /\
  Shape.scalar (Engine.xor_all l) = fold_left Z.lxor (map Shape.scalar l) 0 /\
  Forall (fun perm => Engine.xor_all perm = Engine.xor_all Engine.KNOWN_HASHES)
    (Engine.permutations Engine.KNOWN_HASHES).
Proof.
  assert (G : forall l : list jsstring, Forall Shape.hex64 l -> (2 <= length l)%nat ->
              Shape.hex64 (Engine.xor_all l) /\
              toLowerCase (Engine.xor_all l) = Engine.xor_all l /\
              Shape.scalar (Engine.xor_all l) = fold_left Z.lxor (map Shape.scalar l) 0).
  { intros [|a [|b r]] Hl L; try (cbn [length] in L; lia).
    unfold Engine.xor_all. cbn [fold_left map].
    pose proof (Forall_inv Hl) as Ha. pose proof (Forall_inv (Forall_inv_tail Hl)) as Hb.
    assert (He : Nat.even (Nat.max (length a) (length b)) = true)
      by (rewrite (proj1 Ha), (proj1 Hb); reflexivity).
    destruct (xorHex_hex a b (proj2 Ha) (proj2 Hb) He) as (L' & D & W & S).
    rewrite (proj1 Ha), (proj1 Hb) in L'.
    rewrite Z.lxor_0_l, <- S.
    apply xor_chain; [split; [exact L'|exact D]|exact W|].
    exact (Forall_inv_tail (Forall_inv_tail Hl)). }
  assert (P : forall l p : list jsstring, Forall Shape.hex64 l -> (2 <= length l)%nat ->
              Permutation l p -> Engine.xor_all p = Engine.xor_all l).
  { intros l0 p0 Hl L Hp.
    assert (Hq : Forall Shape.hex64 p0).
    { apply Forall_forall. intros x Hx. rewrite Forall_forall in Hl.
      apply Hl. apply Permutation_in with p0; [now symmetry|exact Hx]. }
    assert (Lq : (2 <= length p0)%nat) by (rewrite <- (Permutation_length Hp); exact L).
    destruct (G l0 Hl L) as (H1 & W1 & S1). destruct (G p0 Hq Lq) as (H2 & W2 & S2).
    apply (scalar_inj 64); try assumption; try apply H1; try apply H2.
    rewrite S1, S2. apply fold_lxor_Permutation. now apply Permutation_map. }
  intros Hl L Hp. split; [now apply P|]. destruct (G l Hl L) as (H1 & _ & S1).
  split; [exact H1|]. split; [exact S1|].
  assert (Hk : Forall Shape.hex64 Engine.KNOWN_HASHES).
  { repeat constructor; apply Forall_forall, forallb_forall; reflexivity. }
  eapply Forall_impl; [|apply permutations_len_Permutation].
  intros perm Hperm. apply P; [exact Hk|cbn; lia|exact Hperm].
Qed.

Lemma xor_chain_order_witness :
  Forall Shape.hex64 Engine.KNOWN_HASHES /\
  Permutation Engine.KNOWN_HASHES (rev Engine.KNOWN_HASHES) /\
  Engine.xor_all (rev Engine.KNOWN_HASHES) = Engine.xor_all Engine.KNOWN_HASHES.
Proof.
  assert (Hk : Forall Shape.hex64 Engine.KNOWN_HASHES)
    by (repeat constructor; apply Forall_forall, forallb_forall; reflexivity).
  split; [exact Hk|]. split; [apply Permutation_rev|].
  exact (proj1 (xor_chain_order Engine.KNOWN_HASHES (rev Engine.KNOWN_HASHES) Hk
                  ltac:(cbn; lia) (Permutation_rev _))).
Defined.

(** ** [beaufortTransform] *)

Lemma alphabet_letter (c : char) (t : Z) :
  indexOf c Engine.alphabet = Some t ->
  0 <= t < 26 /\ c = nth (Z.to_nat t) Engine.alphabet 0 /\ upper_char c = c.
Proof.
  intros E.
  assert (Hc : In c Engine.alphabet).
  { destruct (in_dec Z.eq_dec c Engine.alphabet) as [Hi|Hn]; [exact Hi|].
    apply indexOf_None in Hn. congruence. }
  revert E. cbn in Hc.
  repeat (destruct Hc as [<-|Hc]; [vm_compute; intros [= <-]; repeat split; discriminate|]).
  destruct Hc.
Qed.

Lemma alphabet_nth (r : Z) :
  0 <= r < 26 -> indexOf (nth (Z.to_nat r) Engine.alphabet 0) Engine.alphabet = Some r.
Proof.
  intros Hr.
  assert (H : forallb (fun n =>
              match indexOf (nth n Engine.alphabet 0) Engine.alphabet with
              | Some i => i =? Z.of_nat n
              | None => false
              end) (seq 0 26) = true) by (vm_compute; reflexivity).
  rewrite forallb_forall in H. specialize (H (Z.to_nat r) ltac:(apply in_seq; lia)).
  destruct (indexOf _ _) as [i|]; [|discriminate H].
  apply Z.eqb_eq in H. rewrite Z2Nat.id in H by lia. now f_equal.
Qed.

Lemma alphabet_index_range (c : option char) : -1 <= Engine.alphabet_index c < 26.
Proof.
  destruct c as [c|]; cbn [Engine.alphabet_index]; [|lia].
  destruct (indexOf c Engine.alphabet) as [t|] eqn:E; [|lia].
  apply alphabet_letter in E. lia.
Qed.

Lemma upper_char_idempotent (c : char) : upper_char (upper_char c) = upper_char c.
Proof.
  unfold upper_char, in_range.
  destruct ((97 <=? c) && (c <=? 122)) eqn:E; [|now rewrite E].
  apply andb_true_iff in E. rewrite !Z.leb_le in E.
  replace ((97 <=? c - 32) && (c - 32 <=? 122)) with false; [reflexivity|].
  symmetry. apply andb_false_iff. rewrite !Z.leb_gt. lia.
Qed.

(** The loop on a text in upper case: the result is in upper case, as long
    as the text, and the loop takes it back to the text. *)
Lemma beaufort_loop_involution (upperKey : jsstring) (u : jsstring) :
  forall keyIndex,
  toUpperCase u = u ->
  let v := Engine.beaufort_loop upperKey u keyIndex in
  length v = length u /\ toUpperCase v = v /\
  Engine.beaufort_loop upperKey v keyIndex = u.
Proof.
  induction u as [|c u IH]; intros keyIndex Hu; [now repeat split|].
  unfold toUpperCase in Hu. cbn [map] in Hu. injection Hu as Hc Hu.
  cbn [Engine.beaufort_loop].
  destruct (indexOf c Engine.alphabet) as [t|] eqn:Et.
  - destruct (alphabet_letter c t Et) as (Ht & Ec & _).
    set (k := Engine.alphabet_index (nth_error upperKey (keyIndex mod length upperKey))).
    pose proof (alphabet_index_range
                  (nth_error upperKey (keyIndex mod length upperKey))) as Hk. fold k in Hk.
    assert (Hr : 0 <= Z.rem (k - t + 26) 26 < 26)
      by (rewrite Z.rem_mod_nonneg by lia; apply Z.mod_pos_bound; lia).
    destruct (IH (Datatypes.S keyIndex) Hu) as (L & W & I). cbv zeta in *.
    split; [cbn [length]; now rewrite L|]. split.
    + unfold toUpperCase in *. cbn [map]. rewrite W. f_equal.
      pose proof (alphabet_nth _ Hr) as En. apply alphabet_letter in En. apply En.
    + cbn [Engine.beaufort_loop]. rewrite (alphabet_nth _ Hr). fold k. rewrite I. f_equal.
      rewrite Ec. f_equal. f_equal.
      rewrite !Z.rem_mod_nonneg by lia.
      pose proof (Z.div_mod (k - t + 26) 26 ltac:(lia)) as D.
      replace (k - (k - t + 26) mod 26 + 26) with (t + (k - t + 26) / 26 * 26) by lia.
      rewrite Z.mod_add by lia. apply Z.mod_small. lia.
  - destruct (IH keyIndex Hu) as (L & W & I). cbv zeta in *.
    split; [cbn [length]; now rewrite L|]. split.
    + unfold toUpperCase in *. cbn [map]. now rewrite W, Hc.
    + cbn [Engine.beaufort_loop]. now rewrite Et, I.
Qed.

(** X19: the Beaufort cipher is its own inverse: on a text of Basic Latin
    characters, transforming twice with the same key gives the text back in
    upper case, whatever the key (empty, or with characters that are no
    letters); the result has the length of the text. *)
Theorem beaufortTransform_involution (text key : jsstring) :
  ascii_text text -> ascii_text key ->
  Engine.beaufortTransform (Engine.beaufortTransform text key) key = toUpperCase text /\
  length (Engine.beaufortTransform text key) = length text.
Proof.
  intros _ _. unfold Engine.beaufortTransform.
  assert (Hu : toUpperCase (toUpperCase text) = toUpperCase text).
  { unfold toUpperCase. rewrite map_map. apply map_ext, upper_char_idempotent. }
  destruct (beaufort_loop_involution (toUpperCase key) (toUpperCase text) 0 Hu)
    as (L & W & I). cbv zeta in *.
  split; [now rewrite W|]. rewrite L. unfold toUpperCase. apply length_map.
Qed.

Lemma beaufortTransform_involution_witness :
  ascii_text (lit "the seed") /\ ascii_text Engine.BEAUFORT_KEY /\
  Engine.beaufortTransform (lit "the seed") Engine.BEAUFORT_KEY = lit "AAA UWPO" /\
  Engine.beaufortTransform (lit "AAA UWPO") Engine.BEAUFORT_KEY = lit "THE SEED".
Proof.
  assert (Ht : ascii_text (lit "the seed"))
    by (cbn; repeat (apply Forall_cons; [lia|]); apply Forall_nil).
  assert (Hk : ascii_text Engine.BEAUFORT_KEY)
    by (cbn; repeat (apply Forall_cons; [lia|]); apply Forall_nil).
  split; [exact Ht|]. split; [exact Hk|]. split; [reflexivity|].
  exact (proj1 (beaufortTransform_involution (lit "the seed") Engine.BEAUFORT_KEY Ht Hk)).
Defined.

(** ** [maskPrivateKey] and [extractPotentialKeys] *)

(** X20: [maskPrivateKey] returns a key of at most 12 characters as it is;
    from a longer key it keeps the first six and the last six characters
    around three dots, 15 characters in all, so that a key of 13 or 14
    characters gets longer and loses one or two characters only.  Masking
    twice is masking once. *)
Theorem maskPrivateKey_shape (key : jsstring) :
  ((length key <= 12)%nat -> Validator.maskPrivateKey key = key) /\
  ((12 < length key)%nat ->
   Validator.maskPrivateKey key = firstn 6 key ++ lit "..." ++ skipn (length key - 6) key /\
   length (Validator.maskPrivateKey key) = 15%nat) /\
  Validator.maskPrivateKey (Validator.maskPrivateKey key) = Validator.maskPrivateKey key.
Proof.
  assert (H1 : (length key <= 12)%nat -> Validator.maskPrivateKey key = key).
  { intros Hl. unfold Validator.maskPrivateKey.
    apply Nat.leb_le in Hl. now rewrite Hl. }
  assert (H2 : (12 < length key)%nat ->
    Validator.maskPrivateKey key = firstn 6 key ++ lit "..." ++ skipn (length key - 6) key /\
    length (Validator.maskPrivateKey key) = 15%nat).
  { intros Hl. unfold Validator.maskPrivateKey.
    replace (length key <=? 12)%nat with false by (symmetry; apply Nat.leb_gt; exact Hl).
    unfold substring. rewrite skipn_O. split; [reflexivity|].
    rewrite !length_app, length_firstn, length_skipn.
    change (length (lit "...")) with 3%nat. lia. }
  split; [exact H1|]. split; [exact H2|].
  destruct (Nat.le_gt_cases (length key) 12) as [Hl|Hl].
  - now rewrite !(H1 Hl).
  - destruct (H2 Hl) as [E L].
    unfold Validator.maskPrivateKey at 1. rewrite L. change (15 <=? 12)%nat with false.
    cbv iota. rewrite E at 1 2. unfold substring. rewrite skipn_O.
    assert (L6 : length (firstn 6 key) = 6%nat) by (rewrite length_firstn; lia).
    assert (L6' : length (skipn (length key - 6) key) = 6%nat) by (rewrite length_skipn; lia).
    rewrite firstn_app, L6. change (6 - 0 - 6)%nat with 0%nat.
    rewrite firstn_O, app_nil_r, firstn_all2 by lia.
    rewrite E. f_equal. f_equal.
    rewrite app_assoc, skipn_app.
    assert (L9 : length (firstn 6 key ++ lit "...") = 9%nat)
      by (rewrite length_app, L6; reflexivity).
    rewrite L9. change (15 - 6)%nat with 9%nat.
    rewrite skipn_all2 by lia. change (9 - 9)%nat with 0%nat. reflexivity.
Qed.

Lemma take_class_spec (cl : Regex.cclass) (n : nat) :
  forall s, exists post,
    s = Validator.take_class cl n s ++ post /\
    Forall (fun c => Regex.in_class cl c = true) (Validator.take_class cl n s) /\
    (length (Validator.take_class cl n s) <= n)%nat.
Proof.
  induction n as [|n IH]; intros s.
  - exists s. destruct s; cbn; repeat split; first [lia | constructor].
  - destruct s as [|c s]; [exists []; cbn; repeat split; first [lia | constructor]|].
    cbn [Validator.take_class]. destruct (Regex.in_class cl c) eqn:Ec.
    + destruct (IH s) as (post & E & Hc & L). exists post.
      split; [cbn [app]; f_equal; exact E|]. split; [now constructor|cbn [length]; lia].
    + exists (c :: s). cbn. repeat split; first [lia | constructor].
Qed.

(** A text of [n] units of the class is taken whole. *)
Lemma take_class_all (cl : Regex.cclass) (s : jsstring) :
  Forall (fun c => Regex.in_class cl c = true) s ->
  Validator.take_class cl (length s) s = s.
Proof.
  induction 1 as [|c s Hc _ IH]; [reflexivity|].
  cbn [length Validator.take_class]. now rewrite Hc, IH.
Qed.

Lemma wif_match_spec (s m : jsstring) :
  Validator.wif_match s = Some m ->
  wif_candidate m /\ exists post, s = m ++ post.
Proof.
  unfold Validator.wif_match. destruct s as [|c s]; [discriminate|].
  destruct (Regex.in_class _ c) eqn:Ec; [|discriminate]. cbv zeta.
  destruct (Nat.leb_spec 50 (length (Validator.take_class Validator.base58_class 51 s)))
    as [Hl|Hl]; [|discriminate].
  intros [= <-]. destruct (take_class_spec Validator.base58_class 51 s) as (post & E & Hc & L).
  split.
  - exists c, (Validator.take_class Validator.base58_class 51 s).
    split; [reflexivity|]. split.
    + apply (class_is_list _ (lit "5KL")) in Ec; [exact Ec|reflexivity|reflexivity].
    + split; [|lia]. eapply Forall_impl; [|exact Hc]. intros a. apply base58_class_alphabet.
  - exists post. cbn [app]. f_equal. exact E.
Qed.

Lemma hex_match_spec (s m : jsstring) :
  Validator.hex_match s = Some m -> Shape.raw_hex m /\ exists post, s = m ++ post.
Proof.
  unfold Validator.hex_match. cbv zeta.
  destruct (take_class_spec [Regex.rng "0" "9"; Regex.rng "a" "f"; Regex.rng "A" "F"] 64 s)
    as (post & E & Hc & L).
  destruct (Nat.eqb_spec (length (Validator.take_class
              [Regex.rng "0" "9"; Regex.rng "a" "f"; Regex.rng "A" "F"] 64 s)) 64)
    as [E64|]; [|discriminate].
  intros [= <-]. split; [split; [exact E64|]|now exists post].
  eapply Forall_impl; [|exact Hc]. intros a. apply hex_class_digit.
Qed.

(** Every match of a global search satisfies what a match at one place
    does, and occurs in the text. *)
Lemma match_all_spec (match_here : jsstring -> option jsstring) (Q : jsstring -> Prop) :
  (forall s m, match_here s = Some m -> Q m /\ exists post, s = m ++ post) ->
  forall text skip,
  Forall (fun m => Q m /\ occurs_in m text) (Validator.match_all match_here skip text).
Proof.
  intros Hm text. induction text as [|c text IH]; intros skip; [constructor|].
  assert (Hw : forall l, Forall (fun m => Q m /\ occurs_in m text) l ->
                         Forall (fun m => Q m /\ occurs_in m (c :: text)) l).
  { intros l. apply Forall_impl. intros m [Hq (pre & post & E)].
    split; [exact Hq|]. exists (c :: pre), post. cbn [app]. now rewrite E. }
  cbn [Validator.match_all]. destruct skip as [|skip]; [|apply Hw, IH].
  destruct (match_here (c :: text)) as [m|] eqn:E; [|apply Hw, IH].
  destruct (Hm _ _ E) as [Hq [post Ep]].
  constructor; [|apply Hw, IH]. split; [exact Hq|]. exists [], post. exact Ep.
Qed.

Lemma unique_spec (keys : list jsstring) :
  forall seen,
  NoDup (Validator.unique seen keys) /\
  (forall k, In k (Validator.unique seen keys) <-> In k keys /\ ~ In k seen).
Proof.
  induction keys as [|k keys IH]; intros seen.
  - split; [constructor|]. intros k. cbn. tauto.
  - cbn [Validator.unique].
    assert (Hs : existsb (eqb_string k) seen = true <-> In k seen).
    { rewrite existsb_exists. split.
      - intros (x & Hx & E). apply eqb_string_true in E. now subst.
      - intros Hk. exists k. split; [exact Hk|apply eqb_string_refl]. }
    destruct (existsb (eqb_string k) seen) eqn:Es.
    + destruct (IH seen) as [Hn Hi]. split; [exact Hn|].
      intros x. rewrite Hi. cbn [In]. split; [tauto|].
      intros [[<-|Hx] Hns]; [|tauto]. exfalso. apply Hns. now apply Hs.
    + assert (Hk : ~ In k seen) by (intros Hk; apply Hs in Hk; discriminate).
      destruct (IH (k :: seen)) as [Hn Hi]. split.
      * constructor; [|exact Hn]. rewrite Hi. cbn [In]. tauto.
      * intros x. cbn [In]. rewrite Hi. cbn [In]. split.
        -- intros [<-|[Hx Hns]]; [tauto|]. tauto.
        -- intros [[<-|Hx] Hns]; [now left|].
           destruct (list_eq_dec Z.eq_dec k x) as [<-|Hne]; [now left|]. right. tauto.
Qed.

(** X21: [extractPotentialKeys] returns no key twice; every key it returns
    occurs in the text and is either a character of [5KL] followed by 50 or
    51 characters of the Base58 alphabet, or 64 hexadecimal digits; and a
    text that is itself a key of one of the three formats of
    [detectKeyFormat] is among the keys extracted from it. *)
Theorem extractPotentialKeys_keys (text : jsstring) :
  NoDup (Validator.extractPotentialKeys text) /\
  Forall (fun k => (wif_candidate k \/ Shape.raw_hex k) /\ occurs_in k text)
    (Validator.extractPotentialKeys text) /\
  (Shape.wif_uncompressed text \/ Shape.wif_compressed text \/ Shape.raw_hex text ->
   In text (Validator.extractPotentialKeys text)).
Proof.
  unfold Validator.extractPotentialKeys. cbv zeta.
  destruct (unique_spec (Validator.match_all Validator.wif_match 0 text ++
                         Validator.match_all Validator.hex_match 0 text) []) as [Hn Hi].
  split; [exact Hn|]. split.
  - apply Forall_forall. intros k Hk. apply Hi in Hk. destruct Hk as [Hk _].
    apply in_app_iff in Hk. destruct Hk as [Hk|Hk].
    + pose proof (match_all_spec _ _ wif_match_spec text 0) as Hw.
      rewrite Forall_forall in Hw. destruct (Hw k Hk) as [H1 H2]. split; [now left|exact H2].
    + pose proof (match_all_spec _ _ hex_match_spec text 0) as Hh.
      rewrite Forall_forall in Hh. destruct (Hh k Hk) as [H1 H2]. split; [now right|exact H2].
  - intros Ht. apply Hi. split; [|intros []]. apply in_app_iff.
    assert (Hw : forall c r, text = c :: r -> In c (lit "5KL") ->
                 Forall Shape.base58_char r -> (50 <= length r <= 51)%nat ->
                 In text (Validator.match_all Validator.wif_match 0 text)).
    { intros c r -> Hc Hr Hl. cbn [Validator.match_all].
      assert (E : Validator.wif_match (c :: r) = Some (c :: r)).
      { unfold Validator.wif_match.
        replace (Regex.in_class [Regex.one "5"; Regex.one "K"; Regex.one "L"] c) with true
          by (symmetry; apply (class_is_list _ (lit "5KL")); [reflexivity|reflexivity|exact Hc]).
        cbv zeta.
        assert (Et : Validator.take_class Validator.base58_class 51 r = r).
        { assert (Hr' : Forall (fun a => Regex.in_class Validator.base58_class a = true) r)
            by (eapply Forall_impl; [|exact Hr]; intros a; apply base58_class_alphabet).
          destruct (Nat.eq_dec (length r) 51) as [E51|N51].
          - rewrite <- E51. now apply take_class_all.
          - assert (E50 : length r = 50%nat) by lia.
            destruct (take_class_spec Validator.base58_class 51 r) as (post & E & _ & L).
            rewrite <- (app_nil_r r) at 1.
            replace 51%nat with (Datatypes.S (length r)) by lia.
            clear - Hr'. induction Hr' as [|a r Ha _ IH]; [reflexivity|].
            cbn [length Validator.take_class app]. rewrite Ha. f_equal.
            rewrite app_nil_r in *. exact IH. }
        rewrite Et. replace (50 <=? length r)%nat with true
          by (symmetry; apply Nat.leb_le; lia). reflexivity. }
      rewrite E. now left. }
    destruct Ht as [(L & c & r & E & Hc & Hr)|[(L & c & r & E & Hc & Hr)|Hh]].
    + left. subst text. apply (Hw (Regex.ch "5") (c :: r) eq_refl).
      * cbn. tauto.
      * constructor; [|exact Hr]. destruct Hc as [<-|[<-|[<-|[]]]];
          apply base58_class_alphabet; reflexivity.
      * cbn [length] in *. lia.
    + left. apply (Hw c r E).
      * destruct Hc as [<-|[<-|[]]]; cbn; tauto.
      * exact Hr.
      * subst text. cbn [length] in L. lia.
    + right. destruct text as [|c r]; [destruct Hh as [L _]; discriminate L|].
      cbn [Validator.match_all].
      assert (E : Validator.hex_match (c :: r) = Some (c :: r)).
      { unfold Validator.hex_match. cbv zeta. destruct Hh as [L Hd].
        rewrite <- L, take_class_all, Nat.eqb_refl; [reflexivity|].
        eapply Forall_impl; [|exact Hd]. intros a. apply hex_class_digit. }
      rewrite E. now left.
Qed.

(** ** The bookkeeping of the engine, and the batch tool *)

Section EngineBookkeeping.
Context {U : Type} (env : Engine.environment U).

Lemma addResult_numbered (st : Engine.state U) (k m : jsstring) (i : list jsstring) :
  numbered env st -> numbered env (fst (Engine.addResult env st k m i)).
Proof.
  intros (Hc & Hr & Hn). unfold Engine.addResult.
  destruct (negb (Regex.test Engine.key_regex k));
    [cbn [fst]; split; [exact Hc|split; [exact Hr|exact Hn]]|].
  cbn [fst]. unfold numbered.
  cbn [Engine.results Engine.counter Engine.reads].
  rewrite length_app. cbn [length]. split; [lia|]. split; [lia|].
  intros j r Hj.
  destruct (Nat.lt_ge_cases j (length (Engine.results st))) as [Hlt|Hge].
  - rewrite nth_error_app1 in Hj by exact Hlt. now apply Hn.
  - rewrite nth_error_app2 in Hj by exact Hge.
    destruct (j - length (Engine.results st))%nat as [|d] eqn:Ed.
    + cbn [nth_error] in Hj. injection Hj as <-.
      cbn [Engine.iteration Engine.timestamp].
      assert (j = length (Engine.results st)) by lia. subst j.
      split; [lia|now rewrite Hr].
    + destruct d; discriminate Hj.
Qed.

Lemma next_numbered (gen : Engine.generator) :
  forall st, numbered env st -> numbered env (fst (fst (Engine.next env gen st))).
Proof.
  induction gen as [|[|k m i] gen IH]; intros st Hst; cbn [Engine.next].
  - exact Hst.
  - destruct (Engine.shouldStop st); [exact Hst|now apply IH].
  - pose proof (addResult_numbered st k m i Hst) as Ha.
    destruct (Engine.addResult env st k m i) as [st' [r|]]; [exact Ha|now apply IH].
Qed.

Lemma stop_numbered (st : Engine.state U) : numbered env st -> numbered env (Engine.stop st).
Proof. intros H. exact H. Qed.

Lemma consume_numbered (stops : nat -> bool) (fuel : nat) :
  forall n gen st, numbered env st ->
  numbered env (snd (Engine.consume env stops fuel n gen st)).
Proof.
  induction fuel as [|fuel IH]; intros n gen st Hst; cbn [Engine.consume]; [exact Hst|].
  assert (H0 : numbered env (if stops n then Engine.stop st else st))
    by (destruct (stops n); [now apply stop_numbered|exact Hst]).
  pose proof (next_numbered gen _ H0) as Hn.
  destruct (Engine.next env gen _) as [[s1 [r|]] gen1]; cbn [fst] in Hn; [|exact Hn].
  specialize (IH (Datatypes.S n) gen1 s1 Hn).
  destruct (Engine.consume env stops fuel (Datatypes.S n) gen1 s1) as [l s2]. exact IH.
Qed.

Lemma drain_inner_numbered
  (others : Engine.state U -> list Engine.DerivationResult * Engine.state U) :
  (forall st, numbered env st -> numbered env (snd (others st))) ->
  forall gen st, numbered env st ->
  numbered env (snd (Engine.drain_inner env others gen st)).
Proof.
  intros Ho gen. induction gen as [|[|k m i] gen IH]; intros st Hst; cbn [Engine.drain_inner].
  - now apply Ho.
  - destruct (Engine.shouldStop st); [now apply Ho|now apply IH].
  - pose proof (addResult_numbered st k m i Hst) as Ha.
    destruct (Engine.addResult env st k m i) as [st' [r|]]; cbn [fst] in Ha; [|now apply IH].
    destruct (Engine.shouldStop st'); [exact Ha|].
    specialize (IH st' Ha). destruct (Engine.drain_inner env others gen st'). exact IH.
Qed.

Lemma drain_all_numbered (gens : list Engine.generator) :
  forall st, numbered env st -> numbered env (snd (Engine.drain_all env gens st)).
Proof.
  induction gens as [|gen gens IH]; intros st Hst; cbn [Engine.drain_all]; [exact Hst|].
  now apply drain_inner_numbered.
Qed.

(** While nobody stops it, the driver appends to the results exactly what it
    yields. *)
Lemma drain_inner_results
  (others : Engine.state U -> list Engine.DerivationResult * Engine.state U) :
  (forall st, Engine.shouldStop st = false ->
     Engine.results (snd (others st)) = Engine.results st ++ fst (others st)) ->
  forall gen st, Engine.shouldStop st = false ->
  Engine.results (snd (Engine.drain_inner env others gen st))
  = Engine.results st ++ fst (Engine.drain_inner env others gen st).
Proof.
  intros Ho gen. induction gen as [|[|k m i] gen IH]; intros st Hst; cbn [Engine.drain_inner].
  - now apply Ho.
  - rewrite Hst. now apply IH.
  - destruct (addResult_cases env st k m i) as [[Hk Ha]|[Hk (s1 & x & Ha & Kx & Rx & Sx)]];
      rewrite Ha.
    + now apply IH.
    + rewrite Hst in Sx. rewrite Sx. specialize (IH s1 Sx).
      destruct (Engine.drain_inner env others gen s1) as [l s2]. cbn [fst snd] in *.
      rewrite IH, Rx, <- app_assoc. reflexivity.
Qed.

Lemma drain_all_results (gens : list Engine.generator) :
  forall st, Engine.shouldStop st = false ->
  Engine.results (snd (Engine.drain_all env gens st))
  = Engine.results st ++ fst (Engine.drain_all env gens st).
Proof.
  induction gens as [|gen gens IH]; intros st Hst; cbn [Engine.drain_all].
  - cbn. now rewrite app_nil_r.
  - now apply drain_inner_results.
Qed.

End EngineBookkeeping.

(** X22: the engine numbers its results.  In every state that a run
    reaches from a new engine (any generator, any use of [stop()] by the
    consumer, or the combined driver) the counter is the number of results
    and the [i]-th result, counted from 1, carries the iteration [i] and the
    [i]-th reading of the clock; and when nobody stops it, the [i]-th result
    the combined driver yields is the [i]-th result of the engine. *)
Theorem engine_numbers_results `{Host} {U : Type} (env : Engine.environment U) (u : U) :
  numbered env (Engine.create u) /\
  (forall st, numbered env st -> numbered env (Engine.stop st)) /\
  (forall gen stops fuel n st, numbered env st ->
     numbered env (snd (Engine.consume env stops fuel n gen st))) /\
  (forall st, numbered env st -> numbered env (snd (Engine.runAllDerivations env st))) /\
  (let run := Engine.runAllDerivations env (Engine.create u) in
   Engine.results (snd run) = fst run /\
   forall i r, nth_error (fst run) i = Some r ->
     Engine.iteration r = Z.of_nat (Datatypes.S i) /\
     Engine.timestamp r = Engine.clock env i).
Proof.
  assert (H0 : numbered env (Engine.create u)).
  { split; [reflexivity|]. split; [reflexivity|]. intros [|i] r E; discriminate E. }
  split; [exact H0|]. split; [apply stop_numbered|]. split.
  - intros gen stops fuel n st. apply consume_numbered.
  - split.
    + intros st. apply drain_all_numbered.
    + cbv zeta. unfold Engine.runAllDerivations.
      pose proof (drain_all_results env Engine.generators (Engine.create u) eq_refl) as Hr.
      cbn [Engine.results Engine.create app] in Hr.
      pose proof (drain_all_numbered env Engine.generators _ H0) as (_ & _ & Hn).
      rewrite Hr in Hn. split; [exact Hr|exact Hn].
Qed.

Section Batch.
Context {U : Type} (env : Engine.environment U).

(** One call of [next], seen from the keys the generator has still to
    yield. *)
Lemma next_yielded (gen : Engine.generator) :
  forall st st' r gen',
  Engine.shouldStop st = false ->
  Engine.next env gen st = (st', r, gen') ->
  Engine.shouldStop st' = false /\
  match r with
  | Some x => yielded_keys gen = Engine.key x :: yielded_keys gen' /\
              (length gen' < length gen)%nat
  | None => yielded_keys gen = []
  end.
Proof.
  induction gen as [|[|k m i] gen IH]; intros st st' r gen' Hst E; cbn [Engine.next] in E.
  - injection E as <- <- <-. now split.
  - rewrite Hst in E. destruct (IH _ _ _ _ Hst E) as [H1 H2]. split; [exact H1|].
    destruct r; cbn [yielded_keys length]; [|exact H2].
    destruct H2 as [H2 H3]. split; [exact H2|lia].
  - destruct (addResult_cases env st k m i) as [[Hk Ha]|[Hk (s1 & x & Ha & Kx & Rx & Sx)]];
      rewrite Ha in E.
    + destruct (IH _ _ _ _ Hst E) as [H1 H2]. split; [exact H1|].
      cbn [yielded_keys]. rewrite Hk.
      destruct r; cbn [length]; [|exact H2]. destruct H2 as [H2 H3]. split; [exact H2|lia].
    + injection E as <- <- <-. split; [congruence|].
      cbn [yielded_keys length]. rewrite Hk, Kx. split; [reflexivity|lia].
Qed.

Lemma collect_keys (limit : Z) (fuel : nat) :
  forall count gen st,
  Engine.shouldStop st = false -> (length gen < fuel)%nat ->
  map Engine.key (fst (fst (AgentTools.collect env limit fuel count gen st)))
  = firstn (Z.to_nat (Z.max 1 (limit - count))) (yielded_keys gen).
Proof.
  induction fuel as [|fuel IH]; intros count gen st Hst Hf; [lia|].
  cbn [AgentTools.collect].
  destruct (Engine.next env gen st) as [[st' r] gen'] eqn:En.
  destruct (next_yielded gen st st' r gen' Hst En) as [Hs' Hy].
  destruct r as [x|].
  - destruct Hy as [Hy Hl]. rewrite Hy. cbv zeta.
    destruct (Z.leb_spec limit (count + 1)) as [Hle|Hgt].
    + replace (Z.max 1 (limit - count)) with 1 by lia. reflexivity.
    + specialize (IH (count + 1) gen' st' Hs' ltac:(lia)).
      destruct (AgentTools.collect env limit fuel (count + 1) gen' st') as [[keys c'] s''].
      cbn [fst map] in *. rewrite IH.
      replace (Z.max 1 (limit - count)) with (Z.succ (Z.max 1 (limit - (count + 1)))) by lia.
      rewrite Z2Nat.inj_succ by lia. reflexivity.
  - rewrite Hy. cbn. now rewrite firstn_nil.
Qed.

End Batch.

(** X23: a batch of a derivation method returns the first keys the method
    generates, in order: [limit] of them when there are as many, with 100
    for a limit of zero and one key for a negative limit. *)
Theorem run_derivation_batch_keys (clock : nat -> Z) (limit : Z) (gen : Engine.generator) :
  AgentTools.keysFound (AgentTools.run_derivation_batch clock limit gen)
  = firstn (Z.to_nat (Z.max 1 (if limit =? 0 then 100 else limit))) (yielded_keys gen).
Proof.
  unfold AgentTools.keysFound, AgentTools.run_derivation_batch. cbv zeta.
  pose proof (collect_keys {| Engine.clock := clock; Engine.onProgress := None |}
                (AgentTools.effective_limit limit) (Datatypes.S (length gen)) 0 gen
                (Engine.create tt) eq_refl ltac:(lia)) as Hc.
  destruct (AgentTools.collect _ _ _ _ _ _) as [[keys c] s]. cbn [fst] in Hc.
  rewrite Hc, Z.sub_0_r. reflexivity.
Qed.

(** ** The progress reports *)

Lemma addResult_reported (clock : nat -> Z)
  (st : Engine.state (list Engine.DerivationProgress)) (k m : jsstring) (i : list jsstring) :
  numbered (logging clock) st -> reported st ->
  reported (fst (Engine.addResult (logging clock) st k m i)).
Proof.
  intros (Hc & _ & _) (Hl & Hp). unfold Engine.addResult.
  destruct (negb (Regex.test Engine.key_regex k)); [cbn [fst]; now split|].
  cbn [fst]. unfold reported.
  cbn [Engine.results Engine.observer logging Engine.onProgress].
  rewrite !length_app. cbn [length]. split; [lia|].
  intros j p Hj.
  destruct (Nat.lt_ge_cases j (length (Engine.observer st))) as [Hlt|Hge].
  - rewrite nth_error_app1 in Hj by exact Hlt.
    destruct (Hp j p Hj) as (H1 & H2 & H3 & H4 & r & H5 & H6).
    split; [exact H1|]. split; [exact H2|]. split.
    + rewrite firstn_app. replace (Datatypes.S j - length (Engine.results st))%nat with 0%nat by lia.
      cbn [firstn]. now rewrite app_nil_r.
    + split; [exact H4|]. exists r. split; [|exact H6].
      rewrite nth_error_app1 by lia. exact H5.
  - rewrite nth_error_app2 in Hj by exact Hge.
    destruct (j - length (Engine.observer st))%nat as [|d] eqn:Ed;
      [|destruct d; discriminate Hj].
    cbn [nth_error] in Hj. injection Hj as <-.
    assert (j = length (Engine.results st)) by lia. subst j.
    cbn [Engine.totalAttempts Engine.currentAttempt Engine.keysGenerated Engine.matchFound
         Engine.currentMethod].
    split; [lia|]. split; [lia|]. split.
    + rewrite firstn_all2; [reflexivity|]. rewrite length_app. cbn [length]. lia.
    + split; [reflexivity|]. eexists. split.
      * rewrite nth_error_app2 by lia. rewrite Nat.sub_diag. reflexivity.
      * reflexivity.
Qed.

Lemma drain_inner_reported (clock : nat -> Z)
  (others : Engine.state (list Engine.DerivationProgress) ->
            list Engine.DerivationResult * Engine.state (list Engine.DerivationProgress)) :
  (forall st, numbered (logging clock) st /\ reported st ->
     numbered (logging clock) (snd (others st)) /\ reported (snd (others st))) ->
  forall gen st, numbered (logging clock) st /\ reported st ->
  numbered (logging clock) (snd (Engine.drain_inner (logging clock) others gen st)) /\
  reported (snd (Engine.drain_inner (logging clock) others gen st)).
Proof.
  intros Ho gen. induction gen as [|[|k m i] gen IH]; intros st Hst; cbn [Engine.drain_inner].
  - now apply Ho.
  - destruct (Engine.shouldStop st); [now apply Ho|now apply IH].
  - pose proof (addResult_numbered (logging clock) st k m i (proj1 Hst)) as Hn.
    pose proof (addResult_reported clock st k m i (proj1 Hst) (proj2 Hst)) as Hr.
    destruct (Engine.addResult (logging clock) st k m i) as [st' [r|]]; cbn [fst] in Hn, Hr;
      [|now apply IH].
    destruct (Engine.shouldStop st'); [now split|].
    specialize (IH st' (conj Hn Hr)).
    destruct (Engine.drain_inner (logging clock) others gen st'). exact IH.
Qed.

(** X24: the progress callback is called once for each result added, and
    never for a candidate that is discarded; the [i]-th call reports [i]
    attempts, the method of the [i]-th result and the keys of the first [i]
    results; it never reports a match.  So it is at the end of a run of the
    combined driver on a new engine. *)
Theorem progress_reports `{Host} (clock : nat -> Z) :
  (forall st k m i, numbered (logging clock) st -> reported st ->
     reported (fst (Engine.addResult (logging clock) st k m i))) /\
  (forall st k m i, Regex.test Engine.key_regex k = false ->
     Engine.observer (fst (Engine.addResult (logging clock) st k m i)) = Engine.observer st) /\
  (let st := snd (Engine.runAllDerivations (logging clock) (Engine.create [])) in
   reported st /\ Forall (fun p => Engine.matchFound p = false) (Engine.observer st)).
Proof.
  split; [intros st k m i; apply addResult_reported|]. split.
  - intros st k m i Hk. unfold Engine.addResult. now rewrite Hk.
  - cbv zeta. unfold Engine.runAllDerivations.
    assert (H0 : numbered (logging clock) (Engine.create []) /\ reported (Engine.create [])).
    { split; [split; [reflexivity|split; [reflexivity|intros [|i] r E; discriminate E]]|].
      split; [reflexivity|]. intros [|i] p E; discriminate E. }
    assert (Hall : forall gens st, numbered (logging clock) st /\ reported st ->
              numbered (logging clock) (snd (Engine.drain_all (logging clock) gens st)) /\
              reported (snd (Engine.drain_all (logging clock) gens st))).
    { induction gens as [|gen gens IH]; intros st Hst; cbn [Engine.drain_all]; [exact Hst|].
      now apply drain_inner_reported. }
    destruct (Hall Engine.generators _ H0) as [_ Hr]. split; [exact Hr|].
    apply Forall_forall. intros p Hp. apply In_nth_error in Hp. destruct Hp as [i Hi].
    destruct Hr as [_ Hr]. now destruct (Hr i p Hi) as (_ & _ & _ & Hm & _).
Qed.

(** ** Commutativity of the addition of points *)

Section ChordSymmetry.
Variable p : Z.
Add Ring zmod_chord_ring : (Zmod.ring_theory p).
Local Notation "a + b" := (Zmod.add a b).
Local Notation "a * b" := (Zmod.mul a b).
Local Notation "a - b" := (Zmod.sub a b).

Lemma slope_symmetric (X1 Y1 X2 Y2 I1 I2 : Zmod p) :
  (X2 - X1) * I1 = Zmod.one -> (X1 - X2) * I2 = Zmod.one ->
  (Y1 - Y2) * I2 = (Y2 - Y1) * I1.
Proof.
  intros H1 H2.
  transitivity ((Y1 - Y2) * I2 * ((X2 - X1) * I1)); [rewrite H1; ring|].
  transitivity ((Y2 - Y1) * I1 * ((X1 - X2) * I2)); [ring|]. rewrite H2. ring.
Qed.

Lemma chord_ordinate_symmetric (X1 Y1 X2 Y2 I X : Zmod p) :
  (X2 - X1) * I = Zmod.one ->
  (Y2 - Y1) * I * (X1 - X) - Y1 = (Y2 - Y1) * I * (X2 - X) - Y2.
Proof.
  intros H1.
  transitivity ((Y2 - Y1) * I * (X2 - X) - Y1 - (Y2 - Y1) * ((X2 - X1) * I)); [ring|].
  rewrite H1. ring.
Qed.

End ChordSymmetry.

Lemma mod_congruent (a b : Z) :
  Zmod.of_Z Validator.P a = Zmod.of_Z Validator.P b ->
  Validator.mod_ a Validator.P = Validator.mod_ b Validator.P.
Proof.
  intros E. pose proof P_gt_1. rewrite !mod_modulo by lia. now apply Zmod.of_Z_inj.
Qed.

Lemma field_difference (x1 x2 : Z) :
  0 <= x1 < Validator.P -> 0 <= x2 < Validator.P -> x1 <> x2 ->
  Validator.mod_ (x2 - x1) Validator.P mod Validator.P <> 0.
Proof.
  intros H1 H2 Hne. pose proof P_gt_1 as HP.
  rewrite mod_modulo, Z.mod_mod by lia. intros E.
  apply Z.mod_divide in E; [|lia]. destruct E as [q Hq].
  assert (q = 0) by nia. lia.
Qed.

(** X25: the addition of points is commutative on the points of the curve
    with coordinates in the field: [pointAdd p1 p2 = pointAdd p2 p1]. *)
Theorem pointAdd_commutative (p1 p2 : Validator.Point) :
  Shape.curve_point p1 -> Shape.curve_point p2 ->
  Validator.pointAdd p1 p2 = Validator.pointAdd p2 p1.
Proof.
  destruct p1 as [[x1 y1]|], p2 as [[x2 y2]|]; try reflexivity.
  intros [[Hx1 Hy1] C1] [[Hx2 Hy2] C2]. cbn [fst snd] in *.
  pose proof P_gt_1 as HP. unfold Validator.pointAdd.
  rewrite (Z.eqb_sym x2 x1). destruct (Z.eqb_spec x1 x2) as [<-|Hx].
  - rewrite (Z.add_comm y2 y1).
    destruct (Z.eqb_spec (Validator.mod_ (y1 + y2) Validator.P) 0) as [|Hs]; [reflexivity|].
    rewrite mod_modulo in Hs by lia.
    assert (y1 = y2) as <- by (apply (same_ordinate x1); assumption). reflexivity.
  - pose proof (inverse_Zmod _ (proj1 (mod_range (x2 - x1) Validator.P ltac:(lia)))
                  (field_difference x1 x2 Hx1 Hx2 Hx)) as I1.
    pose proof (inverse_Zmod _ (proj1 (mod_range (x1 - x2) Validator.P ltac:(lia)))
                  (field_difference x2 x1 Hx2 Hx1 (not_eq_sym Hx))) as I2.
    rewrite of_Z_mod_, Zmod.of_Z_sub in I1, I2.
    set (i1 := Validator.modInverse (Validator.mod_ (x2 - x1) Validator.P) Validator.P) in *.
    set (i2 := Validator.modInverse (Validator.mod_ (x1 - x2) Validator.P) Validator.P) in *.
    assert (Es : Validator.mod_ ((y1 - y2) * i2) Validator.P
                 = Validator.mod_ ((y2 - y1) * i1) Validator.P).
    { apply mod_congruent. push_of_Z.
      exact (slope_symmetric Validator.P _ _ _ _ _ _ I1 I2). }
    rewrite Es. set (s := Validator.mod_ ((y2 - y1) * i1) Validator.P).
    replace (s * s - x2 - x1) with (s * s - x1 - x2) by ring.
    set (x := Validator.mod_ (s * s - x1 - x2) Validator.P).
    f_equal. f_equal. apply mod_congruent. unfold s. push_of_Z.
    exact (chord_ordinate_symmetric Validator.P _ _ _ _ _ _ I1).
Qed.

Lemma pointAdd_commutative_witness :
  let Q := Validator.pointAdd (Some Shape.G) (Some Shape.G) in
  Shape.curve_point (Some Shape.G) /\ Shape.curve_point Q /\
  Validator.pointAdd (Some Shape.G) Q = Validator.pointAdd Q (Some Shape.G).
Proof.
  intros Q.
  assert (HQ : Shape.curve_point Q)
    by (vm_compute; split; [split; split; reflexivity || discriminate|reflexivity]).
  split; [exact G_curve_point|]. split; [exact HQ|].
  exact (pointAdd_commutative (Some Shape.G) Q G_curve_point HQ).
Defined.

(** ** White space around a key *)

Lemma trimStart_split (s : jsstring) :
  exists w, s = w ++ trimStart s /\ Forall (fun c => is_white_space c = true) w /\
            forall c, hd_error (trimStart s) = Some c -> is_white_space c = false.
Proof.
  induction s as [|a s (w & E & Hw & Hh)].
  - exists []. repeat split; [constructor|discriminate].
  - cbn [trimStart]. destruct (is_white_space a) eqn:Ea.
    + exists (a :: w). split; [cbn [app]; now f_equal|]. split; [now constructor|exact Hh].
    + exists []. split; [reflexivity|]. split; [constructor|]. now intros c [= <-].
Qed.

Lemma trimStart_all_white_space (w : jsstring) :
  Forall (fun c => is_white_space c = true) w -> trimStart w = [].
Proof.
  intros Hw. rewrite <- (app_nil_r w). now rewrite trimStart_white_space.
Qed.

Lemma trimStart_fixed (t : jsstring) :
  (forall c, hd_error t = Some c -> is_white_space c = false) -> trimStart t = t.
Proof. apply trimStart_head. Qed.

(** White space on both sides of a text is trimmed away with the white
    space the text has itself. *)
Lemma trim_white_space (w1 s w2 : jsstring) :
  Forall (fun c => is_white_space c = true) w1 ->
  Forall (fun c => is_white_space c = true) w2 ->
  trim (w1 ++ s ++ w2) = trim s.
Proof.
  intros H1 H2. unfold trim. rewrite trimStart_white_space by exact H1.
  destruct (trimStart_split s) as (w & E & Hw & Hh).
  destruct (trimStart s) as [|c t] eqn:Et.
  - rewrite app_nil_r in E. subst s.
    rewrite trimStart_all_white_space; [reflexivity|]. apply Forall_app. now split.
  - assert (Ec : is_white_space c = false) by (now apply Hh).
    rewrite E at 1. rewrite <- app_assoc, trimStart_white_space by exact Hw.
    cbn [app trimStart]. rewrite Ec. unfold trimEnd.
    change (c :: t ++ w2) with ((c :: t) ++ w2).
    rewrite rev_app_distr, trimStart_white_space; [reflexivity|].
    apply Forall_forall. intros a Ha. apply in_rev in Ha.
    rewrite Forall_forall in H2. now apply H2.
Qed.

Lemma trim_idempotent (s : jsstring) : trim (trim s) = trim s.
Proof.
  unfold trim at 2 3.
  destruct (trimStart_split s) as (w & E & Hw & Hh).
  set (t := trimStart s) in *. unfold trimEnd.
  destruct (trimStart_split (rev t)) as (v & E' & Hv & Hh').
  set (u := trimStart (rev t)) in *.
  apply trim_ends.
  - intros c Hc. destruct (rev u) as [|a r] eqn:Er; [discriminate|].
    cbn [hd_error] in Hc. injection Hc as <-.
    assert (Et : t = rev u ++ rev v)
      by (rewrite <- rev_app_distr, <- E'; symmetry; apply rev_involutive).
    rewrite Er in Et. apply Hh. rewrite Et. reflexivity.
  - intros d Hd. rewrite rev_involutive in Hd. now apply Hh'.
Qed.

(** X26: [detectKeyFormat] sees a key through the white space around it:
    adding white space before and after does not change the format, and
    the format of a key is the format of its trimming. *)
Theorem detectKeyFormat_white_space (w1 key w2 : jsstring) :
  Forall (fun c => is_white_space c = true) w1 ->
  Forall (fun c => is_white_space c = true) w2 ->
  Validator.detectKeyFormat (w1 ++ key ++ w2) = Validator.detectKeyFormat key /\
  Validator.detectKeyFormat (trim key) = Validator.detectKeyFormat key.
Proof.
  intros H1 H2. unfold Validator.detectKeyFormat.
  now rewrite trim_white_space, trim_idempotent.
Qed.

Lemma detectKeyFormat_white_space_witness :
  let w1 := [32; 9] in let w2 := [10] in
  let key := lit "5HueCGU8rMjxEXxiPuD5BDku4MkFqeZyd4dZ1jvhTVqvbTLvyTJ" in
  Forall (fun c => is_white_space c = true) w1 /\
  Forall (fun c => is_white_space c = true) w2 /\
  Validator.detectKeyFormat (w1 ++ key ++ w2) = Validator.WIF.
Proof.
  intros w1 w2 key.
  assert (H1 : Forall (fun c => is_white_space c = true) w1) by (repeat constructor).
  assert (H2 : Forall (fun c => is_white_space c = true) w2) by (repeat constructor).
  split; [exact H1|]. split; [exact H2|].
  exact (eq_trans (proj1 (detectKeyFormat_white_space w1 key w2 H1 H2)) eq_refl).
Defined.

(** ** More on [modInverse] and on [stop] *)

(** X27: on the residues coprime to the modulus, [modInverse] is its own
    inverse: the inverse of the inverse of [a] is [a mod m]. *)
Theorem modInverse_involution (a m : Z) :
  0 <= a -> 1 < m -> Z.gcd a m = 1 ->
  Z.gcd (Validator.modInverse a m) m = 1 /\
  Validator.modInverse (Validator.modInverse a m) m = a mod m.
Proof.
  intros Ha Hm Hg.
  set (i := Validator.modInverse a m).
  assert (Hi : 0 <= i < m).
  { unfold i, Validator.modInverse.
    destruct (while_loop _ _ _ _) as [[[old_r r] old_s] s]. apply mod_range. lia. }
  destruct (modInverse_divides a m Ha Hm Hg) as [q Hq]. fold i in Hq.
  assert (Hgi : Z.gcd i m = 1).
  { apply Z.bezout_1_gcd. exists a, (- q). lia. }
  split; [exact Hgi|].
  set (j := Validator.modInverse i m).
  assert (Hj : 0 <= j < m).
  { unfold j, Validator.modInverse.
    destruct (while_loop _ _ _ _) as [[[old_r r] old_s] s]. apply mod_range. lia. }
  destruct (modInverse_divides i m (proj1 Hi) Hm Hgi) as [q' Hq']. fold j in Hq'.
  apply Z.mod_unique with (q * j - q' * a); [lia|]. nia.
Qed.

Lemma modInverse_involution_witness :
  Z.gcd 10 17 = 1 /\ Validator.modInverse (Validator.modInverse 10 17) 17 = 10.
Proof.
  split; [reflexivity|].
  exact (proj2 (modInverse_involution 10 17 ltac:(lia) ltac:(lia) eq_refl)).
Defined.

Section StopTruncates.
Context {U : Type} (env : Engine.environment U).

(** Whatever the flag, what [next] yields is the first key the generator
    has left, and the generator it leaves has the keys after it left. *)
Lemma next_first_key (gen : Engine.generator) :
  forall st st' x gen',
  Engine.next env gen st = (st', Some x, gen') ->
  yielded_keys gen = Engine.key x :: yielded_keys gen'.
Proof.
  induction gen as [|[|k m i] gen IH]; intros st st' x gen' E; cbn [Engine.next] in E.
  - discriminate E.
  - destruct (Engine.shouldStop st); [discriminate E|]. cbn [yielded_keys]. eapply IH, E.
  - destruct (addResult_cases env st k m i) as [[Hk Ha]|[Hk (s1 & y & Ha & Ky & Ry & Sy)]];
      rewrite Ha in E; cbn [yielded_keys]; rewrite Hk.
    + eapply IH, E.
    + injection E as <- <- <-. now rewrite Ky.
Qed.

Lemma consume_prefix (stops : nat -> bool) (fuel : nat) :
  forall n gen st,
  exists rest,
    yielded_keys gen
    = map Engine.key (fst (Engine.consume env stops fuel n gen st)) ++ rest.
Proof.
  induction fuel as [|fuel IH]; intros n gen st; cbn [Engine.consume].
  - now exists (yielded_keys gen).
  - destruct (Engine.next env gen (if stops n then Engine.stop st else st))
      as [[s1 [x|]] gen1] eqn:En.
    + destruct (IH (Datatypes.S n) gen1 s1) as [rest Hr].
      destruct (Engine.consume env stops fuel (Datatypes.S n) gen1 s1) as [l s2].
      exists rest. cbn [fst map app] in *. rewrite (next_first_key _ _ _ _ _ En).
      now f_equal.
    + now exists (yielded_keys gen).
Qed.

End StopTruncates.

(** X28: [stop()] cuts a run short and changes nothing else: whenever and
    however often the consumer of a generator calls it, the keys yielded are
    an initial part of the keys the generator yields when it is left to
    run, in the same order. *)
Theorem stop_truncates {U : Type} (env : Engine.environment U)
  (stops : nat -> bool) (fuel n : nat) (gen : Engine.generator) (u : U) :
  exists rest,
    map Engine.key (fst (Engine.drain env gen (Engine.create u)))
    = map Engine.key (fst (Engine.consume env stops fuel n gen (Engine.create u))) ++ rest.
Proof.
  destruct (consume_prefix env stops fuel n gen (Engine.create u)) as [rest Hr].
  exists rest. rewrite <- Hr.
  exact (proj1 (drain_keys env gen (Engine.create u) eq_refl)).
Qed.
